(** * Smart Task Manager: the rule-based classifier of [src/lib/classification.ts]

    A shallow embedding of the keyword classifier and of the entity
    extractors, together with the part of the JavaScript runtime they rely
    on (strings as sequences of UTF-16 code units, [includes], [trim],
    insertion-ordered [Set], and the backtracking matcher of regular
    expressions as ECMA-262 describes it). *)

From Stdlib Require Import String Ascii NArith Arith Bool Lia List Permutation Sorted
  DecimalString.
Import ListNotations.
Open Scope string_scope.
Open Scope nat_scope.
Open Scope list_scope.

(** ** JavaScript strings *)

(** A string is its sequence of code units. *)
Definition jsstring := list N.

(** Source literals are ASCII; [js "abc"] is the literal ['abc']. *)
Definition js (s : string) : jsstring := map N_of_ascii (list_ascii_of_string s).

Definition jss (l : list string) : list jsstring := map js l.

Fixpoint jsstring_eqb (a b : jsstring) : bool :=
  match a, b with
  | [], [] => true
  | x :: a', y :: b' => N.eqb x y && jsstring_eqb a' b'
  | _, _ => false
  end.

(** [startsWith s k]: [k] is a prefix of [s]. *)
Fixpoint startsWith (s k : jsstring) {struct k} : bool :=
  match k, s with
  | [], _ => true
  | _ :: _, [] => false
  | x :: k', y :: s' => N.eqb x y && startsWith s' k'
  end.

(** [String.prototype.includes]: [k] occurs in [s] at some position. *)
Fixpoint includes (s k : jsstring) : bool :=
  startsWith s k ||
  match s with
  | [] => false
  | _ :: s' => includes s' k
  end.

(** The property [includes] decides. *)
Definition Substring (k s : jsstring) : Prop :=
  exists pre post, s = pre ++ k ++ post.

(** [s.slice(i, e)] for [i <= e]. *)
Definition slice (s : jsstring) (i e : nat) : jsstring := firstn (e - i) (skipn i s).

(** ASCII letters, and [toLowerCase] on a string of ASCII code units. *)
Definition isAscii (c : N) : bool := N.ltb c 128.
Definition asciiLower (c : N) : N :=
  if N.leb 65 c && N.leb c 90 then N.add c 32 else c.
Definition asciiUpper (c : N) : N :=
  if N.leb 97 c && N.leb c 122 then N.sub c 32 else c.

(** A [toLowerCase] that maps [A-Z] to [a-z] and keeps every other code
    unit; it is what the host function does on ASCII text, and serves as
    the instance at which the general results are evaluated. *)
Definition toLowerCaseAscii (s : jsstring) : jsstring := map asciiLower s.

(** [Set.prototype.add] followed by [Array.from]: insertion order, no
    repeated value. *)
Definition setAdd (s : list jsstring) (v : jsstring) : list jsstring :=
  if existsb (jsstring_eqb v) s then s else s ++ [v].

(** WhiteSpace and LineTerminator code units: what [\s] matches and what
    [trim] strips. *)
Definition whiteSpace : list N :=
  [9; 10; 11; 12; 13; 32; 160; 5760; 8192; 8193; 8194; 8195; 8196; 8197; 8198;
   8199; 8200; 8201; 8202; 8232; 8233; 8239; 8287; 12288; 65279]%N.

Definition isWhiteSpace (c : N) : bool := existsb (N.eqb c) whiteSpace.

Fixpoint trimStart (s : jsstring) : jsstring :=
  match s with
  | [] => []
  | c :: s' => if isWhiteSpace c then trimStart s' else s
  end.

Definition trim (s : jsstring) : jsstring := rev (trimStart (rev (trimStart s))).

(** ** Regular expressions *)

(** The syntax the source's patterns use.  A literal character is the
    one-element set; [Group n] is the [n]-th capturing parenthesis;
    quantifiers are greedy. *)
Inductive regex :=
| Empty
| CharSet (A : list N)
| WordBoundary
| Seq (r1 r2 : regex)
| Alt (r1 r2 : regex)
| Quant (min : nat) (max : option nat) (r : regex)
| Group (n : nat) (r : regex).

Fixpoint seqs (l : list regex) : regex :=
  match l with
  | [] => Empty
  | [r] => r
  | r :: l' => Seq r (seqs l')
  end.

Fixpoint alts (l : list regex) : regex :=
  match l with
  | [] => CharSet []
  | [r] => r
  | r :: l' => Alt r (alts l')
  end.

Definition lit (s : string) : regex := seqs (map (fun ch => CharSet [ch]) (js s)).
Definition words (l : list string) : regex := alts (map lit l).

Definition range (lo hi : string) : list N :=
  match js lo, js hi with
  | [a], [b] => map N.of_nat (seq (N.to_nat a) (S (N.to_nat b) - N.to_nat a))
  | _, _ => []
  end.

Definition digit : list N := range "0" "9".
Definition upperAZ : list N := range "A" "Z".
Definition lowerAZ : list N := range "a" "z".
(** [\w]: the basic word characters. *)
Definition wordCharacters : list N := lowerAZ ++ upperAZ ++ digit ++ js "_".

Definition star (r : regex) : regex := Quant 0 None r.
Definition plus (r : regex) : regex := Quant 1 None r.
Definition opt (r : regex) : regex := Quant 0 (Some 1) r.
Definition rep (lo hi : nat) (r : regex) : regex := Quant lo (Some hi) r.

(** The capturing parentheses inside a pattern. *)
Fixpoint groups (r : regex) : list nat :=
  match r with
  | Empty | CharSet _ | WordBoundary => []
  | Seq r1 r2 | Alt r1 r2 => groups r1 ++ groups r2
  | Quant _ _ r' => groups r'
  | Group n r' => n :: groups r'
  end.

(** *** The matcher (ECMA-262, 22.2.2) *)

Record MatchState := {
  endIndex : nat;
  captures : list (nat * (nat * nat))
}.

Definition Continuation := MatchState -> option MatchState.
Definition Matcher := MatchState -> Continuation -> option MatchState.

(** Canonicalize without the [u] flag.  The patterns contain ASCII letters
    only, and a code unit outside ASCII never canonicalizes to an ASCII one,
    so upper-casing [a-z] is all that a comparison with a pattern character
    can observe. *)
Definition canonicalize (ignoreCase : bool) (ch : N) : N :=
  if ignoreCase then asciiUpper ch else ch.

(** CharacterSetMatcher: some member of [A] canonicalizes as [ch] does. *)
Definition charSetMatches (ignoreCase : bool) (A : list N) (ch : N) : bool :=
  existsb (fun a => N.eqb (canonicalize ignoreCase a) (canonicalize ignoreCase ch)) A.

Definition wordChar (ch : N) : bool := existsb (N.eqb ch) wordCharacters.

(** IsWordChar at [e] and at [e - 1]. *)
Definition isWordChar (input : jsstring) (e : nat) : bool :=
  match nth_error input e with
  | Some ch => wordChar ch
  | None => false
  end.

Definition isWordCharBefore (input : jsstring) (e : nat) : bool :=
  match e with
  | 0 => false
  | S p => isWordChar input p
  end.

Definition clearCaptures (parens : list nat) (caps : list (nat * (nat * nat))) :=
  filter (fun entry => negb (existsb (Nat.eqb (fst entry)) parens)) caps.

(** RepeatMatcher, greedy, by recursion on [max]. *)
Fixpoint repeatMatcher (m : Matcher) (parens : list nat) (max min : nat)
    (x : MatchState) (c : Continuation) {struct max} : option MatchState :=
  match max with
  | 0 => c x
  | S max' =>
      let d : Continuation := fun y =>
        if (min =? 0) && (endIndex y =? endIndex x) then None
        else repeatMatcher m parens max' (pred min) y c in
      let xr := {| endIndex := endIndex x;
                   captures := clearCaptures parens (captures x) |} in
      if min =? 0 then
        match m xr d with
        | Some z => Some z
        | None => c x
        end
      else m xr d
  end.

(** An unbounded quantifier runs at most [min] iterations that may match the
    empty string, and every later one must consume input: a bound no run
    reaches stands for infinity. *)
Definition iterationBound (input : jsstring) (min : nat) (max : option nat) : nat :=
  match max with
  | Some k => k
  | None => min + S (length input)
  end.

Fixpoint matcher (ignoreCase : bool) (input : jsstring) (r : regex)
    (x : MatchState) (c : Continuation) {struct r} : option MatchState :=
  match r with
  | Empty => c x
  | CharSet A =>
      match nth_error input (endIndex x) with
      | None => None
      | Some ch =>
          if charSetMatches ignoreCase A ch
          then c {| endIndex := S (endIndex x); captures := captures x |}
          else None
      end
  | WordBoundary =>
      if xorb (isWordCharBefore input (endIndex x)) (isWordChar input (endIndex x))
      then c x else None
  | Seq r1 r2 =>
      matcher ignoreCase input r1 x (fun y => matcher ignoreCase input r2 y c)
  | Alt r1 r2 =>
      match matcher ignoreCase input r1 x c with
      | Some z => Some z
      | None => matcher ignoreCase input r2 x c
      end
  | Quant min max r' =>
      repeatMatcher (matcher ignoreCase input r') (groups r')
                    (iterationBound input min max) min x c
  | Group n r' =>
      matcher ignoreCase input r' x
        (fun y => c {| endIndex := endIndex y;
                       captures := (n, (endIndex x, endIndex y)) :: captures y |})
  end.

(** *** What a pattern can consume *)

(** The strings a pattern may consume, whatever surrounds them: an assertion
    consumes nothing, a quantifier any number of pieces. *)
Fixpoint Lang (flag_i : bool) (r : regex) (s : jsstring) {struct r} : Prop :=
  match r with
  | Empty | WordBoundary => s = []
  | CharSet A => exists ch, s = [ch] /\ charSetMatches flag_i A ch = true
  | Seq r1 r2 => exists s1 s2, s = s1 ++ s2 /\ Lang flag_i r1 s1 /\ Lang flag_i r2 s2
  | Alt r1 r2 => Lang flag_i r1 s \/ Lang flag_i r2 s
  | Quant _ _ r' => exists pieces, s = concat pieces /\ Forall (Lang flag_i r') pieces
  | Group _ r' => Lang flag_i r' s
  end.

(** What a successful run of a matcher for the language [L] guarantees: the
    continuation was entered, further on in the input, after a string of
    [L] was consumed. *)
Definition consumes (input : jsstring) (L : jsstring -> Prop) (m : Matcher) : Prop :=
  forall x c z, m x c = Some z -> endIndex x <= length input ->
    exists y, c y = Some z /\ endIndex x <= endIndex y <= length input /\
              L (slice input (endIndex x) (endIndex y)).

(** A matcher asks its continuation only about states further on in the
    input. *)
Definition forward (input : jsstring) (m : Matcher) : Prop :=
  forall x c1 c2, endIndex x <= length input ->
    (forall y, endIndex x <= endIndex y <= length input -> c1 y = c2 y) ->
    m x c1 = m x c2.

(** Every character of the pattern is an ASCII one. *)
Fixpoint asciiOnly (r : regex) : bool :=
  match r with
  | Empty | WordBoundary => true
  | CharSet A => forallb isAscii A
  | Seq r1 r2 | Alt r1 r2 => asciiOnly r1 && asciiOnly r2
  | Quant _ _ r' | Group _ r' => asciiOnly r'
  end.

(** A number of code units every match consumes at least. *)
Fixpoint minLen (r : regex) : nat :=
  match r with
  | Empty | WordBoundary | Quant _ _ _ => 0
  | CharSet _ => 1
  | Seq r1 r2 => minLen r1 + minLen r2
  | Alt r1 r2 => Nat.min (minLen r1) (minLen r2)
  | Group _ r' => minLen r'
  end.

(** *** What the capturing parentheses hold *)

(** [G n] holds of every string the [n]-th parentheses of the pattern can
    consume. *)
Fixpoint groupsHold (flag_i : bool) (G : nat -> jsstring -> Prop) (r : regex)
    {struct r} : Prop :=
  match r with
  | Empty | CharSet _ | WordBoundary => True
  | Seq r1 r2 | Alt r1 r2 => groupsHold flag_i G r1 /\ groupsHold flag_i G r2
  | Quant _ _ r' => groupsHold flag_i G r'
  | Group n r' => (forall s, Lang flag_i r' s -> G n s) /\ groupsHold flag_i G r'
  end.

(** [G n] holds of what the state records for the [n]-th parentheses. *)
Definition capturesHold (input : jsstring) (G : nat -> jsstring -> Prop)
    (x : MatchState) : Prop :=
  Forall (fun entry => G (fst entry) (slice input (fst (snd entry)) (snd (snd entry))))
         (captures x).

(** [consumes], with the captures of the state kept within [G]. *)
Definition consumesHolding (input : jsstring) (G : nat -> jsstring -> Prop)
    (L : jsstring -> Prop) (m : Matcher) : Prop :=
  forall x c z, m x c = Some z -> endIndex x <= length input ->
    exists y, c y = Some z /\ endIndex x <= endIndex y <= length input /\
              L (slice input (endIndex x) (endIndex y)) /\
              (capturesHold input G x -> capturesHold input G y).

(** The string is empty or begins with a code unit that [trim] keeps. *)
Definition startsSolid (s : jsstring) : Prop :=
  match s with
  | [] => True
  | ch :: _ => isWhiteSpace ch = false
  end.

(** An entry of [people] or [locations]: not empty, no white space at
    either end, and found as it is in the text. *)
Definition verbatim (text x : jsstring) : Prop :=
  x <> [] /\ trim x = x /\ Substring x text.


(** *** RegExp objects *)

(** Every pattern of the source carries the [g] flag; some carry [i].
    [lastIndex] is the mutable field of the object. *)
Record RegExp := {
  source : regex;
  ignoreCase : bool;
  lastIndex : nat
}.

Definition newRegExp (src : regex) (flag_i : bool) : RegExp :=
  {| source := src; ignoreCase := flag_i; lastIndex := 0 |}.

Definition setLastIndex (R : RegExp) (i : nat) : RegExp :=
  {| source := source R; ignoreCase := ignoreCase R; lastIndex := i |}.

(** A successful match: where it starts and the matcher's final state. *)
Definition MatchResult := (nat * MatchState)%type.

(** [match[0]]. *)
Definition matched (str : jsstring) (m : MatchResult) : jsstring :=
  slice str (fst m) (endIndex (snd m)).

(** [match[n]] for [n >= 1]: [None] is [undefined]. *)
Definition capture (str : jsstring) (m : MatchResult) (n : nat) : option jsstring :=
  match find (fun entry => fst entry =? n) (captures (snd m)) with
  | Some (_, (i, e)) => Some (slice str i e)
  | None => None
  end.

(** The loop of RegExpBuiltinExec: try [i], [i + 1], ... up to the length
    of the string; [tries] is the number of positions left. *)
Fixpoint scan (flag_i : bool) (r : regex) (str : jsstring) (tries i : nat)
    : option MatchResult :=
  match tries with
  | 0 => None
  | S tries' =>
      match matcher flag_i str r {| endIndex := i; captures := [] |} Some with
      | Some y => Some (i, y)
      | None => scan flag_i r str tries' (S i)
      end
  end.

(** [R.exec(str)] on a global RegExp: the result and the object after. *)
Definition regExpBuiltinExec (R : RegExp) (str : jsstring)
    : option MatchResult * RegExp :=
  match scan (ignoreCase R) (source R) str
             (S (length str) - lastIndex R) (lastIndex R) with
  | None => (None, setLastIndex R 0)
  | Some m => (Some m, setLastIndex R (endIndex (snd m)))
  end.

(** The loop of [RegExp.prototype[Symbol.match]] for a global RegExp. *)
Fixpoint matchLoop (rounds : nat) (R : RegExp) (str : jsstring)
    (A : list jsstring) : list jsstring * RegExp :=
  match rounds with
  | 0 => (A, R)
  | S rounds' =>
      match regExpBuiltinExec R str with
      | (None, R') => (A, R')
      | (Some m, R') =>
          let matchStr := matched str m in
          let R'' := match matchStr with
                     | [] => setLastIndex R' (S (lastIndex R'))
                     | _ => R'
                     end in
          matchLoop rounds' R'' str (A ++ [matchStr])
      end
  end.

(** [str.match(R)]: [lastIndex] is reset, every match is collected, and
    the answer is [null] when there is none.  Every round moves [lastIndex]
    forward, so [length str + 2] rounds are never used up. *)
Definition stringMatch (str : jsstring) (R : RegExp)
    : option (list jsstring) * RegExp :=
  let '(A, R') := matchLoop (S (S (length str))) (setLastIndex R 0) str [] in
  (match A with [] => None | _ => Some A end, R').

(** ** The patterns of the source *)

(** [/\bnext (week|month|monday|tuesday|wednesday|thursday|friday)\b/gi],
    the last of [datePatterns]. *)
Definition nextPattern : regex :=
  seqs [WordBoundary; lit "next ";
        Group 1 (words ["week"; "month"; "monday"; "tuesday";
                        "wednesday"; "thursday"; "friday"]);
        WordBoundary].

Definition datePatterns : list RegExp :=
  [ newRegExp (seqs [WordBoundary;
                     Group 1 (words ["today"; "tomorrow"; "yesterday"]);
                     WordBoundary]) true;
    newRegExp (seqs [WordBoundary;
                     Group 1 (words ["monday"; "tuesday"; "wednesday"; "thursday";
                                     "friday"; "saturday"; "sunday"]);
                     WordBoundary]) true;
    newRegExp (seqs [WordBoundary; rep 1 2 (CharSet digit); lit "/";
                     rep 1 2 (CharSet digit);
                     opt (Group 1 (seqs [lit "/"; rep 2 4 (CharSet digit)]));
                     WordBoundary]) false;
    newRegExp (seqs [WordBoundary; rep 1 2 (CharSet digit); lit "-";
                     rep 1 2 (CharSet digit);
                     opt (Group 1 (seqs [lit "-"; rep 2 4 (CharSet digit)]));
                     WordBoundary]) false;
    newRegExp (seqs [WordBoundary;
                     Group 1 (words ["jan"; "feb"; "mar"; "apr"; "may"; "jun";
                                     "jul"; "aug"; "sep"; "oct"; "nov"; "dec"]);
                     star (CharSet lowerAZ); lit " "; rep 1 2 (CharSet digit);
                     opt (Group 2 (seqs [opt (lit ","); lit " ";
                                         rep 4 4 (CharSet digit)]));
                     WordBoundary]) true;
    newRegExp (seqs [WordBoundary; lit "this ";
                     Group 1 (words ["week"; "month"; "year"]);
                     WordBoundary]) true;
    newRegExp nextPattern true ].

(** [[A-Z][a-z]+]. *)
Definition capitalized : regex := Seq (CharSet upperAZ) (plus (CharSet lowerAZ)).

Definition personPatterns : list RegExp :=
  [ newRegExp (seqs [alts [lit "with"; lit "by";
                           seqs [lit "assign"; opt (lit "ed"); lit " to"];
                           lit "contact"; lit "notify"; lit "tell"; lit "inform";
                           lit "call"];
                     plus (CharSet whiteSpace);
                     Group 1 (seqs [capitalized;
                                    opt (Seq (plus (CharSet whiteSpace)) capitalized)])])
              false;
    newRegExp (seqs [lit "@"; Group 1 (plus (CharSet wordCharacters))]) false ].

Definition locationPatterns : list RegExp :=
  [ newRegExp (seqs [words ["at"; "in"; "to"; "from"; "room"; "office"; "building";
                            "site"];
                     plus (CharSet whiteSpace);
                     Group 1 (seqs [capitalized;
                                    star (Seq (plus (CharSet whiteSpace)) capitalized)])])
              false;
    newRegExp (seqs [words ["room"; "office"; "building"; "site"];
                     plus (CharSet whiteSpace);
                     Group 1 (plus (CharSet (upperAZ ++ lowerAZ ++ digit)))]) true ].

Definition actionVerbPatterns : list RegExp :=
  [ newRegExp (seqs [WordBoundary;
                     Group 1 (words ["schedule"; "create"; "review"; "complete"; "send";
                                     "call"; "email"; "update"; "fix"; "check";
                                     "prepare"; "submit"; "approve"; "cancel";
                                     "organize"; "setup"; "plan"; "meet"; "discuss";
                                     "analyze"; "implement"; "deploy"]);
                     WordBoundary]) true ].

(** The module's RegExp objects that calls mutate: [match] writes the
    [lastIndex] of the date and action-verb patterns.  The person and
    location patterns are only read ([new RegExp(pattern.source,
    pattern.flags)] makes the object that is run). *)
Record ModuleState := {
  datePatternsOf : list RegExp;
  actionVerbPatternsOf : list RegExp
}.

(** The state when the module has been loaded. *)
Definition initialState : ModuleState :=
  {| datePatternsOf := datePatterns; actionVerbPatternsOf := actionVerbPatterns |}.

(** Two objects of the same pattern and flags. *)
Definition sameSource (R R' : RegExp) : Prop :=
  source R = source R' /\ ignoreCase R = ignoreCase R'.

(** A state of the loaded module: the objects are the module's, whatever
    their [lastIndex]. *)
Definition loaded (M : ModuleState) : Prop :=
  Forall2 sameSource (datePatternsOf M) datePatterns /\
  Forall2 sameSource (actionVerbPatternsOf M) actionVerbPatterns.

(** [while ((match = regex.exec(text)) !== null) if (match[1])
    found.add(match[1].trim())].  The loop of the source has no bound of its
    own: it ends when [exec] answers [null], and spins when a match is empty.
    [None] is the run that has not ended after [rounds] rounds. *)
Fixpoint execLoop (rounds : nat) (regex : RegExp) (text : jsstring)
    (found : list jsstring) : option (list jsstring) :=
  match rounds with
  | 0 => None
  | S rounds' =>
      match regExpBuiltinExec regex text with
      | (None, _) => Some found
      | (Some m, regex') =>
          execLoop rounds' regex' text
            (match capture text m 1 with
             | Some ((_ :: _) as g) => setAdd found (trim g)
             | _ => found
             end)
      end
  end.

(** ** The data model of [types/task.ts] *)

Inductive TaskCategory := scheduling | finance | technical | safety | general.
Inductive TaskPriority := high | medium | low.

Definition TaskCategory_eqb (a b : TaskCategory) : bool :=
  match a, b with
  | scheduling, scheduling | finance, finance | technical, technical
  | safety, safety | general, general => true
  | _, _ => false
  end.

Record ExtractedEntities := {
  dates : list jsstring;
  people : list jsstring;
  locations : list jsstring;
  actionVerbs : list jsstring
}.

Record ClassificationResult := {
  category : TaskCategory;
  priority : TaskPriority;
  extracted_entities : ExtractedEntities;
  suggested_actions : list jsstring
}.

(** ** The keyword tables *)

(** [categoryKeywords], in the order [Object.entries] enumerates it. *)
Definition categoryKeywords : list (TaskCategory * list jsstring) :=
  [ (scheduling, jss ["meeting"; "schedule"; "call"; "appointment"; "deadline";
                      "calendar"; "event"; "reminder"; "agenda"]);
    (finance, jss ["payment"; "invoice"; "bill"; "budget"; "cost"; "expense";
                   "money"; "price"; "financial"; "revenue"]);
    (technical, jss ["bug"; "fix"; "error"; "install"; "repair"; "maintain";
                     "update"; "deploy"; "code"; "system"; "server"]);
    (safety, jss ["safety"; "hazard"; "inspection"; "compliance"; "ppe"; "risk";
                  "emergency"; "warning"; "secure"]);
    (general, []) ].

Definition priorityKeywords (p : TaskPriority) : list jsstring :=
  match p with
  | high => jss ["urgent"; "asap"; "immediately"; "today"; "critical";
                 "emergency"; "now"; "priority"; "important"]
  | medium => jss ["soon"; "this week"; "important"; "needed"; "should"]
  | low => jss ["whenever"; "low priority"; "eventually"; "later"; "someday"]
  end.

Definition suggestedActions (c : TaskCategory) : list jsstring :=
  match c with
  | scheduling => jss ["Block calendar"; "Send invite"; "Prepare agenda"; "Set reminder"]
  | finance => jss ["Check budget"; "Get approval"; "Generate invoice"; "Update records"]
  | technical => jss ["Diagnose issue"; "Check resources"; "Assign technician"; "Document fix"]
  | safety => jss ["Conduct inspection"; "File report"; "Notify supervisor"; "Update checklist"]
  | general => jss ["Review requirements"; "Assign team member"; "Set deadline"; "Create subtasks"]
  end.

(** [categoryKeywords[c]]. *)
Definition keywordsOf (c : TaskCategory) : list jsstring :=
  match find (fun e => TaskCategory_eqb (fst e) c) categoryKeywords with
  | Some e => snd e
  | None => []
  end.

(** The non-general categories, in declaration order. *)
Definition declaredOrder : list TaskCategory :=
  [scheduling; finance; technical; safety].

Definition TaskPriority_eqb (a b : TaskPriority) : bool :=
  match a, b with
  | high, high | medium, medium | low, low => true
  | _, _ => false
  end.

(** The values of the enumerations, as the strings they are at run time. *)
Definition categoryName (c : TaskCategory) : jsstring :=
  match c with
  | scheduling => js "scheduling"
  | finance => js "finance"
  | technical => js "technical"
  | safety => js "safety"
  | general => js "general"
  end.

Definition priorityName (p : TaskPriority) : jsstring :=
  match p with
  | high => js "high"
  | medium => js "medium"
  | low => js "low"
  end.

(** ** The self-test of [classification.ts] *)

Record ClassificationTest := {
  testName : jsstring;
  inputTitle : jsstring;
  inputDescription : jsstring;
  expectedCategory : option TaskCategory;
  expectedPriority : option TaskPriority
}.

Definition classificationTests : list ClassificationTest :=
  [ {| testName := js "Scheduling category detection";
       inputTitle := js "Schedule meeting with team";
       inputDescription := js "Discuss project updates";
       expectedCategory := Some scheduling; expectedPriority := None |};
    {| testName := js "Finance category detection";
       inputTitle := js "Review invoice";
       inputDescription := js "Check the budget allocation for Q4";
       expectedCategory := Some finance; expectedPriority := None |};
    {| testName := js "High priority detection";
       inputTitle := js "Urgent fix needed";
       inputDescription := js "Critical bug in production";
       expectedCategory := None; expectedPriority := Some high |};
    {| testName := js "Technical category detection";
       inputTitle := js "Fix server error";
       inputDescription := js "Deploy hotfix to production";
       expectedCategory := Some technical; expectedPriority := None |};
    {| testName := js "Safety category detection";
       inputTitle := js "Safety inspection required";
       inputDescription := js "Check compliance with PPE regulations";
       expectedCategory := Some safety; expectedPriority := None |} ].

Record TestReport := {
  passed : nat;
  failed : nat;
  results : list jsstring
}.

Definition quoted (s : jsstring) : jsstring := [34%N] ++ s ++ [34%N].

(** [JSON.stringify(test.expected)]: the keys the literal has. *)
Definition stringifyExpected (t : ClassificationTest) : jsstring :=
  let fields :=
    match expectedCategory t with
    | Some c => [quoted (js "category") ++ js ":" ++ quoted (categoryName c)]
    | None => []
    end ++
    match expectedPriority t with
    | Some p => [quoted (js "priority") ++ js ":" ++ quoted (priorityName p)]
    | None => []
    end in
  js "{" ++
  match fields with
  | [] => []
  | f :: fs => f ++ concat (map (fun g => js "," ++ g) fs)
  end ++ js "}".

(** The check mark U+2713 and the cross U+2717. *)
Definition checkMark : jsstring := [10003%N].
Definition crossMark : jsstring := [10007%N].

(** ** The data of the task store ([types/task.ts], [lib/taskStore.ts]) *)

Inductive TaskStatus := pending | in_progress | completed.

Definition TaskStatus_eqb (a b : TaskStatus) : bool :=
  match a, b with
  | pending, pending | in_progress, in_progress | completed, completed => true
  | _, _ => false
  end.

(** [TaskHistory['action']]. *)
Inductive HistoryAction :=
  action_created | action_updated | action_status_changed | action_completed.

(** A stored task.  [category] and [priority] hold whatever string the
    caller of [createTask] passes (the source casts it); [created_at] and
    [updated_at] are ISO texts of a time, kept here as that time in
    milliseconds, which is what [new Date(text).getTime()] gives back. *)
Record Task := {
  taskId : jsstring;
  title : jsstring;
  description : jsstring;
  taskCategory : jsstring;
  taskPriority : jsstring;
  status : TaskStatus;
  assigned_to : option jsstring;
  due_date : option jsstring;
  taskEntities : option ExtractedEntities;
  taskActions : option (list jsstring);
  created_at : N;
  updated_at : N
}.

Record TaskHistory := {
  historyId : jsstring;
  task_id : jsstring;
  action : HistoryAction;
  old_value : option Task;
  new_value : Task;
  changed_at : N
}.

(** The argument of [createTask]. *)
Record NewTask := {
  newTitle : jsstring;
  newDescription : jsstring;
  newAssignedTo : option jsstring;
  newDueDate : option jsstring;
  newCategory : option jsstring;
  newPriority : option jsstring
}.

(** [Partial<Omit<Task, 'id' | 'created_at'>>]: [None] is a key that is not
    there; for an optional field of [Task], [Some None] is the key set to
    [undefined]. *)
Record TaskUpdates := {
  updTitle : option jsstring;
  updDescription : option jsstring;
  updCategory : option jsstring;
  updPriority : option jsstring;
  updStatus : option TaskStatus;
  updAssignedTo : option (option jsstring);
  updDueDate : option (option jsstring);
  updEntities : option (option ExtractedEntities);
  updActions : option (option (list jsstring));
  updUpdatedAt : option N
}.



(** The module: its two arrays, the classifier it imports, and how many
    times it has called [crypto.randomUUID()] and read the clock. *)
Record Store := {
  tasks : list Task;
  taskHistory : list TaskHistory;
  uuidCalls : nat;
  clockReads : nat;
  classifier : ModuleState
}.

(** [value || fallback] on an optional string: [undefined] and the empty
    string give way. *)
Definition orElse (value : option jsstring) (fallback : jsstring) : jsstring :=
  match value with
  | Some ((_ :: _) as s) => s
  | _ => fallback
  end.

(** [Array.prototype.findIndex]: [None] is [-1]. *)
Fixpoint findIndex {A : Type} (p : A -> bool) (l : list A) : option nat :=
  match l with
  | [] => None
  | x :: l' => if p x then Some 0 else option_map S (findIndex p l')
  end.

(** [l[i] = x] for [i] within [l]. *)
Fixpoint setAt {A : Type} (i : nat) (x : A) (l : list A) : list A :=
  match l, i with
  | [], _ => []
  | _ :: l', 0 => x :: l'
  | y :: l', S i' => y :: setAt i' x l'
  end.

(** [l.splice(i, 1)]. *)
Definition removeAt {A : Type} (i : nat) (l : list A) : list A :=
  firstn i l ++ skipn (S i) l.

(** [Array.prototype.sort] is stable: with a consistent comparator its
    answer is the one stable sorting gives.  [inOrder x y] says that the
    comparator does not put [y] before [x]. *)
Fixpoint insertInOrder {A : Type} (inOrder : A -> A -> bool) (x : A) (l : list A)
    : list A :=
  match l with
  | [] => [x]
  | y :: l' => if inOrder x y then x :: l else y :: insertInOrder inOrder x l'
  end.

Definition stableSort {A : Type} (inOrder : A -> A -> bool) (l : list A) : list A :=
  fold_right (insertInOrder inOrder) [] l.

Definition laterFirst (a b : TaskHistory) : bool := N.leb (changed_at b) (changed_at a).

(** The texts of [seedTasks]. *)
Definition sampleTexts : list (string * string * string) :=
  [ ("Schedule urgent meeting with team today about budget allocation",
     "Need to discuss Q4 budget with the finance team. Contact John and Sarah for availability.",
     "John Smith");
    ("Fix critical bug in payment system",
     "Users are experiencing errors during checkout. Deploy hotfix immediately.",
     "Alex Developer");
    ("Conduct safety inspection at Site B",
     "Quarterly compliance check for PPE and hazard identification. File report by Friday.",
     "Safety Officer");
    ("Review invoice from vendor",
     "Check the expense report and approve payment for office supplies.",
     "Finance Team");
    ("Update server configuration",
     "Maintain system performance by updating configuration. Soon this needs to be done.",
     "DevOps Team") ].

(** The milliseconds [seedTasks] adds to [Date.now()] for each due date. *)
Definition sampleDelays : list N := [0; 86400000; 172800000; 259200000; 432000000]%N.

(** The store when the module has been loaded. *)
Definition emptyStore : Store :=
  {| tasks := []; taskHistory := []; uuidCalls := 0; clockReads := 0;
     classifier := initialState |}.

(** *** Where the letter "c" can stand in a match *)

(** Every "c" of [s] but a first one comes after a letter; and [s] does not
    begin with "c" either. *)
Definition cFollowsLetter (s : jsstring) : Prop :=
  forall j, nth_error s (S j) = Some 99%N ->
    exists ch, nth_error s j = Some ch /\ In ch (upperAZ ++ lowerAZ).

Definition cInside (s : jsstring) : Prop :=
  cFollowsLetter s /\ hd_error s <> Some 99%N.

(** ** The classifier of the edge function [supabase/functions/tasks] *)

(** The edge function has a [classifyTask] of its own, with its own tables
    and patterns.  Categories and priorities are plain strings there. *)
Module Edge.

Definition categoryKeywords : list (jsstring * list jsstring) :=
  [ (js "scheduling", jss ["meeting"; "schedule"; "calendar"; "appointment"; "call";
                           "deadline"; "today"; "tomorrow"; "weekly"; "daily"]);
    (js "finance", jss ["budget"; "invoice"; "payment"; "expense"; "cost"; "price";
                        "money"; "financial"; "revenue"; "profit"]);
    (js "technical", jss ["bug"; "fix"; "deploy"; "code"; "server"; "database"; "api";
                          "error"; "update"; "software"]);
    (js "safety", jss ["safety"; "hazard"; "compliance"; "inspection"; "ppe";
                       "emergency"; "risk"; "incident"; "audit"]) ].

Definition priorityKeywords : list (jsstring * list jsstring) :=
  [ (js "high", jss ["urgent"; "critical"; "asap"; "immediately"; "emergency";
                     "priority"; "important"; "crucial"]);
    (js "medium", jss ["soon"; "moderate"; "normal"; "standard"]);
    (js "low", jss ["whenever"; "eventually"; "low priority"; "minor"; "optional"]) ].

Definition suggestedActionsMap : list (jsstring * list jsstring) :=
  [ (js "scheduling", jss ["Add to calendar"; "Send invite"; "Set reminder"]);
    (js "finance", jss ["Review budget"; "Send invoice"; "Approve payment"]);
    (js "technical", jss ["Create ticket"; "Code review"; "Deploy fix"]);
    (js "safety", jss ["File report"; "Schedule inspection"; "Update documentation"]);
    (js "general", jss ["Add notes"; "Set deadline"; "Assign team member"]) ].

(** [/(?:contact|call|meet|email)\s+([a-z]+(?:\s+[a-z]+)?)/gi]. *)
Definition peoplePattern : regex :=
  seqs [words ["contact"; "call"; "meet"; "email"];
        plus (CharSet whiteSpace);
        Group 1 (seqs [plus (CharSet lowerAZ);
                       opt (Seq (plus (CharSet whiteSpace)) (plus (CharSet lowerAZ)))])].

(** [/(?:today|tomorrow|monday|...|sunday|next week)/gi]. *)
Definition datesPattern : regex :=
  words ["today"; "tomorrow"; "monday"; "tuesday"; "wednesday"; "thursday";
         "friday"; "saturday"; "sunday"; "next week"].

Record Entities := {
  people : list jsstring;
  dates : list jsstring
}.

Record Classification := {
  category : jsstring;
  priority : jsstring;
  extracted_entities : Entities;
  suggested_actions : list jsstring
}.

(** [keywords.filter(kw => text.includes(kw)).length]. *)
Definition score (text : jsstring) (keywords : list jsstring) : nat :=
  length (filter (includes text) keywords).

(** The body of [for (const [cat, keywords] of Object.entries(categoryKeywords))],
    on the pair of [category] and [maxScore]. *)
Definition visit (text : jsstring) (st : jsstring * nat)
    (entry : jsstring * list jsstring) : jsstring * nat :=
  if snd st <? score text (snd entry) then (fst entry, score text (snd entry)) else st.

(** [object[key]] for an object with the listed properties of its own;
    [None] is [undefined]. *)
Definition property (object : list (jsstring * list jsstring)) (key : jsstring)
    : option (list jsstring) :=
  option_map snd (find (fun entry => jsstring_eqb (fst entry) key) object).

(** [priorityKeywords[name]]. *)
Definition keywordsOf (name : string) : list jsstring :=
  match property priorityKeywords (js name) with
  | Some keywords => keywords
  | None => []
  end.

(** [text.match(pattern) || []], the pattern being a literal of the call:
    a fresh object each time. *)
Definition matchesOf (text : jsstring) (pattern : regex) : list jsstring :=
  match fst (stringMatch text (newRegExp pattern true)) with
  | Some matches => matches
  | None => []
  end.

Section Host.

Variable toLowerCase : jsstring -> jsstring.

Definition classifyTask (title description : jsstring) : Classification :=
  let text := toLowerCase (title ++ js " " ++ description) in
  let category := fst (fold_left (visit text) categoryKeywords (js "general", 0)) in
  let priority :=
    match find (fun entry => existsb (includes text) (snd entry)) priorityKeywords with
    | Some entry => fst entry
    | None => js "medium"
    end in
  {| category := category;
     priority := priority;
     extracted_entities :=
       {| people := matchesOf text peoplePattern;
          dates := matchesOf text datesPattern |};
     suggested_actions :=
       match property suggestedActionsMap category with
       | Some actions => actions
       | None =>
           match property suggestedActionsMap (js "general") with
           | Some actions => actions
           | None => []
           end
       end |}.

End Host.

End Edge.

(** ** A host and a store for the examples *)

(** Identifiers that differ from call to call, a clock that ticks at every
    reading, and a time written as its count of milliseconds. *)
Definition countingUUID (k : nat) : jsstring := js "id-" ++ repeat 120%N k.
Definition tickingClock (k : nat) : N := N.of_nat k.
Definition millisecondsText (t : N) : jsstring :=
  js (NilEmpty.string_of_uint (N.to_uint t)).

(** A store as two calls of [createTask] leave it, [status] apart. *)
Definition storedTask (k : nat) (name : string) (st : TaskStatus) (time : N) : Task :=
  {| taskId := countingUUID k;
     title := js name;
     description := [];
     taskCategory := categoryName general;
     taskPriority := priorityName low;
     status := st;
     assigned_to := None;
     due_date := None;
     taskEntities := None;
     taskActions := None;
     created_at := time;
     updated_at := time |}.

Definition createdEntry (k : nat) (t : Task) : TaskHistory :=
  {| historyId := countingUUID k;
     task_id := taskId t;
     action := action_created;
     old_value := None;
     new_value := t;
     changed_at := updated_at t |}.

Definition payTheBill : Task := storedTask 0 "Pay the bill" pending 0.
Definition callBob : Task := storedTask 2 "Call Bob" in_progress 3.

Definition twoTasks : Store :=
  {| tasks := [payTheBill; callBob];
     taskHistory := [createdEntry 1 payTheBill; createdEntry 3 callBob];
     uuidCalls := 4;
     clockReads := 6;
     classifier := initialState |}.

(** [{ status }] as the argument of [updateTask]. *)
Definition statusUpdate (s : TaskStatus) : TaskUpdates :=
  {| updTitle := None;
     updDescription := None;
     updCategory := None;
     updPriority := None;
     updStatus := Some s;
     updAssignedTo := None;
     updDueDate := None;
     updEntities := None;
     updActions := None;
     updUpdatedAt := None |}.

(** [{ title, description }] as the argument of [createTask]. *)
Definition titled (name text : string) (cat : option jsstring) : NewTask :=
  {| newTitle := js name;
     newDescription := js text;
     newAssignedTo := None;
     newDueDate := None;
     newCategory := cat;
     newPriority := None |}.

Section Classifier.

(** The host's [String.prototype.toLowerCase].  On text made of ASCII code
    units it turns [A-Z] into [a-z] and keeps the rest; nothing is assumed
    about other text. *)
Variable toLowerCase : jsstring -> jsstring.
Hypothesis toLowerCase_ascii :
  forall s, forallb isAscii s = true -> toLowerCase s = map asciiLower s.

(** The inner loop of [classifyCategory]: [score++] for each keyword the
    text includes. *)
Definition scoreKeywords (lowerText : jsstring) (keywords : list jsstring) : nat :=
  fold_left (fun score keyword => if includes lowerText keyword then S score else score)
            keywords 0.

Definition classifyCategory (text : jsstring) : TaskCategory :=
  let lowerText := toLowerCase text in
  let visit (st : nat * TaskCategory) (entry : TaskCategory * list jsstring) :=
    let '(maxScore, bestCategory) := st in
    let '(category, keywords) := entry in
    if TaskCategory_eqb category general then st
    else
      let score := scoreKeywords lowerText keywords in
      if maxScore <? score then (score, category) else st in
  snd (fold_left visit categoryKeywords (0, general)).

(** The loop of [classifyCategory], laid out over the four scores. *)
Definition leader (a b c d : nat) : TaskCategory :=
  let st0 := (0, general) in
  let st1 := if fst st0 <? a then (a, scheduling) else st0 in
  let st2 := if fst st1 <? b then (b, finance) else st1 in
  let st3 := if fst st2 <? c then (c, technical) else st2 in
  let st4 := if fst st3 <? d then (d, safety) else st3 in
  snd st4.

(** [for (const keyword of keywords) if (lowerText.includes(keyword)) return ...]:
    does the loop reach its [return]? *)
Fixpoint anyIncluded (lowerText : jsstring) (keywords : list jsstring) : bool :=
  match keywords with
  | [] => false
  | keyword :: rest =>
      if includes lowerText keyword then true else anyIncluded lowerText rest
  end.

(** [classifyPriority], over the table it reads. *)
Definition classifyPriorityOver (table : TaskPriority -> list jsstring)
    (text : jsstring) : TaskPriority :=
  let lowerText := toLowerCase text in
  if anyIncluded lowerText (table high) then high
  else if anyIncluded lowerText (table medium) then medium
  else low.

Definition classifyPriority : jsstring -> TaskPriority :=
  classifyPriorityOver priorityKeywords.

(** ** The extractors *)

(** [matches.forEach(match => set.add(match.toLowerCase()))]. *)
Definition addLowered (set : list jsstring) (matches : list jsstring) : list jsstring :=
  fold_left (fun acc m => setAdd acc (toLowerCase m)) matches set.

(** The callback of [patterns.forEach(pattern => { const matches =
    text.match(pattern); if (matches) ... })]: the set so far, and the
    objects as the calls leave them. *)
Definition matchOne (text : jsstring) (st : list jsstring * list RegExp)
    (pattern : RegExp) : list jsstring * list RegExp :=
  let '(set, seen) := st in
  let '(matches, pattern') := stringMatch text pattern in
  (match matches with
   | Some ms => addLowered set ms
   | None => set
   end, seen ++ [pattern']).

Definition matchEach (patterns : list RegExp) (text : jsstring)
    : list jsstring * list RegExp :=
  fold_left (matchOne text) patterns ([], []).

Definition extractDates (patterns : list RegExp) (text : jsstring)
    : list jsstring * list RegExp :=
  matchEach patterns text.

Definition extractActionVerbs (patterns : list RegExp) (text : jsstring)
    : list jsstring * list RegExp :=
  matchEach patterns text.

(** The callback of [patterns.forEach(pattern => { const regex = new
    RegExp(pattern.source, pattern.flags); while ... })]. *)
Definition execOne (text : jsstring) (st : option (list jsstring))
    (pattern : RegExp) : option (list jsstring) :=
  match st with
  | None => None
  | Some set =>
      let regex := newRegExp (source pattern) (ignoreCase pattern) in
      execLoop (S (S (length text))) regex text set
  end.

Definition execEach (patterns : list RegExp) (text : jsstring)
    : option (list jsstring) :=
  fold_left (execOne text) patterns (Some []).

Definition extractPeople (text : jsstring) : option (list jsstring) :=
  execEach personPatterns text.

Definition extractLocations (text : jsstring) : option (list jsstring) :=
  execEach locationPatterns text.

(** [classifyTask]: the result and the module state after the call;
    [None] if a loop of an extractor does not end. *)
Definition classifyTask (M : ModuleState) (title description : jsstring)
    : option (ClassificationResult * ModuleState) :=
  let fullText := title ++ js " " ++ description in
  let category := classifyCategory fullText in
  let priority := classifyPriority fullText in
  let '(ds, dps) := extractDates (datePatternsOf M) fullText in
  match extractPeople fullText with
  | None => None
  | Some ps =>
      match extractLocations fullText with
      | None => None
      | Some ls =>
          let '(vs, vps) := extractActionVerbs (actionVerbPatternsOf M) fullText in
          Some ({| category := category;
                   priority := priority;
                   extracted_entities :=
                     {| dates := ds; people := ps; locations := ls; actionVerbs := vs |};
                   suggested_actions := suggestedActions category |},
                {| datePatternsOf := dps; actionVerbPatternsOf := vps |})
      end
  end.

(** The callback of [tests.forEach] in [runClassificationTests]. *)
Definition runOneTest (st : option (TestReport * ModuleState))
    (test : ClassificationTest) : option (TestReport * ModuleState) :=
  match st with
  | None => None
  | Some (report, M) =>
      match classifyTask M (inputTitle test) (inputDescription test) with
      | None => None
      | Some (result, M') =>
          let categoryDiffers :=
            match expectedCategory test with
            | Some expected => negb (TaskCategory_eqb (category result) expected)
            | None => false
            end in
          let priorityDiffers :=
            match expectedPriority test with
            | Some expected => negb (TaskPriority_eqb (priority result) expected)
            | None => false
            end in
          let testPassed := negb categoryDiffers && negb priorityDiffers in
          if testPassed then
            Some ({| passed := S (passed report);
                     failed := failed report;
                     results := results report
                                ++ [checkMark ++ js " " ++ testName test] |}, M')
          else
            Some ({| passed := passed report;
                     failed := S (failed report);
                     results :=
                       results report
                       ++ [crossMark ++ js " " ++ testName test
                           ++ js " - Expected: " ++ stringifyExpected test
                           ++ js ", Got: category=" ++ categoryName (category result)
                           ++ js ", priority=" ++ priorityName (priority result)] |},
                  M')
      end
  end.

Definition runClassificationTests (M : ModuleState)
    : option (TestReport * ModuleState) :=
  fold_left runOneTest classificationTests
            (Some ({| passed := 0; failed := 0; results := [] |}, M)).

(** ** The task store *)

(** What the host returns: the [k]-th call of [crypto.randomUUID()], the
    time in milliseconds at the [k]-th reading of the clock ([new Date()],
    [Date.now()]), and [Date.prototype.toISOString]. *)
Variable randomUUID : nat -> jsstring.
Variable clock : nat -> N.
Variable toISOString : N -> jsstring.

Definition createTask (W : Store) (data : NewTask) : option (Task * Store) :=
  match classifyTask (classifier W) (newTitle data) (newDescription data) with
  | None => None
  | Some (classification, M') =>
      let task :=
        {| taskId := randomUUID (uuidCalls W);
           title := newTitle data;
           description := newDescription data;
           taskCategory :=
             orElse (newCategory data) (categoryName (category classification));
           taskPriority :=
             orElse (newPriority data) (priorityName (priority classification));
           status := pending;
           assigned_to := newAssignedTo data;
           due_date := newDueDate data;
           taskEntities := Some (extracted_entities classification);
           taskActions := Some (suggested_actions classification);
           created_at := clock (clockReads W);
           updated_at := clock (S (clockReads W)) |} in
      let historyEntry :=
        {| historyId := randomUUID (S (uuidCalls W));
           task_id := taskId task;
           action := action_created;
           old_value := None;
           new_value := task;
           changed_at := clock (S (S (clockReads W))) |} in
      Some (task,
            {| tasks := tasks W ++ [task];
               taskHistory := taskHistory W ++ [historyEntry];
               uuidCalls := S (S (uuidCalls W));
               clockReads := S (S (S (clockReads W)));
               classifier := M' |})
  end.


Definition getTaskById (W : Store) (id : jsstring) : option Task * list TaskHistory :=
  (find (fun t => jsstring_eqb (taskId t) id) (tasks W),
   stableSort laterFirst
     (filter (fun h => jsstring_eqb (task_id h) id) (taskHistory W))).

(** [{...task, ...updates, updated_at: now}]. *)
Definition applyUpdates (task : Task) (updates : TaskUpdates) (now : N) : Task :=
  let pick {A : Type} (changed : option A) (kept : A) : A :=
    match changed with
    | Some v => v
    | None => kept
    end in
  {| taskId := taskId task;
     title := pick (updTitle updates) (title task);
     description := pick (updDescription updates) (description task);
     taskCategory := pick (updCategory updates) (taskCategory task);
     taskPriority := pick (updPriority updates) (taskPriority task);
     status := pick (updStatus updates) (status task);
     assigned_to := pick (updAssignedTo updates) (assigned_to task);
     due_date := pick (updDueDate updates) (due_date task);
     taskEntities := pick (updEntities updates) (taskEntities task);
     taskActions := pick (updActions updates) (taskActions task);
     created_at := created_at task;
     updated_at := now |}.

Definition updateTask (W : Store) (id : jsstring) (updates : TaskUpdates)
    : option Task * Store :=
  match findIndex (fun t => jsstring_eqb (taskId t) id) (tasks W) with
  | None => (None, W)
  | Some taskIndex =>
      match nth_error (tasks W) taskIndex with
      | None => (None, W)
      | Some oldTask =>
          let action :=
            match updStatus updates with
            | Some s =>
                if negb (TaskStatus_eqb s (status oldTask))
                then match s with
                     | completed => action_completed
                     | _ => action_status_changed
                     end
                else action_updated
            | None => action_updated
            end in
          let newTask := applyUpdates oldTask updates (clock (clockReads W)) in
          let historyEntry :=
            {| historyId := randomUUID (uuidCalls W);
               task_id := id;
               action := action;
               old_value := Some oldTask;
               new_value := newTask;
               changed_at := clock (S (clockReads W)) |} in
          (Some newTask,
           {| tasks := setAt taskIndex newTask (tasks W);
              taskHistory := taskHistory W ++ [historyEntry];
              uuidCalls := S (uuidCalls W);
              clockReads := S (S (clockReads W));
              classifier := classifier W |})
      end
  end.

Definition deleteTask (W : Store) (id : jsstring) : bool * Store :=
  match findIndex (fun t => jsstring_eqb (taskId t) id) (tasks W) with
  | None => (false, W)
  | Some taskIndex =>
      (true,
       {| tasks := removeAt taskIndex (tasks W);
          taskHistory := taskHistory W;
          uuidCalls := uuidCalls W;
          clockReads := clockReads W;
          classifier := classifier W |})
  end.


(** [sampleTasks]: building the array reads the clock once for each due
    date. *)
Definition sampleTasks (firstRead : nat) : list NewTask :=
  map (fun entry : nat * ((string * string * string) * N) =>
         let '(k, ((t, d, who), delay)) := entry in
         {| newTitle := js t;
            newDescription := js d;
            newAssignedTo := Some (js who);
            newDueDate := Some (toISOString (clock (firstRead + k) + delay)%N);
            newCategory := None;
            newPriority := None |})
      (combine (seq 0 5) (combine sampleTexts sampleDelays)).

(** The callback of [sampleTasks.forEach(data => createTask(data))]. *)
Definition seedOne (st : option Store) (data : NewTask) : option Store :=
  match st with
  | None => None
  | Some W => option_map snd (createTask W data)
  end.

Definition seedTasks (W : Store) : option Store :=
  match tasks W with
  | _ :: _ => Some W
  | [] =>
      fold_left seedOne (sampleTasks (clockReads W))
        (Some {| tasks := tasks W;
                 taskHistory := taskHistory W;
                 uuidCalls := uuidCalls W;
                 clockReads := 5 + clockReads W;
                 classifier := classifier W |})
  end.


(** The ids of the stored tasks are distinct values that [randomUUID] has
    returned. *)
Definition distinctIds (W : Store) : Prop :=
  NoDup (map taskId (tasks W)) /\
  forall t, In t (tasks W) -> exists k, k < uuidCalls W /\ taskId t = randomUUID k.

(** Every stored task has its entry ['created'] in the history. *)
Definition recorded (W : Store) : Prop :=
  forall t, In t (tasks W) ->
    exists h, In h (taskHistory W) /\ task_id h = taskId t /\ action h = action_created.

(** ** Strings: lemmas *)

Lemma jsstring_eqb_eq (a b : jsstring) : jsstring_eqb a b = true <-> a = b.
Proof.
  revert b; induction a as [|x a IH]; intros [|y b]; simpl; split; intro H;
    try discriminate; try reflexivity.
  - apply andb_true_iff in H; destruct H as [H1 H2].
    apply N.eqb_eq in H1; apply IH in H2; congruence.
  - injection H as -> ->. rewrite N.eqb_refl; simpl. now apply IH.
Qed.

Lemma startsWith_spec (s k : jsstring) :
  startsWith s k = true <-> exists post, s = k ++ post.
Proof.
  revert s; induction k as [|x k IH]; intros s; simpl.
  - split; [intros _; now exists s | reflexivity].
  - destruct s as [|y s].
    + split; [discriminate | intros [post H]; discriminate].
    + rewrite andb_true_iff, N.eqb_eq, IH. split.
      * intros [-> [post ->]]. now exists post.
      * intros [post H]. injection H as -> ->. split; [reflexivity | now exists post].
Qed.

Lemma includes_spec (s k : jsstring) : includes s k = true <-> Substring k s.
Proof.
  unfold Substring. induction s as [|c s IH].
  - simpl. rewrite orb_false_r, startsWith_spec. split.
    + intros [post H]. now exists [], post.
    + intros [pre [post H]]. destruct pre; [now exists post|discriminate].
  - cbn [includes]. rewrite orb_true_iff, startsWith_spec, IH. split.
    + intros [[post H] | [pre [post H]]].
      * now exists [], post.
      * exists (c :: pre), post. simpl. now rewrite H.
    + intros [[|p pre] [post H]].
      * left. now exists post.
      * right. injection H as -> ->. now exists pre, post.
Qed.

Lemma Substring_trans (a b c : jsstring) :
  Substring a b -> Substring b c -> Substring a c.
Proof.
  intros [p1 [q1 ->]] [p2 [q2 ->]]. exists (p2 ++ p1), (q1 ++ q2).
  now rewrite !app_assoc.
Qed.

(** ** The keyword classifiers: lemmas *)

Lemma fold_score_filter (l : jsstring) (ks : list jsstring) (n : nat) :
  fold_left (fun score keyword => if includes l keyword then S score else score) ks n
  = n + length (filter (includes l) ks).
Proof.
  revert n; induction ks as [|k ks IH]; intros n; simpl.
  - lia.
  - rewrite IH. destruct (includes l k); simpl; lia.
Qed.

Lemma scoreKeywords_filter (l : jsstring) (ks : list jsstring) :
  scoreKeywords l ks = length (filter (includes l) ks).
Proof. unfold scoreKeywords. now rewrite fold_score_filter. Qed.

Lemma scoreKeywords_zero (l : jsstring) (ks : list jsstring) :
  scoreKeywords l ks = 0 <-> forall k, In k ks -> ~ Substring k l.
Proof.
  rewrite scoreKeywords_filter. split.
  - intros H k Hk Hs. apply includes_spec in Hs.
    assert (Hin : In k (filter (includes l) ks)) by (apply filter_In; auto).
    destruct (filter (includes l) ks); [contradiction | discriminate].
  - intros H. destruct (filter (includes l) ks) as [|k f] eqn:E; [reflexivity|].
    assert (Hin : In k (filter (includes l) ks)) by (rewrite E; now left).
    apply filter_In in Hin. destruct Hin as [Hk Hi].
    apply includes_spec in Hi. now apply H in Hk.
Qed.

Lemma anyIncluded_spec (l : jsstring) (ks : list jsstring) :
  anyIncluded l ks = true <-> exists k, In k ks /\ Substring k l.
Proof.
  induction ks as [|k ks IH]; simpl.
  - split; [discriminate | intros [k [[] _]]].
  - destruct (includes l k) eqn:E.
    + split; [intros _ | reflexivity]. exists k. split; [now left|now apply includes_spec].
    + rewrite IH. split.
      * intros [k' [H1 H2]]. exists k'. split; [now right|assumption].
      * intros [k' [[<-|H1] H2]].
        -- apply includes_spec in H2. congruence.
        -- now exists k'.
Qed.

Lemma keywordsOf_NoDup (c : TaskCategory) : NoDup (keywordsOf c).
Proof.
  destruct c; vm_compute;
    repeat (apply NoDup_cons;
            [simpl; intros H;
             repeat (destruct H as [H|H]; [discriminate H|]); exact H|]);
    apply NoDup_nil.
Qed.

(** Decide the comparisons of the loop one after the other, the
    innermost first. *)
Ltac compare_scores :=
  repeat (match goal with
          | |- context [?x <? ?y] =>
              first [is_var x | constr_eq x 0];
              let L := fresh "L" in
              destruct (Nat.ltb_spec x y) as [L|L]
          end; cbn [fst snd] in *).

Lemma classifyCategory_leader (text : jsstring) :
  let score c := scoreKeywords (toLowerCase text) (keywordsOf c) in
  classifyCategory text
  = leader (score scheduling) (score finance) (score technical) (score safety).
Proof.
  intros score. unfold classifyCategory, leader.
  cbn [fold_left categoryKeywords TaskCategory_eqb].
  change (scoreKeywords (toLowerCase text) (jss ("meeting" :: _))) with (score scheduling).
  change (scoreKeywords (toLowerCase text) (jss ("payment" :: _))) with (score finance).
  change (scoreKeywords (toLowerCase text) (jss ("bug" :: _))) with (score technical).
  change (scoreKeywords (toLowerCase text) (jss ("safety" :: _))) with (score safety).
  generalize (score scheduling) (score finance) (score technical) (score safety).
  intros a b c d. cbn [fst snd].
  repeat (match goal with
          | |- context [?x <? ?y] => destruct (x <? y) eqn:?
          end; cbn [fst snd]);
    reflexivity.
Qed.

(** ** Category and priority: the claims *)

(** C1. The score of a category is the number of its distinct keywords that
    occur in the lowercased text; [classifyCategory] answers [general] when
    the four scores are 0, and otherwise the category of [declaredOrder]
    whose score is the highest, the earliest one among equals: no category
    scores more, and every earlier one scores strictly less. *)
Theorem classifyCategory_first_strict_max (text : jsstring) :
  let lowerText := toLowerCase text in
  let score c := scoreKeywords lowerText (keywordsOf c) in
  let best := classifyCategory text in
  (forall c, exists found,
      NoDup found /\
      (forall k, In k found <-> In k (keywordsOf c) /\ Substring k lowerText) /\
      score c = length found) /\
  ((forall c, In c declaredOrder -> score c = 0) -> best = general) /\
  ((exists c, In c declaredOrder /\ 0 < score c) ->
   exists i, nth_error declaredOrder i = Some best /\
     forall j c, nth_error declaredOrder j = Some c ->
       score c <= score best /\ (j < i -> score c < score best)).
Proof.
  intros lowerText score best.
  assert (E : best = leader (score scheduling) (score finance)
                            (score technical) (score safety))
    by exact (classifyCategory_leader text).
  clearbody best. subst best. split; [|split].
  - intros c. exists (filter (includes lowerText) (keywordsOf c)). split; [|split].
    + apply NoDup_filter, keywordsOf_NoDup.
    + intros k. rewrite filter_In, includes_spec. reflexivity.
    + apply scoreKeywords_filter.
  - intros H.
    rewrite (H scheduling), (H finance), (H technical), (H safety) by (simpl; tauto).
    reflexivity.
  - intros [c0 [Hc0 Hpos]].
    assert (Hsome : 0 < score scheduling \/ 0 < score finance \/
                    0 < score technical \/ 0 < score safety).
    { simpl in Hc0. destruct Hc0 as [<-|[<-|[<-|[<-|[]]]]]; tauto. }
    clear c0 Hc0 Hpos.
    remember (score scheduling) as a eqn:Ea.
    remember (score finance) as b eqn:Eb.
    remember (score technical) as c eqn:Ec.
    remember (score safety) as d eqn:Ed.
    unfold leader. cbn [fst snd].
    compare_scores;
      try (exfalso; lia);
      match goal with
      | |- exists i, _ = Some scheduling /\ _ => exists 0
      | |- exists i, _ = Some finance /\ _ => exists 1
      | |- exists i, _ = Some technical /\ _ => exists 2
      | |- exists i, _ = Some safety /\ _ => exists 3
      end;
      (split; [reflexivity|]);
      intros [|[|[|[|j]]]] k Hk; simpl in Hk; try discriminate Hk;
      try (destruct j; discriminate Hk);
      injection Hk as <-; rewrite <- ?Ea, <- ?Eb, <- ?Ec, <- ?Ed; lia.
Qed.

(** C4. [general] is the answer exactly when no keyword of a non-general
    category occurs in the lowercased text. *)
Theorem classifyCategory_general_iff (text : jsstring) :
  classifyCategory text = general <->
  forall c k, c <> general -> In k (keywordsOf c) -> ~ Substring k (toLowerCase text).
Proof.
  rewrite classifyCategory_leader. cbv zeta.
  set (score := fun c => scoreKeywords (toLowerCase text) (keywordsOf c)).
  change (leader (score scheduling) (score finance) (score technical) (score safety)
          = general <-> 
          forall c k, c <> general -> In k (keywordsOf c) -> ~ Substring k (toLowerCase text)).
  assert (Z : forall c, score c = 0 <->
                        forall k, In k (keywordsOf c) -> ~ Substring k (toLowerCase text))
    by (intros c; apply scoreKeywords_zero).
  split.
  - intros H c k Hc. apply Z. revert H.
    destruct c; try congruence; clear Hc;
    generalize (score scheduling) (score finance) (score technical) (score safety)
               (score general);
    intros a b c' d e; unfold leader; cbn [fst snd];
    compare_scores;
      try discriminate; intros _; lia.
  - intros H.
    assert (H1 : score scheduling = 0) by (apply Z; intros k; now apply H).
    assert (H2 : score finance = 0) by (apply Z; intros k; now apply H).
    assert (H3 : score technical = 0) by (apply Z; intros k; now apply H).
    assert (H4 : score safety = 0) by (apply Z; intros k; now apply H).
    rewrite H1, H2, H3, H4. reflexivity.
Qed.

Lemma classifyPriority_ignores_low (lowKeywords : list jsstring) (text : jsstring) :
  classifyPriorityOver
    (fun p => match p with low => lowKeywords | _ => priorityKeywords p end) text
  = classifyPriority text.
Proof. reflexivity. Qed.

Lemma classifyPriority_high (text : jsstring) (k : jsstring) :
  In k (priorityKeywords high) -> Substring k (toLowerCase text) ->
  classifyPriority text = high.
Proof.
  intros Hk Hs. unfold classifyPriority, classifyPriorityOver. cbv zeta.
  replace (anyIncluded (toLowerCase text) (priorityKeywords high)) with true; [reflexivity|].
  symmetry. apply anyIncluded_spec. now exists k.
Qed.

Lemma In_js_decide (k : jsstring) (l : list jsstring) :
  existsb (jsstring_eqb k) l = true -> In k l.
Proof.
  intros H. apply existsb_exists in H. destruct H as [x [Hx E]].
  apply jsstring_eqb_eq in E. now subst.
Qed.

(** C2. [high] as soon as a [high] keyword occurs in the lowercased text;
    otherwise [medium] as soon as a [medium] keyword occurs; otherwise
    [low].  The answer does not depend on the list filed under [low]. *)
Theorem classifyPriority_precedence (text : jsstring) :
  let lowerText := toLowerCase text in
  let hit p := exists k, In k (priorityKeywords p) /\ Substring k lowerText in
  (hit high -> classifyPriority text = high) /\
  (~ hit high -> hit medium -> classifyPriority text = medium) /\
  (~ hit high -> ~ hit medium -> classifyPriority text = low) /\
  (forall lowKeywords,
      classifyPriorityOver
        (fun p => match p with low => lowKeywords | _ => priorityKeywords p end) text
      = classifyPriority text).
Proof.
  intros lowerText hit. unfold classifyPriority, classifyPriorityOver. cbv zeta.
  fold lowerText.
  pose proof (anyIncluded_spec lowerText (priorityKeywords high)) as Hh.
  pose proof (anyIncluded_spec lowerText (priorityKeywords medium)) as Hm.
  fold (hit high) in Hh. fold (hit medium) in Hm.
  destruct (anyIncluded lowerText (priorityKeywords high));
    destruct (anyIncluded lowerText (priorityKeywords medium));
    repeat split; intros; try reflexivity;
    try (exfalso; intuition congruence).
Qed.

(** C9. A lowercased text that contains "important" is [high], hence not
    [medium]; and the "important" of the [medium] list never decides: the
    answer is the same without it, for every text. *)
Theorem important_is_high (text : jsstring) :
  (Substring (js "important") (toLowerCase text) ->
   classifyPriority text = high /\ classifyPriority text <> medium) /\
  classifyPriorityOver
    (fun p => match p with
              | medium => filter (fun k => negb (jsstring_eqb k (js "important")))
                                 (priorityKeywords medium)
              | _ => priorityKeywords p
              end) text
  = classifyPriority text.
Proof.
  split.
  - intros H.
    assert (E : classifyPriority text = high).
    { apply (classifyPriority_high text (js "important")); [|exact H].
      apply In_js_decide. reflexivity. }
    rewrite E. split; [reflexivity | discriminate].
  - unfold classifyPriority, classifyPriorityOver. cbv zeta.
    destruct (anyIncluded (toLowerCase text) (priorityKeywords high)) eqn:Eh;
      [reflexivity|].
    assert (Hi : includes (toLowerCase text) (js "important") = false).
    { destruct (includes (toLowerCase text) (js "important")) eqn:Ei; [|reflexivity].
      apply includes_spec in Ei.
      assert (anyIncluded (toLowerCase text) (priorityKeywords high) = true).
      { apply anyIncluded_spec. exists (js "important"). split; [|exact Ei].
        apply In_js_decide. reflexivity. }
      congruence. }
    change (priorityKeywords medium) with
      [js "soon"; js "this week"; js "important"; js "needed"; js "should"].
    cbn [filter anyIncluded].
    replace (jsstring_eqb (js "soon") (js "important")) with false by reflexivity.
    replace (jsstring_eqb (js "this week") (js "important")) with false by reflexivity.
    replace (jsstring_eqb (js "important") (js "important")) with true by reflexivity.
    replace (jsstring_eqb (js "needed") (js "important")) with false by reflexivity.
    replace (jsstring_eqb (js "should") (js "important")) with false by reflexivity.
    cbn [negb anyIncluded]. rewrite Hi. reflexivity.
Qed.

(** C10. A lowercased text that contains "low priority" contains the [high]
    keyword "priority" and is [high]; and the list filed under [low] is
    never read: replacing it by any list leaves every answer unchanged. *)
Theorem low_priority_is_high (text : jsstring) :
  (Substring (js "low priority") (toLowerCase text) -> classifyPriority text = high) /\
  (forall lowKeywords,
      classifyPriorityOver
        (fun p => match p with low => lowKeywords | _ => priorityKeywords p end) text
      = classifyPriority text).
Proof.
  split.
  - intros H. apply (classifyPriority_high text (js "priority")).
    + apply In_js_decide. reflexivity.
    + apply (Substring_trans _ (js "low priority")); [|exact H].
      exists (js "low "), []. reflexivity.
  - intros lowKeywords. apply classifyPriority_ignores_low.
Qed.

(** ** The matcher: lemmas *)

Lemma firstn_plus (A : Type) (n m : nat) (l : list A) :
  firstn (n + m) l = firstn n l ++ firstn m (skipn n l).
Proof.
  revert l; induction n as [|n IH]; intros l; [reflexivity|].
  destruct l as [|a l]; simpl.
  - now rewrite firstn_nil.
  - now rewrite IH.
Qed.

Lemma slice_nil (s : jsstring) (i : nat) : slice s i i = [].
Proof. unfold slice. now rewrite Nat.sub_diag. Qed.

Lemma slice_app (s : jsstring) (a b c : nat) :
  a <= b -> b <= c -> slice s a b ++ slice s b c = slice s a c.
Proof.
  intros Hab Hbc. unfold slice.
  replace (c - a) with ((b - a) + (c - b)) by lia.
  rewrite firstn_plus, skipn_skipn.
  replace (b - a + a) with b by lia. reflexivity.
Qed.

Lemma nth_error_slice (s : jsstring) (i e k : nat) :
  k < e - i -> nth_error (slice s i e) k = nth_error s (i + k).
Proof.
  intros H. unfold slice. rewrite nth_error_firstn, nth_error_skipn.
  destruct (Nat.ltb_spec k (e - i)); [reflexivity | lia].
Qed.

Lemma slice_one (s : jsstring) (i : nat) (ch : N) :
  nth_error s i = Some ch -> slice s i (S i) = [ch].
Proof.
  intros H. unfold slice. replace (S i - i) with 1 by lia.
  rewrite <- hd_error_skipn in H.
  destruct (skipn i s); simpl in *; congruence.
Qed.

Lemma length_slice (s : jsstring) (i e : nat) :
  e <= length s -> length (slice s i e) = e - i.
Proof.
  intros H. unfold slice. rewrite length_firstn, length_skipn. lia.
Qed.

Section Soundness.

Variable flag_i : bool.
Variable input : jsstring.

Lemma repeatMatcher_consumes (L : jsstring -> Prop) (m : Matcher)
    (parens : list nat) (max min : nat) :
  consumes input L m ->
  consumes input (fun s => exists pieces, s = concat pieces /\ Forall L pieces)
           (repeatMatcher m parens max min).
Proof.
  intros Hm. revert min.
  induction max as [|max IH]; intros min x c z H Hx.
  - simpl in H. exists x. split; [exact H|]. split; [lia|].
    exists []. rewrite slice_nil. split; [reflexivity|constructor].
  - cbn [repeatMatcher] in H.
    set (d := fun y : MatchState =>
                if (min =? 0) && (endIndex y =? endIndex x) then None
                else repeatMatcher m parens max (pred min) y c) in H.
    set (xr := {| endIndex := endIndex x;
                  captures := clearCaptures parens (captures x) |}) in H.
    assert (Hiter : m xr d = Some z ->
              exists y, c y = Some z /\ endIndex x <= endIndex y <= length input /\
                exists pieces, slice input (endIndex x) (endIndex y) = concat pieces /\
                               Forall L pieces).
    { intros Hz. destruct (Hm _ _ _ Hz Hx) as [y1 [Hd [Hle HL]]].
      cbn [endIndex xr] in Hle, HL.
      unfold d in Hd.
      destruct ((min =? 0) && (endIndex y1 =? endIndex x)); [discriminate|].
      destruct (IH _ _ _ _ Hd) as [y [Hc [Hle' [pieces [E HF]]]]]; [lia|].
      exists y. split; [exact Hc|]. split; [lia|].
      exists (slice input (endIndex x) (endIndex y1) :: pieces). split.
      - cbn [concat]. rewrite <- E. symmetry. apply slice_app; lia.
      - constructor; assumption. }
    destruct (min =? 0).
    + destruct (m xr d) as [z'|] eqn:Ez.
      * injection H as ->. now apply Hiter.
      * exists x. split; [exact H|]. split; [lia|].
        exists []. rewrite slice_nil. split; [reflexivity|constructor].
    + now apply Hiter.
Qed.

Lemma matcher_consumes (r : regex) :
  consumes input (Lang flag_i r) (matcher flag_i input r).
Proof.
  induction r as [|A| |r1 IH1 r2 IH2|r1 IH1 r2 IH2|min max r IH|n r IH];
    intros x c z H Hx; cbn [matcher] in H.
  - exists x. split; [exact H|]. split; [lia|]. now rewrite slice_nil.
  - destruct (nth_error input (endIndex x)) as [ch|] eqn:En; [|discriminate].
    destruct (charSetMatches flag_i A ch) eqn:Em; [|discriminate].
    assert (endIndex x < length input) by (apply nth_error_Some; congruence).
    eexists. split; [exact H|]. cbn [endIndex]. split; [lia|].
    cbn [Lang]. exists ch. split; [now apply slice_one | exact Em].
  - destruct (xorb _ _); [|discriminate].
    exists x. split; [exact H|]. split; [lia|]. now rewrite slice_nil.
  - destruct (IH1 _ _ _ H Hx) as [y1 [H1 [Hle1 HL1]]].
    destruct (IH2 _ _ _ H1) as [y [H2 [Hle2 HL2]]]; [lia|].
    exists y. split; [exact H2|]. split; [lia|].
    cbn [Lang]. exists (slice input (endIndex x) (endIndex y1)),
                       (slice input (endIndex y1) (endIndex y)).
    split; [symmetry; apply slice_app; lia|]. now split.
  - destruct (matcher flag_i input r1 x c) as [z'|] eqn:E1.
    + injection H as ->.
      destruct (IH1 _ _ _ E1 Hx) as [y [Hc [Hle HL]]]. exists y. cbn [Lang]. tauto.
    + destruct (IH2 _ _ _ H Hx) as [y [Hc [Hle HL]]]. exists y. cbn [Lang]. tauto.
  - exact (repeatMatcher_consumes _ _ _ _ _ IH _ _ _ H Hx).
  - destruct (IH _ _ _ H Hx) as [y [Hc [Hle HL]]].
    eexists. split; [exact Hc|]. cbn [endIndex Lang]. now split.
Qed.

(** A match found from position [i]. *)
Lemma matcher_at (r : regex) (i : nat) (y : MatchState) :
  matcher flag_i input r {| endIndex := i; captures := [] |} Some = Some y ->
  i <= length input ->
  i <= endIndex y <= length input /\ Lang flag_i r (slice input i (endIndex y)).
Proof.
  intros H Hi. destruct (matcher_consumes _ _ _ _ H Hi) as [y' [E [Hle HL]]].
  injection E as ->. now split.
Qed.

(** *** The bound that stands for an unbounded quantifier *)

Lemma repeatMatcher_forward (m : Matcher) (parens : list nat) (max min : nat) :
  forward input m -> forward input (repeatMatcher m parens max min).
Proof.
  intros Hm. revert min. induction max as [|max IH]; intros min x c1 c2 Hx Hc.
  - cbn [repeatMatcher]. apply Hc. lia.
  - cbn [repeatMatcher].
    set (xr := {| endIndex := endIndex x;
                  captures := clearCaptures parens (captures x) |}).
    set (d1 := fun y : MatchState =>
                 if (min =? 0) && (endIndex y =? endIndex x) then None
                 else repeatMatcher m parens max (pred min) y c1).
    set (d2 := fun y : MatchState =>
                 if (min =? 0) && (endIndex y =? endIndex x) then None
                 else repeatMatcher m parens max (pred min) y c2).
    assert (E : m xr d1 = m xr d2).
    { apply Hm; [exact Hx|]. cbn [endIndex xr]. intros y Hy. unfold d1, d2.
      destruct ((min =? 0) && (endIndex y =? endIndex x)); [reflexivity|].
      apply IH; [lia|]. intros y' Hy'. apply Hc. lia. }
    rewrite E, (Hc x) by lia. reflexivity.
Qed.

Lemma matcher_forward (r : regex) : forward input (matcher flag_i input r).
Proof.
  induction r as [|A| |r1 IH1 r2 IH2|r1 IH1 r2 IH2|min max r IH|n r IH];
    intros x c1 c2 Hx Hc; cbn [matcher].
  - apply Hc. lia.
  - destruct (nth_error input (endIndex x)) as [ch|] eqn:En; [|reflexivity].
    assert (endIndex x < length input) by (apply nth_error_Some; congruence).
    destruct (charSetMatches flag_i A ch); [|reflexivity].
    apply Hc. cbn [endIndex]. lia.
  - destruct (xorb _ _); [|reflexivity]. apply Hc. lia.
  - apply IH1; [exact Hx|]. intros y Hy. apply IH2; [lia|].
    intros y' Hy'. apply Hc. lia.
  - rewrite (IH1 x c1 c2 Hx Hc), (IH2 x c1 c2 Hx Hc). reflexivity.
  - apply repeatMatcher_forward; assumption.
  - apply IH; [exact Hx|]. intros y Hy. apply Hc. cbn [endIndex]. lia.
Qed.

(** Past [min] iterations and one per code unit left, more iterations
    allowed change nothing. *)
Lemma repeatMatcher_bound (m : Matcher) (parens : list nat)
    (max1 max2 min : nat) (x : MatchState) (c : Continuation) :
  forward input m ->
  endIndex x <= length input ->
  min + S (length input - endIndex x) <= max1 ->
  min + S (length input - endIndex x) <= max2 ->
  repeatMatcher m parens max1 min x c = repeatMatcher m parens max2 min x c.
Proof.
  intros Hm. revert max2 min x.
  induction max1 as [|max1 IH]; intros max2 min x Hx H1 H2; [lia|].
  destruct max2 as [|max2]; [lia|]. cbn [repeatMatcher].
  set (xr := {| endIndex := endIndex x;
                captures := clearCaptures parens (captures x) |}).
  set (d1 := fun y : MatchState =>
               if (min =? 0) && (endIndex y =? endIndex x) then None
               else repeatMatcher m parens max1 (pred min) y c).
  set (d2 := fun y : MatchState =>
               if (min =? 0) && (endIndex y =? endIndex x) then None
               else repeatMatcher m parens max2 (pred min) y c).
  assert (E : m xr d1 = m xr d2); [|now rewrite E].
  apply Hm; [exact Hx|]. cbn [endIndex xr]. intros y Hy. unfold d1, d2.
  destruct (min =? 0) eqn:Emin; cbn [andb].
  - apply Nat.eqb_eq in Emin. subst min.
    destruct (endIndex y =? endIndex x) eqn:Ey; [reflexivity|].
    apply Nat.eqb_neq in Ey. apply IH; cbn [pred]; lia.
  - apply Nat.eqb_neq in Emin. apply IH; lia.
Qed.

(** An unbounded quantifier never runs out of iterations. *)
Lemma iterationBound_unreached (r : regex) (min extra : nat)
    (x : MatchState) (c : Continuation) :
  endIndex x <= length input ->
  repeatMatcher (matcher flag_i input r) (groups r)
                (iterationBound input min None + extra) min x c
  = matcher flag_i input (Quant min None r) x c.
Proof.
  intros Hx. cbn [matcher]. apply repeatMatcher_bound.
  - apply matcher_forward.
  - exact Hx.
  - cbn [iterationBound]. lia.
  - cbn [iterationBound]. lia.
Qed.

End Soundness.

Lemma charSetMatches_ascii (flag_i : bool) (A : list N) (ch : N) :
  forallb isAscii A = true -> charSetMatches flag_i A ch = true -> isAscii ch = true.
Proof.
  intros HA H. unfold charSetMatches in H. apply existsb_exists in H.
  destruct H as [a [Ha E]]. rewrite forallb_forall in HA. apply HA in Ha.
  apply N.eqb_eq in E. unfold isAscii in *. apply N.ltb_lt in Ha. apply N.ltb_lt.
  unfold canonicalize, asciiUpper in E.
  destruct flag_i; [|lia].
  destruct (N.leb_spec 97 a), (N.leb_spec a 122), (N.leb_spec 97 ch),
    (N.leb_spec ch 122); cbn [andb] in E; lia.
Qed.

Lemma forallb_concat (A : Type) (f : A -> bool) (ls : list (list A)) :
  Forall (fun l => forallb f l = true) ls -> forallb f (concat ls) = true.
Proof.
  induction 1 as [|l ls Hl _ IH]; [reflexivity|].
  cbn [concat]. rewrite forallb_app, Hl, IH. reflexivity.
Qed.

Lemma Lang_ascii (flag_i : bool) (r : regex) (s : jsstring) :
  asciiOnly r = true -> Lang flag_i r s -> forallb isAscii s = true.
Proof.
  revert s.
  induction r as [|A| |r1 IH1 r2 IH2|r1 IH1 r2 IH2|min max r IH|n r IH];
    intros s Hr H; cbn [Lang asciiOnly] in *.
  - now subst.
  - destruct H as [ch [-> Hm]]. cbn [forallb].
    now rewrite (charSetMatches_ascii _ _ _ Hr Hm).
  - now subst.
  - apply andb_true_iff in Hr. destruct Hr as [Hr1 Hr2].
    destruct H as [s1 [s2 [-> [H1 H2]]]].
    rewrite forallb_app, (IH1 _ Hr1 H1), (IH2 _ Hr2 H2). reflexivity.
  - apply andb_true_iff in Hr. destruct Hr as [Hr1 Hr2].
    destruct H as [H|H]; auto.
  - destruct H as [pieces [-> HF]]. apply forallb_concat.
    induction HF; constructor; auto.
  - auto.
Qed.

Lemma Lang_minLen (flag_i : bool) (r : regex) (s : jsstring) :
  Lang flag_i r s -> minLen r <= length s.
Proof.
  revert s.
  induction r as [|A| |r1 IH1 r2 IH2|r1 IH1 r2 IH2|min max r IH|n r IH];
    intros s H; cbn [Lang minLen] in *; try lia.
  - destruct H as [ch [-> _]]. simpl. lia.
  - destruct H as [s1 [s2 [-> [H1 H2]]]]. rewrite length_app.
    apply IH1 in H1. apply IH2 in H2. lia.
  - destruct H as [H|H]; [apply IH1 in H | apply IH2 in H]; lia.
  - auto.
Qed.

(** *** [exec] and [match]: lemmas *)

Lemma scan_Some (flag_i : bool) (r : regex) (str : jsstring)
    (tries i j : nat) (y : MatchState) :
  scan flag_i r str tries i = Some (j, y) ->
  i <= j < i + tries /\
  matcher flag_i str r {| endIndex := j; captures := [] |} Some = Some y /\
  forall k, i <= k < j ->
    matcher flag_i str r {| endIndex := k; captures := [] |} Some = None.
Proof.
  revert i; induction tries as [|tries IH]; intros i H; cbn [scan] in H;
    [discriminate|].
  destruct (matcher flag_i str r {| endIndex := i; captures := [] |} Some)
    as [y'|] eqn:E.
  - injection H as <- <-. split; [lia|]. split; [exact E|]. intros k Hk. lia.
  - apply IH in H. destruct H as [Hj [Hm Hfirst]].
    split; [lia|]. split; [exact Hm|]. intros k Hk.
    destruct (Nat.eq_dec k i) as [->|Hne]; [exact E|]. apply Hfirst. lia.
Qed.

Lemma scan_None (flag_i : bool) (r : regex) (str : jsstring) (tries i : nat) :
  scan flag_i r str tries i = None ->
  forall k, i <= k < i + tries ->
    matcher flag_i str r {| endIndex := k; captures := [] |} Some = None.
Proof.
  revert i; induction tries as [|tries IH]; intros i H k Hk; [lia|].
  cbn [scan] in H.
  destruct (matcher flag_i str r {| endIndex := i; captures := [] |} Some)
    as [y'|] eqn:E; [discriminate|].
  destruct (Nat.eq_dec k i) as [->|Hne]; [exact E|].
  apply (IH (S i)); [exact H | lia].
Qed.

(** What one [exec] does, read off the matcher. *)
Lemma exec_Some (R : RegExp) (str : jsstring) (m : MatchResult) (R' : RegExp) :
  regExpBuiltinExec R str = (Some m, R') ->
  R' = setLastIndex R (endIndex (snd m)) /\
  lastIndex R <= fst m <= endIndex (snd m) /\ endIndex (snd m) <= length str /\
  matcher (ignoreCase R) str (source R) {| endIndex := fst m; captures := [] |} Some
    = Some (snd m) /\
  forall k, lastIndex R <= k < fst m ->
    matcher (ignoreCase R) str (source R) {| endIndex := k; captures := [] |} Some
      = None.
Proof.
  unfold regExpBuiltinExec. intros H.
  destruct (scan (ignoreCase R) (source R) str (S (length str) - lastIndex R)
                 (lastIndex R)) as [[j y]|] eqn:E; [|discriminate].
  injection H as <- <-. cbn [fst snd].
  apply scan_Some in E. destruct E as [Hj [Hm Hfirst]].
  apply matcher_at in Hm as Hy; [|lia].
  split; [reflexivity|]. split; [lia|]. split; [lia|]. split; [exact Hm|exact Hfirst].
Qed.

Lemma exec_None (R : RegExp) (str : jsstring) (R' : RegExp) :
  regExpBuiltinExec R str = (None, R') ->
  R' = setLastIndex R 0 /\
  forall k, lastIndex R <= k <= length str ->
    matcher (ignoreCase R) str (source R) {| endIndex := k; captures := [] |} Some
      = None.
Proof.
  unfold regExpBuiltinExec. intros H.
  destruct (scan (ignoreCase R) (source R) str (S (length str) - lastIndex R)
                 (lastIndex R)) as [[j y]|] eqn:E; [discriminate|].
  injection H as <-. split; [reflexivity|].
  intros k Hk. apply (scan_None _ _ _ _ _ E). lia.
Qed.

Lemma matched_nil (str : jsstring) (m : MatchResult) :
  fst m <= endIndex (snd m) <= length str ->
  (matched str m = [] <-> endIndex (snd m) = fst m).
Proof.
  intros H. unfold matched. split.
  - intros E. apply (f_equal (@length N)) in E. rewrite length_slice in E by lia.
    simpl in E. lia.
  - intros ->. apply slice_nil.
Qed.

Section MatchLoop.

Variable str : jsstring.

Lemma matchLoop_incl (rounds : nat) (R : RegExp) (A : list jsstring) (a : jsstring) :
  In a A -> In a (fst (matchLoop rounds R str A)).
Proof.
  revert R A; induction rounds as [|rounds IH]; intros R A H; cbn [matchLoop];
    [exact H|].
  destruct (regExpBuiltinExec R str) as [[m|] R']; [|exact H].
  apply IH. apply in_or_app. now left.
Qed.

Lemma matchLoop_source (rounds : nat) (R : RegExp) (A : list jsstring) :
  sameSource (snd (matchLoop rounds R str A)) R.
Proof.
  revert R A; induction rounds as [|rounds IH]; intros R A; cbn [matchLoop].
  - now split.
  - destruct (regExpBuiltinExec R str) as [[m|] R'] eqn:E.
    + apply exec_Some in E. destruct E as [-> _].
      match goal with
      | |- sameSource (snd (matchLoop _ ?R2 _ _)) _ =>
          destruct (IH R2 (A ++ [matched str m])) as [H1 H2];
          split; [rewrite H1|rewrite H2]
      end; destruct (matched str m); reflexivity.
    + apply exec_None in E. destruct E as [-> _]. now split.
Qed.

(** Every collected string is a match of the pattern somewhere in [str]. *)
Lemma matchLoop_Forall (P : jsstring -> Prop) (rounds : nat) (R : RegExp)
    (A : list jsstring) :
  (forall j y, j <= length str ->
     matcher (ignoreCase R) str (source R) {| endIndex := j; captures := [] |} Some
       = Some y ->
     P (slice str j (endIndex y))) ->
  Forall P A -> Forall P (fst (matchLoop rounds R str A)).
Proof.
  revert R A; induction rounds as [|rounds IH]; intros R A HP HA; cbn [matchLoop];
    [exact HA|].
  destruct (regExpBuiltinExec R str) as [[m|] R'] eqn:E; [|exact HA].
  apply exec_Some in E. destruct E as [-> [Hle [Hlen [Hm _]]]].
  apply IH.
  - destruct (matched str m); exact HP.
  - apply Forall_app. split; [exact HA|]. constructor; [|constructor].
    apply HP; [lia | exact Hm].
Qed.

(** A match at [q] is collected, when no match that starts before [q]
    reaches beyond [q]. *)
Lemma matchLoop_finds (rounds : nat) (R : RegExp) (A : list jsstring)
    (q : nat) (yq : MatchState) :
  matcher (ignoreCase R) str (source R) {| endIndex := q; captures := [] |} Some
    = Some yq ->
  (forall p y, p < q ->
     matcher (ignoreCase R) str (source R) {| endIndex := p; captures := [] |} Some
       = Some y ->
     endIndex y <= q) ->
  lastIndex R <= q -> q <= length str -> q < lastIndex R + rounds ->
  In (slice str q (endIndex yq)) (fst (matchLoop rounds R str A)).
Proof.
  intros Hq Hfree. revert R A Hq Hfree.
  induction rounds as [|rounds IH]; intros R A Hq Hfree Hlo Hlen Hr; [lia|].
  cbn [matchLoop].
  destruct (regExpBuiltinExec R str) as [[m|] R'] eqn:E.
  - apply exec_Some in E. destruct E as [-> [Hle [Hel [Hm Hfirst]]]].
    destruct (Nat.lt_trichotomy (fst m) q) as [Hlt|[Heq|Hgt]].
    + pose proof (Hfree _ _ Hlt Hm) as He.
      assert (Hnil := matched_nil str m (conj (proj2 Hle) Hel)).
      apply IH.
      * destruct (matched str m); exact Hq.
      * destruct (matched str m); exact Hfree.
      * destruct (matched str m) eqn:Em; cbn [lastIndex setLastIndex]; [|lia].
        assert (endIndex (snd m) = fst m) by now apply Hnil. lia.
      * exact Hlen.
      * destruct (matched str m) eqn:Em; cbn [lastIndex setLastIndex].
        -- assert (endIndex (snd m) = fst m) by now apply Hnil. lia.
        -- assert (endIndex (snd m) <> fst m).
           { intros Hx. apply Hnil in Hx. congruence. }
           lia.
    + apply matchLoop_incl. apply in_or_app. right. left.
      unfold matched. rewrite Heq. rewrite Heq in Hm.
      assert (snd m = yq) by congruence. now subst.
    + rewrite Hfirst in Hq by lia. discriminate.
  - apply exec_None in E. destruct E as [_ Hnone].
    rewrite Hnone in Hq by lia. discriminate.
Qed.

(** The rounds allotted to the loop of [match] are never used up: with
    more of them, the loop does the same. *)
Lemma matchLoop_rounds (rounds1 rounds2 : nat) (R : RegExp) (A : list jsstring) :
  lastIndex R <= S (length str) ->
  S (S (length str)) <= rounds1 + lastIndex R ->
  S (S (length str)) <= rounds2 + lastIndex R ->
  matchLoop rounds1 R str A = matchLoop rounds2 R str A.
Proof.
  revert rounds2 R A; induction rounds1 as [|rounds1 IH];
    intros rounds2 R A Hlast H1 H2; [lia|].
  destruct rounds2 as [|rounds2]; [lia|]. cbn [matchLoop].
  destruct (regExpBuiltinExec R str) as [[m|] R'] eqn:E; [|reflexivity].
  apply exec_Some in E. destruct E as [-> [Hle [Hel _]]].
  assert (Hnil := matched_nil str m (conj (proj2 Hle) Hel)).
  destruct (matched str m) eqn:Em.
  - assert (endIndex (snd m) = fst m) by now apply Hnil.
    apply IH; cbn [lastIndex setLastIndex]; lia.
  - assert (endIndex (snd m) <> fst m).
    { intros Hx. apply Hnil in Hx. congruence. }
    apply IH; cbn [lastIndex setLastIndex]; lia.
Qed.

Lemma stringMatch_rounds (R : RegExp) (extra : nat) :
  matchLoop (S (S (length str)) + extra) (setLastIndex R 0) str []
  = matchLoop (S (S (length str))) (setLastIndex R 0) str [].
Proof. apply matchLoop_rounds; cbn [lastIndex setLastIndex]; lia. Qed.

Lemma stringMatch_sameSource (R R' : RegExp) :
  sameSource R R' -> stringMatch str R = stringMatch str R'.
Proof.
  intros [H1 H2]. unfold stringMatch, setLastIndex. now rewrite H1, H2.
Qed.

Lemma stringMatch_source (R : RegExp) : sameSource (snd (stringMatch str R)) R.
Proof.
  unfold stringMatch.
  pose proof (matchLoop_source (S (S (length str))) (setLastIndex R 0) []) as H.
  destruct (matchLoop (S (S (length str))) (setLastIndex R 0) str []) as [A R'].
  exact H.
Qed.

Lemma stringMatch_Forall (P : jsstring -> Prop) (R : RegExp) (ms : list jsstring) :
  (forall j y, j <= length str ->
     matcher (ignoreCase R) str (source R) {| endIndex := j; captures := [] |} Some
       = Some y ->
     P (slice str j (endIndex y))) ->
  fst (stringMatch str R) = Some ms -> Forall P ms.
Proof.
  intros HP. unfold stringMatch.
  pose proof (matchLoop_Forall P (S (S (length str))) (setLastIndex R 0) [] HP
                (Forall_nil P)) as H.
  destruct (matchLoop (S (S (length str))) (setLastIndex R 0) str []) as [A R'].
  cbn [fst] in *. destruct A; [discriminate|]. now intros [= <-].
Qed.

Lemma stringMatch_finds (R : RegExp) (q : nat) (yq : MatchState) :
  matcher (ignoreCase R) str (source R) {| endIndex := q; captures := [] |} Some
    = Some yq ->
  (forall p y, p < q ->
     matcher (ignoreCase R) str (source R) {| endIndex := p; captures := [] |} Some
       = Some y ->
     endIndex y <= q) ->
  q <= length str ->
  exists ms, fst (stringMatch str R) = Some ms /\ In (slice str q (endIndex yq)) ms.
Proof.
  intros Hq Hfree Hlen. unfold stringMatch.
  pose proof (matchLoop_finds (S (S (length str))) (setLastIndex R 0) [] q yq
                Hq Hfree) as H.
  cbn [lastIndex setLastIndex] in H.
  destruct (matchLoop (S (S (length str))) (setLastIndex R 0) str []) as [A R'].
  cbn [fst] in *. specialize (H ltac:(lia) Hlen ltac:(lia)).
  destruct A; [contradiction|]. eexists. split; [reflexivity|exact H].
Qed.

End MatchLoop.

(** *** The [while] loop of [extractPeople] and [extractLocations] ends *)

Lemma matcher_progress (flag_i : bool) (r : regex) (text : jsstring)
    (j : nat) (y : MatchState) :
  1 <= minLen r -> j <= length text ->
  matcher flag_i text r {| endIndex := j; captures := [] |} Some = Some y ->
  j < endIndex y.
Proof.
  intros Hmin Hj H. apply matcher_at in H; [|exact Hj].
  destruct H as [Hle HL]. apply Lang_minLen in HL.
  rewrite length_slice in HL by lia. lia.
Qed.

Lemma execLoop_total (rounds : nat) (R : RegExp) (text : jsstring)
    (found : list jsstring) :
  1 <= minLen (source R) ->
  lastIndex R <= length text ->
  S (S (length text)) <= rounds + lastIndex R ->
  exists l, execLoop rounds R text found = Some l.
Proof.
  intros Hmin. revert R found Hmin.
  induction rounds as [|rounds IH]; intros R found Hmin Hlast Hr; [lia|].
  cbn [execLoop].
  destruct (regExpBuiltinExec R text) as [[m|] R'] eqn:E.
  - apply exec_Some in E. destruct E as [-> [Hle [Hel [Hm _]]]].
    apply matcher_progress in Hm; [|exact Hmin|lia].
    apply IH; cbn [source lastIndex setLastIndex]; [exact Hmin|lia|lia].
  - now exists found.
Qed.

Lemma execEach_total (patterns : list RegExp) (text : jsstring) :
  Forall (fun R => 1 <= minLen (source R)) patterns ->
  exists l, execEach patterns text = Some l.
Proof.
  unfold execEach. intros H. generalize (@nil jsstring).
  induction H as [|R patterns HR _ IH]; intros set; cbn [fold_left].
  - now exists set.
  - cbn [execOne].
    destruct (execLoop_total (S (S (length text)))
                (newRegExp (source R) (ignoreCase R)) text set) as [l ->].
    + exact HR.
    + cbn; lia.
    + cbn; lia.
    + apply IH.
Qed.

Lemma extractPeople_total (text : jsstring) : exists l, extractPeople text = Some l.
Proof.
  apply execEach_total. repeat constructor; vm_compute; lia.
Qed.

Lemma extractLocations_total (text : jsstring) :
  exists l, extractLocations text = Some l.
Proof.
  apply execEach_total. repeat constructor; vm_compute; lia.
Qed.

(** *** Sets and [forEach] over [match] *)

Lemma setAdd_In (s : list jsstring) (v x : jsstring) :
  In x (setAdd s v) <-> In x s \/ x = v.
Proof.
  unfold setAdd. destruct (existsb (jsstring_eqb v) s) eqn:E.
  - split; [tauto|]. intros [H| ->]; [exact H|]. now apply In_js_decide.
  - rewrite in_app_iff. simpl. intuition congruence.
Qed.

Lemma setAdd_NoDup (s : list jsstring) (v : jsstring) :
  NoDup s -> NoDup (setAdd s v).
Proof.
  intros H. unfold setAdd. destruct (existsb (jsstring_eqb v) s) eqn:E; [exact H|].
  apply NoDup_app; [exact H | repeat constructor; simpl; tauto |].
  intros x Hx [->|[]].
  assert (existsb (jsstring_eqb x) s = true); [|congruence].
  apply existsb_exists. exists x. split; [exact Hx| now apply jsstring_eqb_eq].
Qed.

Lemma addLowered_In (set ms : list jsstring) (x : jsstring) :
  In x (addLowered set ms) <->
  In x set \/ exists m, In m ms /\ x = toLowerCase m.
Proof.
  unfold addLowered. revert set; induction ms as [|m ms IH]; intros set;
    cbn [fold_left].
  - split; [tauto|]. intros [H|[m [[] _]]]. exact H.
  - rewrite IH, setAdd_In. split.
    + intros [[H| ->]|[m' [H ->]]]; [tauto| |].
      * right. exists m. split; [now left|reflexivity].
      * right. exists m'. split; [now right|reflexivity].
    + intros [H|[m' [[<-|H] ->]]]; [tauto|tauto|].
      right. now exists m'.
Qed.

Lemma addLowered_NoDup (set ms : list jsstring) :
  NoDup set -> NoDup (addLowered set ms).
Proof.
  unfold addLowered. revert set; induction ms as [|m ms IH]; intros set H;
    cbn [fold_left]; [exact H|].
  apply IH, setAdd_NoDup, H.
Qed.

Lemma matchOne_fst (text : jsstring) (set : list jsstring) (seen : list RegExp)
    (R : RegExp) :
  fst (matchOne text (set, seen) R)
  = match fst (stringMatch text R) with
    | Some ms => addLowered set ms
    | None => set
    end.
Proof. unfold matchOne. now destruct (stringMatch text R). Qed.

Lemma matchOne_snd (text : jsstring) (set : list jsstring) (seen : list RegExp)
    (R : RegExp) :
  snd (matchOne text (set, seen) R) = seen ++ [snd (stringMatch text R)].
Proof. unfold matchOne. now destruct (stringMatch text R). Qed.

Lemma matchOne_sameSource (text : jsstring) (st : list jsstring * list RegExp)
    (R R' : RegExp) :
  sameSource R R' -> matchOne text st R = matchOne text st R'.
Proof.
  intros H. unfold matchOne. now rewrite (stringMatch_sameSource text R R' H).
Qed.

(** [lastIndex] plays no part: objects of the same patterns give the same
    answer and are left in the same state. *)
Lemma matchEach_sameSource (ps ps' : list RegExp) (text : jsstring) :
  Forall2 sameSource ps ps' -> matchEach ps text = matchEach ps' text.
Proof.
  unfold matchEach. intros H. generalize (@nil jsstring, @nil RegExp).
  induction H as [|R R' ps ps' HR _ IH]; intros st; cbn [fold_left];
    [reflexivity|].
  rewrite (matchOne_sameSource text st R R' HR). apply IH.
Qed.

Lemma fold_matchOne_source (text : jsstring) (ps seen0 : list RegExp)
    (set0 : list jsstring) (qs : list RegExp) :
  Forall2 sameSource seen0 qs ->
  Forall2 sameSource (snd (fold_left (matchOne text) ps (set0, seen0))) (qs ++ ps).
Proof.
  revert seen0 set0 qs; induction ps as [|R ps IH]; intros seen0 set0 qs H;
    cbn [fold_left].
  - now rewrite app_nil_r.
  - destruct (matchOne text (set0, seen0) R) as [set1 seen1] eqn:E.
    assert (E2 : seen1 = seen0 ++ [snd (stringMatch text R)]).
    { rewrite <- (matchOne_snd text set0 seen0 R). now rewrite E. }
    replace (qs ++ R :: ps) with ((qs ++ [R]) ++ ps)
      by (now rewrite <- app_assoc).
    apply IH. subst seen1. apply Forall2_app; [exact H|].
    constructor; [apply stringMatch_source | constructor].
Qed.

Lemma matchEach_source (ps : list RegExp) (text : jsstring) :
  Forall2 sameSource (snd (matchEach ps text)) ps.
Proof. exact (fold_matchOne_source text ps [] [] [] (Forall2_nil _)). Qed.

Lemma fold_matchOne_NoDup (text : jsstring) (ps seen0 : list RegExp)
    (set0 : list jsstring) :
  NoDup set0 -> NoDup (fst (fold_left (matchOne text) ps (set0, seen0))).
Proof.
  revert seen0 set0; induction ps as [|R ps IH]; intros seen0 set0 H;
    cbn [fold_left]; [exact H|].
  destruct (matchOne text (set0, seen0) R) as [set1 seen1] eqn:E.
  apply IH. replace set1 with (fst (matchOne text (set0, seen0) R))
    by (now rewrite E).
  rewrite matchOne_fst. destruct (fst (stringMatch text R)); [|exact H].
  now apply addLowered_NoDup.
Qed.

Lemma fold_matchOne_In (text : jsstring) (ps seen0 : list RegExp)
    (set0 : list jsstring) (x : jsstring) :
  In x (fst (fold_left (matchOne text) ps (set0, seen0))) <->
  In x set0 \/
  exists R ms m, In R ps /\ fst (stringMatch text R) = Some ms /\ In m ms /\
                 x = toLowerCase m.
Proof.
  revert seen0 set0; induction ps as [|R ps IH]; intros seen0 set0;
    cbn [fold_left].
  - split; [tauto|]. intros [H|[R [ms [m [[] _]]]]]. exact H.
  - destruct (matchOne text (set0, seen0) R) as [set1 seen1] eqn:E.
    assert (E1 : set1 = fst (matchOne text (set0, seen0) R)) by (now rewrite E).
    rewrite matchOne_fst in E1. rewrite IH. subst set1. split.
    + intros [H|[R' [ms [m [HR [Hms [Hm ->]]]]]]].
      * destruct (fst (stringMatch text R)) as [ms|] eqn:Es; [|tauto].
        apply addLowered_In in H. destruct H as [H|[m [Hm ->]]]; [tauto|].
        right. exists R, ms, m. simpl. tauto.
      * right. exists R', ms, m. simpl. tauto.
    + intros [H|[R' [ms [m [[<-|HR] [Hms [Hm ->]]]]]]].
      * left. destruct (fst (stringMatch text R)); [|exact H].
        apply addLowered_In. tauto.
      * left. rewrite Hms. apply addLowered_In. right. now exists m.
      * right. now exists R', ms, m.
Qed.

(** ** [classifyTask]: the claims *)

Lemma Forall2_sameSource_trans (a b c : list RegExp) :
  Forall2 sameSource a b -> Forall2 sameSource b c -> Forall2 sameSource a c.
Proof.
  intros H; revert c; induction H as [|x y a b [H1 H2] _ IH]; intros c Hc;
    inversion Hc as [|y' z b' c' [H3 H4] Hbc]; subst; constructor.
  - split; congruence.
  - now apply IH.
Qed.

Lemma classifyTask_loaded (M : ModuleState) (title description : jsstring) :
  loaded M ->
  extractDates (datePatternsOf M) (title ++ js " " ++ description)
  = extractDates datePatterns (title ++ js " " ++ description) /\
  extractActionVerbs (actionVerbPatternsOf M) (title ++ js " " ++ description)
  = extractActionVerbs actionVerbPatterns (title ++ js " " ++ description) /\
  classifyTask M title description = classifyTask initialState title description.
Proof.
  intros [Hd Hv]. unfold classifyTask, extractDates, extractActionVerbs.
  cbn [datePatternsOf actionVerbPatternsOf initialState].
  rewrite (matchEach_sameSource _ _ _ Hd), (matchEach_sameSource _ _ _ Hv).
  repeat split.
Qed.

(** The call returns, with each field as the source assembles it. *)
Lemma classifyTask_unfold (M : ModuleState) (title description : jsstring) :
  let text := title ++ js " " ++ description in
  exists ps ls,
    extractPeople text = Some ps /\ extractLocations text = Some ls /\
    classifyTask M title description
    = Some ({| category := classifyCategory text;
               priority := classifyPriority text;
               extracted_entities :=
                 {| dates := fst (extractDates (datePatternsOf M) text);
                    people := ps;
                    locations := ls;
                    actionVerbs :=
                      fst (extractActionVerbs (actionVerbPatternsOf M) text) |};
               suggested_actions := suggestedActions (classifyCategory text) |},
            {| datePatternsOf := snd (extractDates (datePatternsOf M) text);
               actionVerbPatternsOf :=
                 snd (extractActionVerbs (actionVerbPatternsOf M) text) |}).
Proof.
  intros text. unfold classifyTask. fold text.
  destruct (extractPeople_total text) as [ps Hp].
  destruct (extractLocations_total text) as [ls Hl].
  exists ps, ls. rewrite Hp, Hl.
  destruct (extractDates (datePatternsOf M) text) as [ds dps].
  destruct (extractActionVerbs (actionVerbPatternsOf M) text) as [vs vps].
  repeat split.
Qed.

Lemma classifyTask_keeps_loaded (M M' : ModuleState) (title description : jsstring)
    (r : ClassificationResult) :
  loaded M -> classifyTask M title description = Some (r, M') -> loaded M'.
Proof.
  intros [Hd Hv] H.
  destruct (classifyTask_unfold M title description) as [ps [ls [_ [_ E]]]].
  rewrite E in H. injection H as _ <-. split; cbn [datePatternsOf actionVerbPatternsOf].
  - eapply Forall2_sameSource_trans; [apply matchEach_source | exact Hd].
  - eapply Forall2_sameSource_trans; [apply matchEach_source | exact Hv].
Qed.

(** C3. [classifyTask] hands the title, one space and the description, in
    their original case, to the two classifiers and the four extractors,
    and returns the record of their answers with the [suggestedActions] of
    the category; in a loaded module the date and verb extractors answer as
    they do on the module's own patterns. *)
Theorem classifyTask_assembles (M : ModuleState) (title description : jsstring) :
  let text := title ++ js " " ++ description in
  (exists ps ls,
    extractPeople text = Some ps /\ extractLocations text = Some ls /\
    classifyTask M title description
    = Some ({| category := classifyCategory text;
               priority := classifyPriority text;
               extracted_entities :=
                 {| dates := fst (extractDates (datePatternsOf M) text);
                    people := ps;
                    locations := ls;
                    actionVerbs :=
                      fst (extractActionVerbs (actionVerbPatternsOf M) text) |};
               suggested_actions := suggestedActions (classifyCategory text) |},
            {| datePatternsOf := snd (extractDates (datePatternsOf M) text);
               actionVerbPatternsOf :=
                 snd (extractActionVerbs (actionVerbPatternsOf M) text) |})) /\
  (loaded M ->
   extractDates (datePatternsOf M) text = extractDates datePatterns text /\
   extractActionVerbs (actionVerbPatternsOf M) text
   = extractActionVerbs actionVerbPatterns text).
Proof.
  intros text. split.
  - apply classifyTask_unfold.
  - intros HM. destruct (classifyTask_loaded M title description HM) as [H1 [H2 _]].
    now split.
Qed.

(** C5. The call returns, and the [suggested_actions] of its result is the
    list the table gives for the category of the result; two calls, on any
    texts, whose results have the same category have the same list. *)
Theorem suggested_actions_by_category
    (M1 M2 : ModuleState) (title1 description1 title2 description2 : jsstring) :
  exists r1 r2 M1' M2',
    classifyTask M1 title1 description1 = Some (r1, M1') /\
    classifyTask M2 title2 description2 = Some (r2, M2') /\
    suggested_actions r1 = suggestedActions (category r1) /\
    suggested_actions r2 = suggestedActions (category r2) /\
    (category r1 = category r2 -> suggested_actions r1 = suggested_actions r2).
Proof.
  destruct (classifyTask_unfold M1 title1 description1) as [ps1 [ls1 [_ [_ E1]]]].
  destruct (classifyTask_unfold M2 title2 description2) as [ps2 [ls2 [_ [_ E2]]]].
  do 4 eexists. split; [exact E1|]. split; [exact E2|].
  cbn [category suggested_actions]. repeat split. intros ->. reflexivity.
Qed.

(** C6. From any two states of the loaded module, the same title and
    description give the same result, field for field; so do two calls in
    a row, the second starting in the state the first has left. *)
Theorem classifyTask_deterministic (M M' : ModuleState)
    (title description : jsstring) :
  loaded M -> loaded M' ->
  exists r M1 M2 M1',
    classifyTask M title description = Some (r, M1) /\
    classifyTask M1 title description = Some (r, M2) /\
    classifyTask M' title description = Some (r, M1').
Proof.
  intros HM HM'.
  destruct (classifyTask_unfold initialState title description)
    as [ps [ls [_ [_ E]]]].
  destruct (classifyTask_loaded M title description HM) as [_ [_ E1]].
  destruct (classifyTask_loaded M' title description HM') as [_ [_ E1']].
  rewrite E in E1, E1'.
  pose proof (classifyTask_keeps_loaded _ _ _ _ _ HM E1) as HM1.
  destruct (classifyTask_loaded _ title description HM1) as [_ [_ E2]].
  rewrite E in E2.
  do 4 eexists. split; [exact E1|]. split; [exact E2|exact E1'].
Qed.

(** C7. With an empty title and an empty description the result is
    [general], [low] and four empty lists. *)
Theorem classifyTask_empty (M : ModuleState) :
  loaded M ->
  exists M',
    classifyTask M [] []
    = Some ({| category := general;
               priority := low;
               extracted_entities :=
                 {| dates := []; people := []; locations := []; actionVerbs := [] |};
               suggested_actions := suggestedActions general |}, M').
Proof.
  intros HM. destruct (classifyTask_loaded M [] [] HM) as [_ [_ ->]].
  unfold classifyTask, classifyCategory, classifyPriority, classifyPriorityOver.
  cbv zeta. rewrite (toLowerCase_ascii ([] ++ js " " ++ [])) by reflexivity.
  vm_compute. eexists. reflexivity.
Qed.

(** *** The language of literals and of alternatives of words *)

Lemma Lang_chars (flag_i : bool) (l t : jsstring) :
  Lang flag_i (seqs (map (fun ch => CharSet [ch]) l)) t ->
  map (canonicalize flag_i) t = map (canonicalize flag_i) l.
Proof.
  revert t; induction l as [|a l IH]; intros t H.
  - cbn in H. now subst.
  - assert (One : forall u, Lang flag_i (CharSet [a]) u ->
                            map (canonicalize flag_i) u = [canonicalize flag_i a]).
    { intros u [ch [-> Hm]]. unfold charSetMatches in Hm. cbn [existsb] in Hm.
      rewrite orb_false_r in Hm. apply N.eqb_eq in Hm. cbn. now rewrite Hm. }
    destruct l as [|b l].
    + cbn [map seqs] in H. now apply One.
    + change (seqs (map (fun ch => CharSet [ch]) (a :: b :: l)))
        with (Seq (CharSet [a]) (seqs (map (fun ch => CharSet [ch]) (b :: l)))) in H.
      cbn [Lang] in H. destruct H as [s1 [s2 [-> [H1 H2]]]].
      rewrite map_app, (One _ H1), (IH _ H2). reflexivity.
Qed.

Lemma Lang_lit (flag_i : bool) (s : string) (t : jsstring) :
  Lang flag_i (lit s) t ->
  map (canonicalize flag_i) t = map (canonicalize flag_i) (js s).
Proof. apply Lang_chars. Qed.

Lemma Lang_words (flag_i : bool) (ws : list string) (t : jsstring) :
  Lang flag_i (words ws) t ->
  exists w, In w ws /\ map (canonicalize flag_i) t = map (canonicalize flag_i) (js w).
Proof.
  unfold words. induction ws as [|w ws IH]; intros H.
  - cbn in H. destruct H as [ch [_ H]]. discriminate.
  - destruct ws as [|w' ws].
    + cbn [map alts] in H. exists w. split; [now left | now apply Lang_lit].
    + change (alts (map lit (w :: w' :: ws)))
        with (Alt (lit w) (alts (map lit (w' :: ws)))) in H.
      cbn [Lang] in H. destruct H as [H|H].
      * exists w. split; [now left | now apply Lang_lit].
      * destruct (IH H) as [v [Hv E]]. exists v. split; [now right|exact E].
Qed.

Lemma Lang_nextPattern (t : jsstring) :
  Lang true nextPattern t ->
  exists w, In w ["week"; "month"; "monday"; "tuesday"; "wednesday"; "thursday";
                  "friday"] /\
            map asciiUpper t = map asciiUpper (js "next " ++ js w).
Proof.
  unfold nextPattern. cbn [seqs Lang].
  intros [s1 [s2 [-> [-> [s3 [s4 [-> [H3 [s5 [s6 [-> [H5 ->]]]]]]]]]]]].
  apply Lang_lit in H3. apply Lang_words in H5. destruct H5 as [w [Hw H5]].
  exists w. split; [exact Hw|].
  change (canonicalize true) with asciiUpper in H3, H5.
  rewrite app_nil_r. cbn [app]. now rewrite !map_app, H3, H5.
Qed.

Lemma asciiUpper_letter (b c : N) :
  asciiUpper b = c -> (65 <= c <= 90)%N -> b = c \/ b = (c + 32)%N.
Proof.
  unfold asciiUpper. intros H Hc.
  destruct (N.leb_spec 97 b), (N.leb_spec b 122); cbn [andb] in H; lia.
Qed.

(** ** "next Monday" *)

Section NextMonday.

Variables pre post : jsstring.
Hypothesis pre_boundary : forall pre' c, pre = pre' ++ [c] -> wordChar c = false.
Hypothesis post_boundary : forall c post', post = c :: post' -> wordChar c = false.

Let text := pre ++ js "next Monday" ++ post.
Let q := length pre.

Lemma text_at (k : nat) (c : N) :
  nth_error (js "next Monday") k = Some c -> nth_error text (k + q) = Some c.
Proof.
  intros H. unfold text, q. rewrite nth_error_app2 by lia.
  replace (k + length pre - length pre) with k by lia.
  rewrite nth_error_app1; [exact H|]. apply nth_error_Some. congruence.
Qed.

Lemma before_text : isWordCharBefore text q = false.
Proof.
  unfold text, q. destruct pre as [|a l] eqn:E using rev_ind; [reflexivity|].
  rewrite length_app, Nat.add_1_r. cbn [isWordCharBefore]. unfold isWordChar.
  rewrite <- app_assoc, nth_error_app2 by lia. rewrite Nat.sub_diag. cbn.
  now apply (pre_boundary l).
Qed.

Lemma after_text : isWordChar text (11 + q) = false.
Proof.
  unfold isWordChar, text, q. rewrite nth_error_app2 by lia.
  replace (11 + length pre - length pre) with 11 by lia.
  destruct post as [|c post'] eqn:E; [reflexivity|]. cbn.
  now apply (post_boundary c post').
Qed.

Lemma nextPattern_matches :
  matcher true text nextPattern {| endIndex := q; captures := [] |} Some
  = Some {| endIndex := 11 + q; captures := [(1, (5 + q, 11 + q))] |}.
Proof.
  pose proof before_text as B0.
  pose proof after_text as B11.
  pose proof (text_at 0 _ eq_refl) as H0.
  pose proof (text_at 1 _ eq_refl) as H1.
  pose proof (text_at 2 _ eq_refl) as H2.
  pose proof (text_at 3 _ eq_refl) as H3.
  pose proof (text_at 4 _ eq_refl) as H4.
  pose proof (text_at 5 _ eq_refl) as H5.
  pose proof (text_at 6 _ eq_refl) as H6.
  pose proof (text_at 7 _ eq_refl) as H7.
  pose proof (text_at 8 _ eq_refl) as H8.
  pose proof (text_at 9 _ eq_refl) as H9.
  pose proof (text_at 10 _ eq_refl) as H10.
  cbn [Nat.add] in *.
  repeat match goal with
         | H : context [N_of_ascii ?a] |- _ =>
             let v := eval vm_compute in (N_of_ascii a) in
             change (N_of_ascii a) with v in H
         end.
  assert (W0 : isWordChar text q = true)
    by (unfold isWordChar; rewrite H0; reflexivity).
  assert (W10 : isWordChar text (S (S (S (S (S (S (S (S (S (S q)))))))))) = true)
    by (unfold isWordChar; rewrite H10; reflexivity).
  generalize dependent text. intros text0. intros.
  let r := eval vm_compute in nextPattern in change nextPattern with r.
  repeat (cbn -[nth_error isWordChar isWordCharBefore]; cbn [isWordCharBefore];
          rewrite ?B0, ?B11, ?W0, ?W10,
            ?H0, ?H1, ?H2, ?H3, ?H4, ?H5, ?H6, ?H7, ?H8, ?H9, ?H10).
  reflexivity.
Qed.

(** A match of the pattern that starts before the occurrence ends before
    it: the character before "next" is not a word character, and the only
    such character inside a match is the space, which a word follows that
    does not begin with "n". *)
Lemma nextPattern_free (p : nat) (y : MatchState) :
  p < q ->
  matcher true text nextPattern {| endIndex := p; captures := [] |} Some = Some y ->
  endIndex y <= q.
Proof.
  intros Hp H.
  destruct (le_lt_dec (endIndex y) q) as [Hle|Hgt]; [exact Hle|exfalso].
  assert (Hlen : p <= length text).
  { unfold text, q in *. rewrite length_app. lia. }
  apply matcher_at in H; [|exact Hlen]. destruct H as [Hy HL].
  apply Lang_nextPattern in HL. destruct HL as [w [Hw E]].
  (* the character before the occurrence *)
  assert (Hb : exists b, nth_error text (q - 1) = Some b /\ wordChar b = false).
  { unfold text, q in *. destruct pre as [|a l] eqn:Epre using rev_ind.
    - simpl in Hp. lia.
    - exists a. rewrite length_app, <- app_assoc. cbn [length].
      rewrite nth_error_app2 by lia.
      replace (length l + 1 - 1 - length l) with 0 by lia.
      split; [reflexivity | now apply (pre_boundary l)]. }
  destruct Hb as [b [Hb Wb]].
  pose proof (text_at 0 _ eq_refl) as Hn. cbn [Nat.add] in Hn.
  change (N_of_ascii "n") with 110%N in Hn.
  remember (q - 1 - p) as k eqn:Ek.
  assert (G1 : nth_error (map asciiUpper (slice text p (endIndex y))) k
               = Some (asciiUpper b)).
  { rewrite nth_error_map, nth_error_slice by lia.
    replace (p + k) with (q - 1) by lia. now rewrite Hb. }
  assert (G2 : nth_error (map asciiUpper (slice text p (endIndex y))) (S k)
               = Some 78%N).
  { rewrite nth_error_map, nth_error_slice by lia.
    replace (p + S k) with q by lia. now rewrite Hn. }
  rewrite E in G1, G2. clear - Hw G1 G2 Wb.
  assert (Word : forall c, asciiUpper b = c -> (65 <= c <= 90)%N ->
                           wordChar c = true -> wordChar (c + 32) = true -> False).
  { intros c Hc Hr W1 W2. destruct (asciiUpper_letter b c Hc Hr); subst b; congruence. }
  simpl in Hw.
  repeat (destruct Hw as [<-|Hw];
          [vm_compute in G1, G2;
           do 15 (destruct k as [|k];
                  [first [discriminate G2
                         | injection G1 as G1;
                           apply (Word _ (eq_sym G1)); [lia|reflexivity|reflexivity]]|]);
           discriminate G1|]).
  exact Hw.
Qed.

End NextMonday.

(** *** Dates are lowercase ASCII *)

Lemma asciiLower_ascii (c : N) : isAscii c = true -> isAscii (asciiLower c) = true.
Proof.
  unfold isAscii, asciiLower. intros H. apply N.ltb_lt in H. apply N.ltb_lt.
  destruct (N.leb_spec 65 c), (N.leb_spec c 90); cbn [andb]; lia.
Qed.

Lemma asciiLower_idem (c : N) : asciiLower (asciiLower c) = asciiLower c.
Proof.
  unfold asciiLower.
  destruct (N.leb_spec 65 c), (N.leb_spec c 90); cbn [andb];
    destruct (N.leb_spec 65 (c + 32)), (N.leb_spec (c + 32) 90); cbn [andb];
    try lia;
    destruct (N.leb_spec 65 c), (N.leb_spec c 90); cbn [andb]; lia.
Qed.

Lemma toLowerCase_fixed (m : jsstring) :
  forallb isAscii m = true ->
  forallb isAscii (toLowerCase m) = true /\
  toLowerCase (toLowerCase m) = toLowerCase m.
Proof.
  intros Hm. rewrite (toLowerCase_ascii m Hm).
  assert (Ha : forallb isAscii (map asciiLower m) = true).
  { rewrite forallb_forall in *. intros c Hc. apply in_map_iff in Hc.
    destruct Hc as [c' [<- Hc']]. apply asciiLower_ascii. now apply Hm. }
  split; [exact Ha|]. rewrite (toLowerCase_ascii _ Ha), map_map.
  apply map_ext. intros c. apply asciiLower_idem.
Qed.

Lemma matchEach_lowercase (ps : list RegExp) (text x : jsstring) :
  Forall (fun R => asciiOnly (source R) = true) ps ->
  In x (fst (matchEach ps text)) -> toLowerCase x = x.
Proof.
  intros Hps Hx. unfold matchEach in Hx. apply fold_matchOne_In in Hx.
  destruct Hx as [[]|[R [ms [m [HR [Hms [Hm ->]]]]]]].
  rewrite Forall_forall in Hps. specialize (Hps R HR).
  assert (Hall : Forall (fun s => forallb isAscii s = true) ms).
  { apply (stringMatch_Forall text _ R); [|exact Hms].
    intros j y Hj Hy. apply matcher_at in Hy; [|exact Hj].
    apply (Lang_ascii (ignoreCase R) (source R)); [exact Hps | apply Hy]. }
  rewrite Forall_forall in Hall. apply toLowerCase_fixed. now apply Hall.
Qed.

Lemma datePatterns_ascii :
  Forall (fun R => asciiOnly (source R) = true) datePatterns.
Proof. repeat constructor. Qed.

Lemma slice_middle (pre l post : jsstring) :
  slice (pre ++ l ++ post) (length pre) (length l + length pre) = l.
Proof.
  unfold slice. rewrite skipn_app, skipn_all, Nat.sub_diag. cbn [skipn app].
  replace (length l + length pre - length pre) with (length l + 0) by lia.
  rewrite firstn_app_2. cbn. apply app_nil_r.
Qed.

(** C8, as the code has it.  The dates of the result are pairwise distinct,
    also when lowercased (each one is its own lowercase form); and when the
    text contains "next Monday" with no letter, digit or underscore
    immediately before or after it, "next monday" is one of the dates. *)
Theorem next_monday_extracted (M : ModuleState) (title description : jsstring) :
  loaded M ->
  exists r M',
    classifyTask M title description = Some (r, M') /\
    NoDup (dates (extracted_entities r)) /\
    NoDup (map toLowerCase (dates (extracted_entities r))) /\
    (forall pre post,
        title ++ js " " ++ description = pre ++ js "next Monday" ++ post ->
        (forall pre' c, pre = pre' ++ [c] -> wordChar c = false) ->
        (forall c post', post = c :: post' -> wordChar c = false) ->
        In (js "next monday") (dates (extracted_entities r))).
Proof.
  intros HM.
  destruct (classifyTask_unfold M title description) as [ps [ls [_ [_ E]]]].
  destruct (classifyTask_loaded M title description HM) as [Ed _].
  rewrite Ed in E. do 2 eexists. split; [exact E|].
  cbn [dates extracted_entities]. unfold extractDates.
  set (text := title ++ js " " ++ description).
  assert (ND : NoDup (fst (matchEach datePatterns text))).
  { unfold matchEach. apply fold_matchOne_NoDup. constructor. }
  split; [exact ND|]. split.
  - replace (map toLowerCase (fst (matchEach datePatterns text)))
      with (fst (matchEach datePatterns text)); [exact ND|].
    rewrite <- (map_id (fst (matchEach datePatterns text))) at 1.
    apply map_ext_in. intros x Hx. symmetry.
    apply (matchEach_lowercase datePatterns text x datePatterns_ascii Hx).
  - intros pre post Etext Hpre Hpost. rewrite Etext.
    unfold matchEach. apply fold_matchOne_In. right.
    destruct (stringMatch_finds (pre ++ js "next Monday" ++ post)
                (newRegExp nextPattern true) (length pre) _
                (nextPattern_matches pre post Hpre Hpost)) as [ms [Hms Hin]].
    + intros p y. apply nextPattern_free; assumption.
    + rewrite length_app. lia.
    + exists (newRegExp nextPattern true), ms, (js "next Monday").
      split; [cbn; tauto|]. split; [exact Hms|]. split.
      * cbn [endIndex] in Hin.
        change 11 with (length (js "next Monday")) in Hin.
        now rewrite slice_middle in Hin.
      * now rewrite toLowerCase_ascii by reflexivity.
Qed.

(** ** The extractors: what they return *)

Section Captures.

Variable flag_i : bool.
Variable input : jsstring.
Variable G : nat -> jsstring -> Prop.

Lemma repeatMatcher_holding (L : jsstring -> Prop) (m : Matcher)
    (parens : list nat) (max min : nat) :
  consumesHolding input G L m ->
  consumesHolding input G
    (fun s => exists pieces, s = concat pieces /\ Forall L pieces)
    (repeatMatcher m parens max min).
Proof.
  intros Hm. revert min.
  induction max as [|max IH]; intros min x c z H Hx.
  - simpl in H. exists x. split; [exact H|]. split; [lia|]. split; [|auto].
    exists []. rewrite slice_nil. split; [reflexivity|constructor].
  - cbn [repeatMatcher] in H.
    set (d := fun y : MatchState =>
                if (min =? 0) && (endIndex y =? endIndex x) then None
                else repeatMatcher m parens max (pred min) y c) in H.
    set (xr := {| endIndex := endIndex x;
                  captures := clearCaptures parens (captures x) |}) in H.
    assert (Hiter : m xr d = Some z ->
              exists y, c y = Some z /\ endIndex x <= endIndex y <= length input /\
                (exists pieces, slice input (endIndex x) (endIndex y) = concat pieces /\
                                Forall L pieces) /\
                (capturesHold input G x -> capturesHold input G y)).
    { intros Hz. destruct (Hm _ _ _ Hz Hx) as [y1 [Hd [Hle [HL Hcap1]]]].
      cbn [endIndex xr] in Hle, HL.
      unfold d in Hd.
      destruct ((min =? 0) && (endIndex y1 =? endIndex x)); [discriminate|].
      destruct (IH _ _ _ _ Hd) as [y [Hc [Hle' [[pieces [E HF]] Hcap2]]]]; [lia|].
      exists y. split; [exact Hc|]. split; [lia|]. split.
      - exists (slice input (endIndex x) (endIndex y1) :: pieces). split.
        + cbn [concat]. rewrite <- E. symmetry. apply slice_app; lia.
        + constructor; assumption.
      - intros Hcap. apply Hcap2, Hcap1. unfold capturesHold, xr. cbn [captures].
        unfold clearCaptures. apply Forall_forall. intros e He.
        apply filter_In in He. destruct He as [He _].
        unfold capturesHold in Hcap. rewrite Forall_forall in Hcap. now apply Hcap. }
    destruct (min =? 0).
    + destruct (m xr d) as [z'|] eqn:Ez.
      * injection H as ->. now apply Hiter.
      * exists x. split; [exact H|]. split; [lia|]. split; [|auto].
        exists []. rewrite slice_nil. split; [reflexivity|constructor].
    + now apply Hiter.
Qed.

Lemma matcher_holding (r : regex) :
  groupsHold flag_i G r ->
  consumesHolding input G (Lang flag_i r) (matcher flag_i input r).
Proof.
  induction r as [|A| |r1 IH1 r2 IH2|r1 IH1 r2 IH2|min max r IH|n r IH];
    intros HG x c z H Hx; cbn [matcher] in H; cbn [groupsHold] in HG.
  - exists x. split; [exact H|]. split; [lia|]. rewrite slice_nil. now split.
  - destruct (nth_error input (endIndex x)) as [ch|] eqn:En; [|discriminate].
    destruct (charSetMatches flag_i A ch) eqn:Em; [|discriminate].
    assert (endIndex x < length input) by (apply nth_error_Some; congruence).
    eexists. split; [exact H|]. cbn [endIndex]. split; [lia|]. split.
    + cbn [Lang]. exists ch. split; [now apply slice_one | exact Em].
    + intros Hcap. exact Hcap.
  - destruct (xorb _ _); [|discriminate].
    exists x. split; [exact H|]. split; [lia|]. rewrite slice_nil. now split.
  - destruct HG as [HG1 HG2].
    destruct (IH1 HG1 _ _ _ H Hx) as [y1 [H1 [Hle1 [HL1 Hc1]]]].
    destruct (IH2 HG2 _ _ _ H1) as [y [H2 [Hle2 [HL2 Hc2]]]]; [lia|].
    exists y. split; [exact H2|]. split; [lia|]. split; [|auto].
    cbn [Lang]. exists (slice input (endIndex x) (endIndex y1)),
                       (slice input (endIndex y1) (endIndex y)).
    split; [symmetry; apply slice_app; lia|]. now split.
  - destruct HG as [HG1 HG2].
    destruct (matcher flag_i input r1 x c) as [z'|] eqn:E1.
    + injection H as ->.
      destruct (IH1 HG1 _ _ _ E1 Hx) as [y [Hc [Hle [HL Hcap]]]].
      exists y. cbn [Lang]. auto.
    + destruct (IH2 HG2 _ _ _ H Hx) as [y [Hc [Hle [HL Hcap]]]].
      exists y. cbn [Lang]. auto.
  - exact (repeatMatcher_holding _ _ _ _ _ (IH HG) _ _ _ H Hx).
  - destruct HG as [HGn HG'].
    destruct (IH HG' _ _ _ H Hx) as [y [Hc [Hle [HL Hcap]]]].
    eexists. split; [exact Hc|]. cbn [endIndex Lang]. split; [exact Hle|].
    split; [exact HL|]. intros Hx'. unfold capturesHold. cbn [captures].
    constructor; [cbn [fst snd]; now apply HGn | now apply Hcap].
Qed.

(** After a match, what [match[n]] holds is a string of the [n]-th group. *)
Lemma capture_holds (r : regex) (i n : nat) (y : MatchState) (g : jsstring) :
  groupsHold flag_i G r ->
  matcher flag_i input r {| endIndex := i; captures := [] |} Some = Some y ->
  i <= length input ->
  capture input (i, y) n = Some g -> G n g.
Proof.
  intros HG H Hi Hg.
  destruct (matcher_holding r HG _ _ _ H Hi) as [y' [E [_ [_ Hcap]]]].
  injection E as ->. specialize (Hcap (Forall_nil _)).
  unfold capture in Hg. cbn [snd] in Hg.
  destruct (find (fun entry => fst entry =? n) (captures y))
    as [[n' [a b]]|] eqn:Ef; [|discriminate].
  injection Hg as <-. apply find_some in Ef. destruct Ef as [Hin Hn].
  cbn [fst] in Hn. apply Nat.eqb_eq in Hn. subst n'.
  unfold capturesHold in Hcap. rewrite Forall_forall in Hcap.
  exact (Hcap _ Hin).
Qed.

End Captures.

Lemma slice_Substring (s : jsstring) (i e : nat) : Substring (slice s i e) s.
Proof.
  unfold slice, Substring.
  exists (firstn i s), (skipn (e - i) (skipn i s)).
  now rewrite firstn_skipn, firstn_skipn.
Qed.

Lemma trimStart_suffix (s : jsstring) : exists ws, s = ws ++ trimStart s.
Proof.
  induction s as [|c s [ws IH]]; [now exists []|]. cbn [trimStart].
  destruct (isWhiteSpace c).
  - exists (c :: ws). simpl. now rewrite <- IH.
  - now exists [].
Qed.

Lemma trim_Substring (s : jsstring) : Substring (trim s) s.
Proof.
  unfold trim. destruct (trimStart_suffix s) as [ws1 E1].
  destruct (trimStart_suffix (rev (trimStart s))) as [ws2 E2].
  exists ws1, (rev ws2). rewrite E1 at 1. f_equal.
  rewrite <- rev_app_distr, <- E2. now rewrite rev_involutive.
Qed.

Lemma trimStart_solid (s : jsstring) : startsSolid (trimStart s).
Proof.
  induction s as [|c s IH]; [exact I|]. cbn [trimStart].
  destruct (isWhiteSpace c) eqn:E; [exact IH | exact E].
Qed.

Lemma trimStart_id (s : jsstring) : startsSolid s -> trimStart s = s.
Proof. destruct s as [|c s]; [reflexivity|]. simpl. now intros ->. Qed.

Lemma trimStart_app_solid (l : jsstring) (c : N) :
  isWhiteSpace c = false -> exists l', trimStart (l ++ [c]) = l' ++ [c].
Proof.
  intros Hc. induction l as [|a l [l' IH]]; cbn [app trimStart].
  - rewrite Hc. now exists [].
  - destruct (isWhiteSpace a); [now exists l' | now exists (a :: l)].
Qed.

(** What [trim] returns has no white space left at either end. *)
Lemma trim_idem (s : jsstring) : trim (trim s) = trim s.
Proof.
  unfold trim.
  set (t := trimStart (rev (trimStart s))).
  assert (Ht : startsSolid t) by apply trimStart_solid.
  assert (E : trimStart (rev t) = rev t).
  { apply trimStart_id.
    destruct (trimStart s) as [|c u] eqn:Eu.
    - subst t. cbn. exact I.
    - pose proof (trimStart_solid s) as Hs. rewrite Eu in Hs. cbn in Hs.
      subst t. cbn [rev]. destruct (trimStart_app_solid (rev u) c Hs) as [l' ->].
      rewrite rev_app_distr. cbn. exact Hs. }
  rewrite E, rev_involutive. subst t. now rewrite trimStart_id by exact Ht.
Qed.

Lemma trim_solid_nonempty (c : N) (s : jsstring) :
  isWhiteSpace c = false -> trim (c :: s) <> [].
Proof.
  intros Hc. unfold trim. cbn [trimStart]. rewrite Hc. cbn [rev].
  destruct (trimStart_app_solid (rev s) c Hc) as [l' ->].
  rewrite rev_app_distr. discriminate.
Qed.

Lemma charSet_solid (flag_i : bool) (A : list N) (ch : N) :
  forallb (fun a => N.leb 48 a && N.leb a 122) A = true ->
  charSetMatches flag_i A ch = true -> isWhiteSpace ch = false.
Proof.
  intros HA H. unfold charSetMatches in H. apply existsb_exists in H.
  destruct H as [a [Ha E]]. rewrite forallb_forall in HA. apply HA in Ha.
  apply andb_true_iff in Ha. destruct Ha as [Ha1 Ha2].
  apply N.leb_le in Ha1. apply N.leb_le in Ha2. apply N.eqb_eq in E.
  assert (Hch : (48 <= ch <= 122)%N).
  { unfold canonicalize, asciiUpper in E. destruct flag_i; [|lia].
    destruct (N.leb_spec 97 a), (N.leb_spec a 122), (N.leb_spec 97 ch),
      (N.leb_spec ch 122); cbn [andb] in E; lia. }
  unfold isWhiteSpace, whiteSpace. cbn [existsb].
  repeat rewrite (proj2 (N.eqb_neq ch _)) by lia. reflexivity.
Qed.

Lemma Lang_run_solid (flag_i : bool) (A : list N) (min : nat) (max : option nat)
    (s : jsstring) :
  forallb (fun a => N.leb 48 a && N.leb a 122) A = true ->
  Lang flag_i (Quant min max (CharSet A)) s -> startsSolid s.
Proof.
  intros HA [pieces [-> HF]]. destruct HF as [|p ps [ch [-> Hm]] _]; [exact I|].
  cbn. now apply (charSet_solid flag_i A).
Qed.

Lemma Lang_capitalized_solid (flag_i : bool) (rest : regex) (s : jsstring) :
  Lang flag_i (Seq capitalized rest) s -> startsSolid s.
Proof.
  unfold capitalized. cbn [Lang].
  intros [s1 [s2 [-> [[s3 [s4 [-> [[ch [-> Hm]] _]]]] _]]]].
  cbn. now apply (charSet_solid flag_i upperAZ).
Qed.

Lemma personPatterns_solid :
  Forall (fun R => groupsHold (ignoreCase R) (fun _ => startsSolid) (source R))
         personPatterns.
Proof.
  repeat constructor.
  - intros s. apply Lang_capitalized_solid.
  - intros s. now apply Lang_run_solid.
Qed.

Lemma locationPatterns_solid :
  Forall (fun R => groupsHold (ignoreCase R) (fun _ => startsSolid) (source R))
         locationPatterns.
Proof.
  repeat constructor.
  - intros s. apply Lang_capitalized_solid.
  - intros s. now apply Lang_run_solid.
Qed.

Lemma setAdd_Forall (P : jsstring -> Prop) (s : list jsstring) (v : jsstring) :
  Forall P s -> P v -> Forall P (setAdd s v).
Proof.
  intros Hs Hv. unfold setAdd. destruct (existsb (jsstring_eqb v) s); [exact Hs|].
  apply Forall_app. split; [exact Hs | now constructor].
Qed.

(** What the [while] loop adds: trimmed, non-empty captures of the first
    group of matches of the pattern. *)
Lemma execLoop_Forall (P : jsstring -> Prop) (rounds : nat) (R : RegExp)
    (text : jsstring) (found l : list jsstring) :
  (forall j y c g, j <= length text ->
     matcher (ignoreCase R) text (source R) {| endIndex := j; captures := [] |} Some
       = Some y ->
     capture text (j, y) 1 = Some (c :: g) -> P (trim (c :: g))) ->
  Forall P found -> execLoop rounds R text found = Some l -> Forall P l.
Proof.
  intros HP. revert R found HP.
  induction rounds as [|rounds IH]; intros R found HP Hf H; cbn [execLoop] in H;
    [discriminate|].
  destruct (regExpBuiltinExec R text) as [[m|] R'] eqn:E.
  - apply exec_Some in E. destruct E as [-> [Hle [Hel [Hm _]]]].
    apply IH in H; [exact H | exact HP |].
    destruct (capture text m 1) as [[|c g]|] eqn:Ec; try exact Hf.
    apply setAdd_Forall; [exact Hf|].
    apply (HP (fst m) (snd m)); [lia | exact Hm |].
    now destruct m.
  - now injection H as <-.
Qed.

Lemma execLoop_NoDup (rounds : nat) (R : RegExp) (text : jsstring)
    (found l : list jsstring) :
  NoDup found -> execLoop rounds R text found = Some l -> NoDup l.
Proof.
  revert R found; induction rounds as [|rounds IH]; intros R found Hf H;
    cbn [execLoop] in H; [discriminate|].
  destruct (regExpBuiltinExec R text) as [[m|] R'].
  - apply IH in H; [exact H|].
    destruct (capture text m 1) as [[|c g]|]; try exact Hf.
    now apply setAdd_NoDup.
  - now injection H as <-.
Qed.

Lemma execEach_verbatim (patterns : list RegExp) (text : jsstring)
    (l : list jsstring) :
  Forall (fun R => groupsHold (ignoreCase R) (fun _ => startsSolid) (source R))
         patterns ->
  execEach patterns text = Some l ->
  NoDup l /\ Forall (verbatim text) l.
Proof.
  unfold execEach. intros Hps.
  assert (Hinit : NoDup (@nil jsstring) /\ Forall (verbatim text) []).
  { split; constructor. }
  revert Hinit. generalize (@nil jsstring) as set0. revert l.
  induction Hps as [|R patterns HR _ IH]; intros l set0 [Hnd Hall] H;
    cbn [fold_left] in H.
  - injection H as <-. now split.
  - cbn [execOne] in H.
    destruct (execLoop (S (S (length text))) (newRegExp (source R) (ignoreCase R))
                text set0) as [set1|] eqn:E.
    + apply (IH l set1); [|exact H]. split.
      * exact (execLoop_NoDup _ _ _ _ _ Hnd E).
      * apply (execLoop_Forall (verbatim text) _ _ _ _ _) with (3 := E); [|exact Hall].
        cbn [source ignoreCase newRegExp]. intros j y c g Hj Hy Hc.
        pose proof (capture_holds _ _ _ _ _ _ _ _ HR Hy Hj Hc) as Hs.
        cbn in Hs. split; [now apply trim_solid_nonempty|].
        split; [apply trim_idem|].
        apply (Substring_trans _ (c :: g)); [apply trim_Substring|].
        unfold capture in Hc.
        destruct (find (fun entry => fst entry =? 1) (captures (snd (j, y))))
          as [[n [a b]]|]; [|discriminate].
        injection Hc as <-. apply slice_Substring.
    + exfalso. clear - H. induction patterns as [|R' ps IHps]; [discriminate|].
      cbn [fold_left execOne] in H. auto.
Qed.

(** X1. [extractPeople] returns, and each entry of the answer is
    non-empty, has no white space at either end, occurs as it is in the
    text, and occurs once in the answer. *)
Theorem extractPeople_verbatim (text : jsstring) :
  exists ps, extractPeople text = Some ps /\ NoDup ps /\ Forall (verbatim text) ps.
Proof.
  destruct (extractPeople_total text) as [ps E]. exists ps. split; [exact E|].
  exact (execEach_verbatim _ _ _ personPatterns_solid E).
Qed.

(** X2. [extractLocations] returns, and each entry of the answer is
    non-empty, has no white space at either end, occurs as it is in the
    text, and occurs once in the answer. *)
Theorem extractLocations_verbatim (text : jsstring) :
  exists ls, extractLocations text = Some ls /\ NoDup ls /\ Forall (verbatim text) ls.
Proof.
  destruct (extractLocations_total text) as [ls E]. exists ls. split; [exact E|].
  exact (execEach_verbatim _ _ _ locationPatterns_solid E).
Qed.

Lemma asciiUpper_eq_lower (a b : N) :
  asciiUpper a = asciiUpper b -> asciiLower a = asciiLower b.
Proof.
  unfold asciiUpper, asciiLower. intros H.
  destruct (N.leb_spec 97 a), (N.leb_spec a 122), (N.leb_spec 97 b),
    (N.leb_spec b 122); cbn [andb] in H;
    destruct (N.leb_spec 65 a), (N.leb_spec a 90), (N.leb_spec 65 b),
      (N.leb_spec b 90); cbn [andb]; lia.
Qed.

Lemma map_asciiUpper_eq_lower (a b : jsstring) :
  map asciiUpper a = map asciiUpper b -> map asciiLower a = map asciiLower b.
Proof.
  revert b; induction a as [|x a IH]; intros [|y b] H; try discriminate;
    [reflexivity|].
  cbn [map] in *. injection H as Hx Hab.
  now rewrite (asciiUpper_eq_lower _ _ Hx), (IH _ Hab).
Qed.

Lemma actionVerbPatterns_ascii :
  Forall (fun R => asciiOnly (source R) = true) actionVerbPatterns.
Proof. repeat constructor. Qed.

(** X3. The action verbs of a text are words of the fixed vocabulary, in
    lowercase, each at most once. *)
Theorem extractActionVerbs_vocabulary (patterns : list RegExp) (text : jsstring) :
  Forall2 sameSource patterns actionVerbPatterns ->
  NoDup (fst (extractActionVerbs patterns text)) /\
  forall v, In v (fst (extractActionVerbs patterns text)) ->
    In v (jss ["schedule"; "create"; "review"; "complete"; "send"; "call"; "email";
               "update"; "fix"; "check"; "prepare"; "submit"; "approve"; "cancel";
               "organize"; "setup"; "plan"; "meet"; "discuss"; "analyze";
               "implement"; "deploy"]).
Proof.
  intros Hps. unfold extractActionVerbs.
  rewrite (matchEach_sameSource _ _ _ Hps). split.
  - unfold matchEach. apply fold_matchOne_NoDup. constructor.
  - intros v Hv. unfold matchEach in Hv. apply fold_matchOne_In in Hv.
    destruct Hv as [[]|[R [ms [m [HR [Hms [Hm ->]]]]]]].
    destruct HR as [<-|[]].
    set (verbs := ["schedule"; "create"; "review"; "complete"; "send"; "call";
                   "email"; "update"; "fix"; "check"; "prepare"; "submit";
                   "approve"; "cancel"; "organize"; "setup"; "plan"; "meet";
                   "discuss"; "analyze"; "implement"; "deploy"]) in *.
    assert (Hall : Forall (fun s => forallb isAscii s = true /\
                             exists w, In w verbs /\
                                       map asciiUpper s = map asciiUpper (js w)) ms).
    { eapply (stringMatch_Forall text); [|exact Hms].
      cbn [ignoreCase source newRegExp]. intros j y Hj Hy.
      apply matcher_at in Hy; [|exact Hj]. destruct Hy as [_ HL]. split.
      - apply (Lang_ascii true _ _ (Forall_inv actionVerbPatterns_ascii) HL).
      - cbn [seqs Lang] in HL.
        destruct HL as [s1 [s2 [-> [-> [s3 [s4 [-> [H3 ->]]]]]]]].
        apply Lang_words in H3. destruct H3 as [w [Hw E]].
        exists w. split; [exact Hw|]. now rewrite app_nil_r. }
    rewrite Forall_forall in Hall. destruct (Hall m Hm) as [Ha [w [Hw E]]].
    rewrite (toLowerCase_ascii m Ha), (map_asciiUpper_eq_lower _ _ E).
    assert (Hlow : map asciiLower (js w) = js w).
    { clear - Hw. simpl in Hw.
      repeat (destruct Hw as [<-|Hw]; [reflexivity|]). contradiction. }
    rewrite Hlow. unfold jss. now apply in_map.
Qed.

(** X4. Every date of a text is the lowercase form of an ASCII piece of
    the text. *)
Theorem extractDates_from_text (patterns : list RegExp) (text : jsstring) :
  Forall2 sameSource patterns datePatterns ->
  forall d, In d (fst (extractDates patterns text)) ->
    exists m, Substring m text /\ forallb isAscii m = true /\ d = map asciiLower m.
Proof.
  intros Hps d Hd. unfold extractDates in Hd.
  rewrite (matchEach_sameSource _ _ _ Hps) in Hd.
  unfold matchEach in Hd. apply fold_matchOne_In in Hd.
  destruct Hd as [[]|[R [ms [m [HR [Hms [Hm ->]]]]]]].
  pose proof datePatterns_ascii as Hascii. rewrite Forall_forall in Hascii.
  specialize (Hascii R HR).
  assert (Hall : Forall (fun s => Substring s text /\ forallb isAscii s = true) ms).
  { apply (stringMatch_Forall text _ R); [|exact Hms].
    intros j y Hj Hy. apply matcher_at in Hy; [|exact Hj]. split.
    - apply slice_Substring.
    - apply (Lang_ascii (ignoreCase R) (source R)); [exact Hascii | apply Hy]. }
  rewrite Forall_forall in Hall. destruct (Hall m Hm) as [Hs Ha].
  exists m. split; [exact Hs|]. split; [exact Ha|]. now apply toLowerCase_ascii.
Qed.

(** *** A greedy run of one character class *)

Lemma clearCaptures_nil (caps : list (nat * (nat * nat))) :
  clearCaptures [] caps = caps.
Proof.
  unfold clearCaptures. induction caps as [|e caps IH]; [reflexivity|].
  cbn [filter existsb negb]. f_equal. exact IH.
Qed.

Lemma matcher_CharSet_step (flag_i : bool) (input : jsstring) (A : list N)
    (x : MatchState) (c : Continuation) (ch : N) :
  nth_error input (endIndex x) = Some ch -> charSetMatches flag_i A ch = true ->
  matcher flag_i input (CharSet A) x c
  = c {| endIndex := S (endIndex x); captures := captures x |}.
Proof. intros H1 H2. cbn [matcher]. now rewrite H1, H2. Qed.

Lemma matcher_CharSet_stop (flag_i : bool) (input : jsstring) (A : list N)
    (x : MatchState) (c : Continuation) :
  match nth_error input (endIndex x) with
  | Some ch => charSetMatches flag_i A ch = false
  | None => True
  end ->
  matcher flag_i input (CharSet A) x c = None.
Proof.
  intros H. cbn [matcher]. destruct (nth_error input (endIndex x)); [|reflexivity].
  now rewrite H.
Qed.

(** Where [n] code units of the class follow and the next one is not of the
    class, the quantified class consumes the [n] of them, if what follows
    the quantifier then matches. *)
Lemma repeatMatcher_run (flag_i : bool) (input : jsstring) (A : list N) (n : nat) :
  forall (max min : nat) (x : MatchState) (c : Continuation) (z : MatchState),
    (forall k, k < n -> exists ch, nth_error input (endIndex x + k) = Some ch /\
                                   charSetMatches flag_i A ch = true) ->
    match nth_error input (endIndex x + n) with
    | Some ch => charSetMatches flag_i A ch = false
    | None => True
    end ->
    min <= n -> n <= max ->
    c {| endIndex := endIndex x + n; captures := captures x |} = Some z ->
    repeatMatcher (matcher flag_i input (CharSet A)) [] max min x c = Some z.
Proof.
  induction n as [|n IH]; intros max min x c z Hrun Hstop Hmin Hmax Hc.
  - rewrite Nat.add_0_r in Hstop, Hc.
    assert (Ex : {| endIndex := endIndex x; captures := captures x |} = x)
      by now destruct x.
    rewrite Ex in Hc.
    destruct max as [|max]; [exact Hc|]. cbn [repeatMatcher].
    replace (min =? 0) with true by (symmetry; apply Nat.eqb_eq; lia).
    rewrite matcher_CharSet_stop; [exact Hc | exact Hstop].
  - destruct max as [|max]; [lia|]. cbn [repeatMatcher].
    destruct (Hrun 0 ltac:(lia)) as [ch [Hch Hm]]. rewrite Nat.add_0_r in Hch.
    rewrite (matcher_CharSet_step _ _ _ _ _ ch) by assumption.
    cbn [endIndex captures]. rewrite clearCaptures_nil.
    replace (S (endIndex x) =? endIndex x) with false
      by (symmetry; apply Nat.eqb_neq; lia).
    rewrite andb_false_r.
    assert (E : repeatMatcher (matcher flag_i input (CharSet A)) [] max (pred min)
                  {| endIndex := S (endIndex x); captures := captures x |} c
                = Some z).
    { apply IH; cbn [endIndex captures]; try lia.
      - intros k Hk. destruct (Hrun (S k) ltac:(lia)) as [ch' [H1 H2]].
        exists ch'. split; [|exact H2]. rewrite <- H1. f_equal. lia.
      - replace (S (endIndex x) + n) with (endIndex x + S n) by lia. exact Hstop.
      - replace (S (endIndex x) + n) with (endIndex x + S n) by lia. exact Hc. }
    rewrite E. now destruct (min =? 0).
Qed.

Lemma execLoop_incl (rounds : nat) (R : RegExp) (text : jsstring)
    (found l : list jsstring) (a : jsstring) :
  In a found -> execLoop rounds R text found = Some l -> In a l.
Proof.
  revert R found; induction rounds as [|rounds IH]; intros R found Ha H;
    cbn [execLoop] in H; [discriminate|].
  destruct (regExpBuiltinExec R text) as [[m|] R'].
  - apply IH in H; [exact H|].
    destruct (capture text m 1) as [[|c g]|]; try exact Ha.
    apply setAdd_In. now left.
  - now injection H as <-.
Qed.

(** The loop reaches a match at [q] when no match that starts before [q]
    reaches beyond [q], and then adds its first group, trimmed. *)
Lemma execLoop_finds (rounds : nat) (R : RegExp) (text : jsstring)
    (found l : list jsstring) (q : nat) (yq : MatchState) (c : N) (g : jsstring) :
  1 <= minLen (source R) ->
  matcher (ignoreCase R) text (source R) {| endIndex := q; captures := [] |} Some
    = Some yq ->
  (forall p y, p < q ->
     matcher (ignoreCase R) text (source R) {| endIndex := p; captures := [] |} Some
       = Some y ->
     endIndex y <= q) ->
  capture text (q, yq) 1 = Some (c :: g) ->
  lastIndex R <= q -> q <= length text ->
  execLoop rounds R text found = Some l ->
  In (trim (c :: g)) l.
Proof.
  intros Hmin Hq Hfree Hcap. revert R found Hmin Hq Hfree.
  induction rounds as [|rounds IH]; intros R found Hmin Hq Hfree Hlo Hlen H;
    cbn [execLoop] in H; [discriminate|].
  destruct (regExpBuiltinExec R text) as [[m|] R'] eqn:E.
  - apply exec_Some in E. destruct E as [-> [Hle [Hel [Hm Hfirst]]]].
    destruct (Nat.lt_trichotomy (fst m) q) as [Hlt|[Heq|Hgt]].
    + pose proof (Hfree _ _ Hlt Hm) as He.
      apply IH in H; [exact H | exact Hmin | exact Hq | exact Hfree | | exact Hlen].
      cbn [lastIndex setLastIndex]. exact He.
    + apply execLoop_incl with (a := trim (c :: g)) in H; [exact H|].
      destruct m as [j y]. cbn [fst snd] in *. subst j.
      assert (y = yq) by congruence. subst y. rewrite Hcap.
      apply setAdd_In. now right.
    + rewrite Hfirst in Hq by lia. discriminate.
  - apply exec_None in E. destruct E as [_ Hnone].
    rewrite Hnone in Hq by lia. discriminate.
Qed.

Lemma wordChar_charSet (ch : N) :
  charSetMatches false wordCharacters ch = wordChar ch.
Proof.
  unfold charSetMatches, wordChar, canonicalize.
  induction wordCharacters as [|a l IH]; [reflexivity|].
  cbn [existsb]. now rewrite IH, N.eqb_sym.
Qed.

Lemma wordChar_solid (ch : N) : wordChar ch = true -> isWhiteSpace ch = false.
Proof.
  intros H. rewrite <- wordChar_charSet in H.
  now apply (charSet_solid false wordCharacters).
Qed.

Lemma trim_id (s : jsstring) : startsSolid s -> startsSolid (rev s) -> trim s = s.
Proof.
  intros H1 H2. unfold trim.
  now rewrite (trimStart_id s H1), (trimStart_id _ H2), rev_involutive.
Qed.

Lemma forallb_solid (f : N -> bool) (s : jsstring) :
  (forall ch, f ch = true -> isWhiteSpace ch = false) ->
  forallb f s = true -> startsSolid s.
Proof.
  intros Hf H. destruct s as [|ch s]; [exact I|]. cbn in *.
  apply andb_true_iff in H. now apply Hf.
Qed.

Section Handle.

Variables pre h post : jsstring.
Hypothesis handle_nonempty : h <> [].
Hypothesis handle_word : forallb wordChar h = true.
Hypothesis handle_ends : forall c post', post = c :: post' -> wordChar c = false.

Let text := pre ++ js "@" ++ h ++ post.
Let q := length pre.

Lemma handle_at (k : nat) : nth_error text (S q + k) = nth_error (h ++ post) k.
Proof.
  unfold text, q. rewrite nth_error_app2 by lia.
  replace (S (length pre) + k - length pre) with (S k) by lia. reflexivity.
Qed.

Lemma handle_matches :
  matcher false text
    (seqs [lit "@"; Group 1 (plus (CharSet wordCharacters))])
    {| endIndex := q; captures := [] |} Some
  = Some {| endIndex := S q + length h;
            captures := [(1, (S q, S q + length h))] |}.
Proof.
  assert (Hat : nth_error text q = Some 64%N).
  { unfold text, q. rewrite nth_error_app2 by lia. now rewrite Nat.sub_diag. }
  cbn [seqs lit js map list_ascii_of_string matcher endIndex captures plus].
  change (N_of_ascii "@") with 64%N. rewrite Hat.
  change (charSetMatches false [64%N] 64%N) with true. cbv iota.
  apply (repeatMatcher_run false text wordCharacters (length h));
    cbn [endIndex captures iterationBound].
  - intros k Hk. rewrite handle_at, nth_error_app1 by exact Hk.
    destruct (nth_error h k) as [ch|] eqn:E.
    + exists ch. split; [reflexivity|]. rewrite wordChar_charSet.
      rewrite forallb_forall in handle_word. apply handle_word.
      now apply nth_error_In in E.
    + apply nth_error_None in E. lia.
  - rewrite handle_at, nth_error_app2, Nat.sub_diag by lia.
    destruct post as [|c post'] eqn:E; [exact I|]. cbn [nth_error].
    rewrite wordChar_charSet. now apply (handle_ends c post').
  - destruct h; [contradiction|cbn; lia].
  - unfold text. rewrite !length_app. lia.
  - reflexivity.
Qed.

Lemma handle_free (p : nat) (y : MatchState) :
  p < q ->
  matcher false text
    (seqs [lit "@"; Group 1 (plus (CharSet wordCharacters))])
    {| endIndex := p; captures := [] |} Some = Some y ->
  endIndex y <= q.
Proof.
  intros Hp H.
  destruct (le_lt_dec (endIndex y) q) as [Hle|Hgt]; [exact Hle|exfalso].
  assert (Hlen : p <= length text).
  { unfold text, q in *. rewrite length_app. lia. }
  apply matcher_at in H; [|exact Hlen]. destruct H as [Hy HL].
  cbn [seqs lit js map list_ascii_of_string Lang plus] in HL.
  destruct HL as [s1 [s2 [E [[c0 [-> _]] [pieces [-> HF]]]]]].
  assert (Hword : forallb wordChar (concat pieces) = true).
  { apply forallb_concat. clear E. induction HF as [|pc pcs [ch [-> Hm]] _ IH];
      constructor; [|exact IH].
    cbn [forallb]. now rewrite <- wordChar_charSet, Hm. }
  assert (Hat : nth_error (slice text p (endIndex y)) (S (q - S p)) = Some 64%N).
  { rewrite nth_error_slice by lia. replace (p + S (q - S p)) with q by lia.
    unfold text, q. rewrite nth_error_app2 by lia. now rewrite Nat.sub_diag. }
  rewrite E in Hat. cbn [app nth_error] in Hat.
  apply nth_error_In in Hat. rewrite forallb_forall in Hword.
  apply Hword in Hat. discriminate Hat.
Qed.

End Handle.

(** X5. A handle written "@" and then letters, digits and underscores, up
    to the end of the text or to a character that is none of these, is one
    of the people, without the "@". *)
Theorem extractPeople_handle (pre h post : jsstring) :
  h <> [] ->
  forallb wordChar h = true ->
  (forall c post', post = c :: post' -> wordChar c = false) ->
  exists ps, extractPeople (pre ++ js "@" ++ h ++ post) = Some ps /\ In h ps.
Proof.
  intros Hne Hword Hend.
  set (text := pre ++ js "@" ++ h ++ post).
  destruct (extractPeople_total text) as [ps E]. exists ps. split; [exact E|].
  unfold extractPeople, execEach, personPatterns in E.
  cbn [fold_left execOne] in E.
  match type of E with
  | execOne _ ?first _ = _ => destruct first as [set1|]
  end; cbn [execOne] in E; [|discriminate].
  destruct h as [|c g]; [contradiction|]. set (h := c :: g) in *.
  assert (Htrim : trim h = h).
  { apply trim_id.
    - apply (forallb_solid wordChar); [apply wordChar_solid | exact Hword].
    - apply (forallb_solid wordChar); [apply wordChar_solid|].
      rewrite forallb_forall in *. intros x Hx. apply Hword. now apply in_rev. }
  rewrite <- Htrim.
  eapply (execLoop_finds _ _ text set1 ps (length pre) _ c g); [| | | | | |exact E].
  - cbn. lia.
  - cbn [ignoreCase source newRegExp].
    exact (handle_matches pre h post Hne Hword Hend).
  - cbn [ignoreCase source newRegExp]. intros p y.
    apply handle_free.
  - unfold capture. cbn [snd captures find fst Nat.eqb].
    change (c :: g) with h. f_equal. subst text.
    replace (S (length pre) + length h) with (length h + length (pre ++ js "@"))
      by (rewrite length_app; cbn; lia).
    replace (S (length pre)) with (length (pre ++ js "@"))
      by (rewrite length_app; cbn; lia).
    replace (pre ++ js "@" ++ h ++ post) with ((pre ++ js "@") ++ h ++ post)
      by (now rewrite <- app_assoc).
    apply slice_middle.
  - cbn. lia.
  - subst text. rewrite length_app. lia.
Qed.

(** *** Literals and runs, step by step *)

Lemma matcher_Seq (flag_i : bool) (input : jsstring) (r1 r2 : regex)
    (x : MatchState) (c : Continuation) :
  matcher flag_i input (Seq r1 r2) x c
  = matcher flag_i input r1 x (fun y => matcher flag_i input r2 y c).
Proof. reflexivity. Qed.

Lemma matcher_lit_fail (input : jsstring) (w : string) (x : MatchState)
    (c : Continuation) :
  match js w, nth_error input (endIndex x) with
  | a :: _, Some ch => N.eqb a ch = false
  | a :: _, None => True
  | [], _ => False
  end ->
  matcher false input (lit w) x c = None.
Proof.
  unfold lit. destruct (js w) as [|a l]; [contradiction|]. intros H.
  assert (One : forall c', matcher false input (CharSet [a]) x c' = None).
  { intros c'. apply matcher_CharSet_stop.
    destruct (nth_error input (endIndex x)) as [ch|]; [|exact I].
    unfold charSetMatches, canonicalize. cbn [existsb]. now rewrite H. }
  destruct l as [|b l]; [apply One|].
  change (seqs (map (fun ch => CharSet [ch]) (a :: b :: l)))
    with (Seq (CharSet [a]) (seqs (map (fun ch => CharSet [ch]) (b :: l)))).
  rewrite matcher_Seq. apply One.
Qed.

Lemma matcher_chars_run (input l : jsstring) :
  forall (x : MatchState) (c : Continuation),
    (forall k ch, nth_error l k = Some ch ->
                  nth_error input (endIndex x + k) = Some ch) ->
    matcher false input (seqs (map (fun ch => CharSet [ch]) l)) x c
    = c {| endIndex := endIndex x + length l; captures := captures x |}.
Proof.
  induction l as [|a l IH]; intros x c H.
  - cbn. rewrite Nat.add_0_r. now destruct x.
  - assert (One : forall c',
               matcher false input (CharSet [a]) x c'
               = c' {| endIndex := S (endIndex x); captures := captures x |}).
    { intros c'. apply (matcher_CharSet_step _ _ _ _ _ a).
      - rewrite <- (H 0 a eq_refl). f_equal. lia.
      - unfold charSetMatches, canonicalize. cbn [existsb].
        now rewrite N.eqb_refl. }
    destruct l as [|b l].
    + cbn [map seqs length]. rewrite One. f_equal. f_equal. lia.
    + change (seqs (map (fun ch => CharSet [ch]) (a :: b :: l)))
        with (Seq (CharSet [a]) (seqs (map (fun ch => CharSet [ch]) (b :: l)))).
      rewrite matcher_Seq, One, IH.
      * cbn [endIndex captures length]. f_equal. f_equal. lia.
      * intros k ch Hk. cbn [endIndex]. rewrite <- (H (S k) ch Hk). f_equal. lia.
Qed.

Lemma matcher_lit_run (input : jsstring) (w : string) (x : MatchState)
    (c : Continuation) :
  (forall k ch, nth_error (js w) k = Some ch ->
                nth_error input (endIndex x + k) = Some ch) ->
  matcher false input (lit w) x c
  = c {| endIndex := endIndex x + length (js w); captures := captures x |}.
Proof. apply matcher_chars_run. Qed.

Lemma matcher_plus_run (input : jsstring) (A : list N) (n : nat) (x : MatchState)
    (c : Continuation) (z : MatchState) :
  (forall k, k < n -> exists ch, nth_error input (endIndex x + k) = Some ch /\
                                 charSetMatches false A ch = true) ->
  match nth_error input (endIndex x + n) with
  | Some ch => charSetMatches false A ch = false
  | None => True
  end ->
  1 <= n -> endIndex x + n <= length input ->
  c {| endIndex := endIndex x + n; captures := captures x |} = Some z ->
  matcher false input (plus (CharSet A)) x c = Some z.
Proof.
  intros Hrun Hstop Hn Hlen Hc. unfold plus. cbn [matcher groups iterationBound].
  apply (repeatMatcher_run false input A n); try assumption. lia.
Qed.

(** *** Where the letter "c" can stand in a match *)

Ltac not_listed :=
  vm_compute;
  let H := fresh "H" in
  intros H; repeat (destruct H as [H|H]; [discriminate H|]); exact H.

Ltac listed := vm_compute; repeat (first [left; reflexivity | right]).

Lemma cInside_nil : cInside [].
Proof. split; [intros j H; destruct j; discriminate H | discriminate]. Qed.

Lemma cInside_app (a b : jsstring) : cInside a -> cInside b -> cInside (a ++ b).
Proof.
  intros [Qa Ha] [Qb Hb]. split.
  - intros j H. destruct (Nat.lt_ge_cases (S j) (length a)) as [Hlt|Hge].
    + rewrite nth_error_app1 in H by exact Hlt.
      rewrite nth_error_app1 by lia. now apply Qa.
    + rewrite nth_error_app2 in H by exact Hge.
      destruct (S j - length a) as [|i] eqn:Ei.
      * exfalso. apply Hb. destruct b; [discriminate H|exact H].
      * rewrite nth_error_app2 by lia.
        replace (j - length a) with i by lia. now apply Qb.
  - destruct a as [|x a]; [exact Hb|exact Ha].
Qed.

Lemma cFollowsLetter_app (a b : jsstring) :
  cFollowsLetter a -> cInside b -> cFollowsLetter (a ++ b).
Proof.
  intros Qa [Qb Hb] j H.
  destruct (Nat.lt_ge_cases (S j) (length a)) as [Hlt|Hge].
  - rewrite nth_error_app1 in H by exact Hlt.
    rewrite nth_error_app1 by lia. now apply Qa.
  - rewrite nth_error_app2 in H by exact Hge.
    destruct (S j - length a) as [|i] eqn:Ei.
    + exfalso. apply Hb. destruct b; [discriminate H|exact H].
    + rewrite nth_error_app2 by lia.
      replace (j - length a) with i by lia. now apply Qb.
Qed.

Lemma cInside_concat (pieces : list jsstring) :
  Forall cInside pieces -> cInside (concat pieces).
Proof.
  induction 1 as [|pc pcs H _ IH]; cbn [concat];
    [apply cInside_nil | now apply cInside_app].
Qed.

Lemma cInside_without (s : jsstring) : ~ In 99%N s -> cInside s.
Proof.
  intros H. split.
  - intros j Hj. exfalso. apply H. now apply nth_error_In in Hj.
  - destruct s as [|x s]; [discriminate|]. intros [= ->]. apply H. now left.
Qed.

Lemma cInside_letters (s : jsstring) :
  Forall (fun ch => In ch (upperAZ ++ lowerAZ)) s -> hd_error s <> Some 99%N ->
  cInside s.
Proof.
  intros H Hhd. split; [|exact Hhd]. intros j Hj.
  destruct (nth_error s j) as [ch|] eqn:E.
  - exists ch. split; [reflexivity|]. rewrite Forall_forall in H. apply H.
    now apply nth_error_In in E.
  - apply nth_error_None in E.
    assert (S j < length s) by (apply nth_error_Some; congruence). lia.
Qed.

Lemma charSetMatches_In (A : list N) (ch : N) :
  charSetMatches false A ch = true -> In ch A.
Proof.
  unfold charSetMatches, canonicalize. intros H. apply existsb_exists in H.
  destruct H as [a [Ha E]]. apply N.eqb_eq in E. now subst.
Qed.

Lemma Lang_run_In (A : list N) (min : nat) (max : option nat) (s : jsstring) :
  Lang false (Quant min max (CharSet A)) s -> Forall (fun ch => In ch A) s.
Proof.
  intros [pieces [-> H]]. induction H as [|pc pcs [ch [-> Hm]] _ IH]; cbn [concat].
  - constructor.
  - constructor; [now apply charSetMatches_In | exact IH].
Qed.

Lemma cInside_capitalized (s : jsstring) : Lang false capitalized s -> cInside s.
Proof.
  intros [s1 [s2 [-> [[ch [-> Hm]] H2]]]]. apply charSetMatches_In in Hm.
  apply Lang_run_In in H2. apply cInside_letters.
  - constructor; [apply in_or_app; now left|].
    eapply Forall_impl; [|exact H2]. intros a Ha. apply in_or_app. now right.
  - cbn. intros [= ->]. revert Hm. not_listed.
Qed.

Lemma cInside_spaces (min : nat) (max : option nat) (s : jsstring) :
  Lang false (Quant min max (CharSet whiteSpace)) s -> cInside s.
Proof.
  intros H. apply Lang_run_In in H. apply cInside_without. intros Hc.
  rewrite Forall_forall in H. apply H in Hc. revert Hc. not_listed.
Qed.

Lemma Lang_exact (w : string) (s : jsstring) : Lang false (lit w) s -> s = js w.
Proof.
  intros H. apply Lang_lit in H. unfold canonicalize in H.
  now rewrite !map_id in H.
Qed.

(** A match of the first person pattern: a "c" in it, the first character
    apart, comes after a letter. *)
Lemma person_cFollowsLetter (s : jsstring) :
  Lang false (source (hd (newRegExp Empty false) personPatterns)) s ->
  cFollowsLetter s.
Proof.
  cbn [personPatterns hd source newRegExp seqs alts Lang].
  intros [s1 [s2 [-> [Hcue [s3 [s4 [-> [Hws [s5 [s6 [-> [Hcap Hopt]]]]]]]]]]]].
  apply cFollowsLetter_app.
  - assert (Bare : forall t, ~ In 99%N (tl t) -> cFollowsLetter t).
    { intros t Ht j Hj. exfalso. apply Ht. destruct t as [|x t]; [discriminate Hj|].
      cbn [tl]. cbn [nth_error] in Hj. now apply nth_error_In in Hj. }
    destruct Hcue as [H|[H|[H|[H|[H|[H|[H|H]]]]]]];
      try (apply Lang_exact in H; subst s1; apply Bare; not_listed).
    + destruct H as [a [b [-> [Ha [c [d [-> [Hed Hto]]]]]]]].
      apply Lang_exact in Ha, Hto. subst a d.
      apply cFollowsLetter_app.
      * apply Bare. not_listed.
      * apply cInside_app.
        -- destruct Hed as [pieces [-> HF]]. apply cInside_concat.
           eapply Forall_impl; [|exact HF]. intros pc Hpc.
           apply Lang_exact in Hpc. subst pc. apply cInside_without. not_listed.
        -- apply cInside_without. not_listed.
    + apply Lang_exact in H. subst s1. intros j Hj.
      do 7 (destruct j as [|j];
            [first [discriminate Hj | eexists; split; [reflexivity|listed]]|]).
      destruct j; discriminate Hj.
  - apply cInside_app; [now apply (cInside_spaces 1 None)|].
    apply cInside_app; [now apply cInside_capitalized|].
    destruct Hopt as [pieces [-> HF]]. apply cInside_concat.
    eapply Forall_impl; [|exact HF]. intros pc [w [n [-> [Hw Hn]]]].
    apply cInside_app; [now apply (cInside_spaces 1 None)|].
    now apply cInside_capitalized.
Qed.

(** *** "contact John Smith" *)

Section ContactJohnSmith.

Variables pre post : jsstring.
Hypothesis pre_boundary :
  forall pre' c, pre = pre' ++ [c] -> ~ In c (upperAZ ++ lowerAZ).
Hypothesis post_ends : forall c post', post = c :: post' -> ~ In c lowerAZ.

Let text := pre ++ js "contact John Smith" ++ post.
Let q := length pre.

Lemma contact_at (k : nat) :
  nth_error text (q + k) = nth_error (js "contact John Smith" ++ post) k.
Proof.
  unfold text, q. rewrite nth_error_app2 by lia.
  now replace (length pre + k - length pre) with k by lia.
Qed.

Lemma contact_length : length text = q + (18 + length post).
Proof. unfold text, q. rewrite !length_app. reflexivity. Qed.

Lemma contact_matches :
  matcher false text (source (hd (newRegExp Empty false) personPatterns))
    {| endIndex := q; captures := [] |} Some
  = Some {| endIndex := q + 18; captures := [(1, (q + 8, q + 18))] |}.
Proof.
  pose proof contact_length as Hlen.
  cbn [personPatterns hd source newRegExp seqs alts matcher].
  (* the cue *)
  do 3 (rewrite matcher_lit_fail
          by (cbn [endIndex]; rewrite <- (Nat.add_0_r q), contact_at; reflexivity)).
  rewrite (matcher_lit_run text "contact")
    by (cbn [endIndex]; intros k ch Hk; rewrite contact_at;
        do 7 (destruct k as [|k]; [exact Hk|]); destruct k; discriminate Hk).
  cbn [endIndex captures].
  match goal with
  | |- match ?e with _ => _ end = Some ?z =>
      assert (E : e = Some z); [|rewrite E; reflexivity]
  end.
  (* the space *)
  apply (matcher_plus_run text whiteSpace 1); cbn [endIndex captures].
  - intros k Hk. exists 32%N. rewrite <- Nat.add_assoc, contact_at.
    destruct k; [split; reflexivity|lia].
  - rewrite <- Nat.add_assoc, contact_at. reflexivity.
  - lia.
  - rewrite Hlen. cbn. lia.
  - (* John *)
    unfold capitalized at 1. rewrite matcher_Seq.
    rewrite (matcher_CharSet_step _ _ _ _ _ 74%N);
      [|cbn [endIndex]; rewrite <- Nat.add_assoc, contact_at; reflexivity
       |reflexivity].
    cbn [endIndex captures].
    apply (matcher_plus_run text lowerAZ 3); cbn [endIndex captures].
    + intros k Hk.
      replace (S (q + length (js "contact") + 1) + k) with (q + (9 + k)) by (cbn; lia).
      rewrite contact_at.
      do 3 (destruct k as [|k]; [eexists; split; reflexivity|]). lia.
    + replace (S (q + length (js "contact") + 1) + 3) with (q + 12) by (cbn; lia).
      rewrite contact_at. reflexivity.
    + lia.
    + rewrite Hlen. cbn. lia.
    + (* Smith *)
      unfold opt. cbn [matcher groups iterationBound app repeatMatcher Nat.eqb].
      cbn [endIndex captures]. rewrite clearCaptures_nil.
      match goal with
      | |- match ?e with _ => _ end = Some ?z =>
          assert (E : e = Some z); [|rewrite E; reflexivity]
      end.
      apply (matcher_plus_run text whiteSpace 1); cbn [endIndex captures].
      * intros k Hk. exists 32%N.
        replace (S (q + length (js "contact") + 1) + 3 + k) with (q + (12 + k))
          by (cbn; lia).
        rewrite contact_at. destruct k; [split; reflexivity|lia].
      * replace (S (q + length (js "contact") + 1) + 3 + 1) with (q + 13)
          by (cbn; lia).
        rewrite contact_at. reflexivity.
      * lia.
      * rewrite Hlen. cbn. lia.
      * unfold capitalized. rewrite matcher_Seq.
        rewrite (matcher_CharSet_step _ _ _ _ _ 83%N);
          [|cbn [endIndex];
            replace (S (q + length (js "contact") + 1) + 3 + 1) with (q + 13)
              by (cbn; lia);
            rewrite contact_at; reflexivity
           |reflexivity].
        cbn [endIndex captures].
        apply (matcher_plus_run text lowerAZ 4); cbn [endIndex captures].
        -- intros k Hk.
           replace (S (S (q + length (js "contact") + 1) + 3 + 1) + k)
             with (q + (14 + k)) by (cbn; lia).
           rewrite contact_at.
           do 4 (destruct k as [|k]; [eexists; split; reflexivity|]). lia.
        -- replace (S (S (q + length (js "contact") + 1) + 3 + 1) + 4)
             with (q + 18) by (cbn; lia).
           rewrite contact_at.
           change (nth_error (js "contact John Smith" ++ post) 18)
             with (nth_error post 0).
           destruct post as [|c post'] eqn:Epost; [exact I|]. cbn [nth_error].
           apply not_true_is_false. intros H. apply (post_ends c post' eq_refl).
           unfold charSetMatches, canonicalize in H. apply existsb_exists in H.
           destruct H as [a [Ha E']]. apply N.eqb_eq in E'. now subst.
        -- lia.
        -- rewrite Hlen. cbn. lia.
        -- cbn [endIndex captures length js list_ascii_of_string map].
           repeat match goal with
                  | |- context [?a =? ?b] =>
                      replace (a =? b) with false
                        by (symmetry; apply Nat.eqb_neq; lia)
                  end.
           cbn [andb].
           replace (S (S (q + 7 + 1) + 3 + 1) + 4) with (q + 18) by lia.
           replace (q + 7 + 1) with (q + 8) by lia. reflexivity.
Qed.

(** A match that starts before the occurrence ends before it: it would
    hold the "c" of "contact" after a character that is not a letter. *)
Lemma contact_free (p : nat) (y : MatchState) :
  p < q ->
  matcher false text (source (hd (newRegExp Empty false) personPatterns))
    {| endIndex := p; captures := [] |} Some = Some y ->
  endIndex y <= q.
Proof.
  intros Hp H.
  destruct (le_lt_dec (endIndex y) q) as [Hle|Hgt]; [exact Hle|exfalso].
  assert (Hlen : p <= length text).
  { rewrite contact_length. lia. }
  apply matcher_at in H; [|exact Hlen]. destruct H as [Hy HL].
  apply person_cFollowsLetter in HL.
  destruct (HL (q - S p)) as [ch [Hch Hletter]].
  - rewrite nth_error_slice by lia. replace (p + S (q - S p)) with (q + 0) by lia.
    now rewrite contact_at.
  - rewrite nth_error_slice in Hch by lia.
    replace (p + (q - S p)) with (q - 1) in Hch by lia.
    unfold text, q in *. destruct pre as [|a l] eqn:Epre using rev_ind.
    + simpl in Hp. lia.
    + rewrite length_app, <- app_assoc in Hch. cbn [length] in Hch.
      rewrite nth_error_app2 in Hch by lia.
      replace (length l + 1 - 1 - length l) with 0 in Hch by lia.
      injection Hch as <-. exact (pre_boundary l a eq_refl Hletter).
Qed.

End ContactJohnSmith.

(** X24. A text that contains "contact John Smith" has "John Smith"
    among its people, when what stands before it is nothing or ends with a
    character that is not an ASCII letter, and what follows it is nothing
    or begins with a character that is not a lowercase ASCII letter. *)
Theorem extractPeople_contact (pre post : jsstring) :
  (forall pre' c, pre = pre' ++ [c] -> ~ In c (upperAZ ++ lowerAZ)) ->
  (forall c post', post = c :: post' -> ~ In c lowerAZ) ->
  exists ps,
    extractPeople (pre ++ js "contact John Smith" ++ post) = Some ps /\
    In (js "John Smith") ps.
Proof.
  intros Hpre Hpost.
  set (text := pre ++ js "contact John Smith" ++ post).
  destruct (extractPeople_total text) as [ps E]. exists ps. split; [exact E|].
  unfold extractPeople, execEach, personPatterns in E.
  cbn [fold_left] in E.
  match type of E with
  | execOne _ ?first _ = _ => destruct first as [set1|] eqn:E1
  end; cbn [execOne] in E; [|discriminate].
  apply (execLoop_incl _ _ _ set1 ps (js "John Smith")) in E; [exact E|].
  cbn [execOne] in E1.
  change (js "John Smith") with (trim (74%N :: js "ohn Smith")).
  eapply (execLoop_finds _ _ text [] set1 (length pre) _ 74%N (js "ohn Smith"));
    [| | | | | |exact E1].
  - cbn. lia.
  - cbn [ignoreCase source newRegExp].
    exact (contact_matches pre post Hpost).
  - cbn [ignoreCase source newRegExp]. intros p y.
    exact (contact_free pre post Hpre p y).
  - unfold capture. cbn [snd captures find fst Nat.eqb]. f_equal.
    change (74%N :: js "ohn Smith") with (js "John Smith"). subst text.
    replace (length pre + 18)
      with (length (js "John Smith") + length (pre ++ js "contact "))
      by (rewrite length_app; cbn; lia).
    replace (length pre + 8) with (length (pre ++ js "contact "))
      by (rewrite length_app; cbn; lia).
    replace (pre ++ js "contact John Smith" ++ post)
      with ((pre ++ js "contact ") ++ js "John Smith" ++ post)
      by (now rewrite <- app_assoc).
    apply slice_middle.
  - cbn. lia.
  - subst text. rewrite length_app. lia.
Qed.


(** ** The self-test *)

(** X6. [runClassificationTests] reports its five tests passed and none
    failed, with one check-marked line for each. *)
Theorem runClassificationTests_pass (M : ModuleState) :
  exists M',
    runClassificationTests M
    = Some ({| passed := 5;
               failed := 0;
               results := map (fun name => checkMark ++ js " " ++ js name)
                              ["Scheduling category detection";
                               "Finance category detection";
                               "High priority detection";
                               "Technical category detection";
                               "Safety category detection"] |}, M').
Proof.
  assert (Hcat : forall text, forallb isAscii text = true ->
                   classifyCategory text
                   = snd (fold_left
                            (fun (st : nat * TaskCategory)
                                 (entry : TaskCategory * list jsstring) =>
                               if TaskCategory_eqb (fst entry) general then st
                               else if fst st <? scoreKeywords (map asciiLower text)
                                                               (snd entry)
                                    then (scoreKeywords (map asciiLower text)
                                                        (snd entry), fst entry)
                                    else st)
                            categoryKeywords (0, general))).
  { intros text Ht. unfold classifyCategory. cbv zeta.
    rewrite (toLowerCase_ascii text Ht).
    generalize (0, general). induction categoryKeywords as [|[c ks] l IH];
      intros [n b]; [reflexivity|]. cbn [fold_left fst snd]. apply IH. }
  assert (Hpri : forall text, forallb isAscii text = true ->
                   classifyPriority text
                   = if anyIncluded (map asciiLower text) (priorityKeywords high)
                     then high
                     else if anyIncluded (map asciiLower text)
                                         (priorityKeywords medium)
                          then medium else low).
  { intros text Ht. unfold classifyPriority, classifyPriorityOver. cbv zeta.
    now rewrite (toLowerCase_ascii text Ht). }
  unfold runClassificationTests, classificationTests. cbn [fold_left].
  do 5 (cbn [runOneTest inputTitle inputDescription expectedCategory
               expectedPriority testName];
        match goal with
        | |- context [classifyTask ?M0 ?t ?d] =>
            destruct (classifyTask_unfold M0 t d) as [? [? [_ [_ ->]]]]
        end;
        cbn [category priority];
        rewrite ?Hcat, ?Hpri by reflexivity;
        match goal with
        | |- context [TaskCategory_eqb ?a ?b] =>
            let v := eval vm_compute in (TaskCategory_eqb a b) in
            change (TaskCategory_eqb a b) with v
        | |- context [TaskPriority_eqb ?a ?b] =>
            let v := eval vm_compute in (TaskPriority_eqb a b) in
            change (TaskPriority_eqb a b) with v
        end;
        cbn [negb andb passed failed results]).
  eexists. reflexivity.
Qed.

(** ** The task store: lemmas *)

Section StableSort.

Variable A : Type.
Variable key : A -> N.

Let byKey (a b : A) : bool := N.leb (key b) (key a).

Lemma insertInOrder_perm (x : A) (l : list A) :
  Permutation (insertInOrder byKey x l) (x :: l).
Proof.
  induction l as [|y l IH]; cbn [insertInOrder]; [reflexivity|].
  destruct (byKey x y); [reflexivity|].
  rewrite IH. apply perm_swap.
Qed.

Lemma stableSort_perm (l : list A) : Permutation (stableSort byKey l) l.
Proof.
  induction l as [|x l IH]; cbn [stableSort fold_right]; [reflexivity|].
  fold (stableSort byKey l). rewrite insertInOrder_perm. now constructor.
Qed.

Lemma insertInOrder_sorted (x : A) (l : list A) :
  StronglySorted (fun a b => (key b <= key a)%N) l ->
  StronglySorted (fun a b => (key b <= key a)%N) (insertInOrder byKey x l).
Proof.
  induction 1 as [|y l Hs IH Hy]; cbn [insertInOrder].
  - repeat constructor.
  - unfold byKey at 1. destruct (N.leb_spec (key y) (key x)) as [Hle|Hlt].
    + constructor; [now constructor|]. constructor; [exact Hle|].
      rewrite Forall_forall in *. intros z Hz. specialize (Hy z Hz). lia.
    + constructor; [exact IH|].
      rewrite Forall_forall in *. intros z Hz.
      apply (Permutation_in _ (insertInOrder_perm x l)) in Hz.
      destruct Hz as [<-|Hz]; [lia|now apply Hy].
Qed.

Lemma stableSort_sorted (l : list A) :
  StronglySorted (fun a b => (key b <= key a)%N) (stableSort byKey l).
Proof.
  induction l as [|x l IH]; cbn [stableSort fold_right]; [constructor|].
  now apply insertInOrder_sorted.
Qed.

(** Elements of the same key keep the order they had. *)
Lemma insertInOrder_stable (k : N) (x : A) (l : list A) :
  filter (fun a => N.eqb (key a) k) (insertInOrder byKey x l)
  = filter (fun a => N.eqb (key a) k) (x :: l).
Proof.
  induction l as [|y l IH]; cbn [insertInOrder]; [reflexivity|].
  unfold byKey at 1. destruct (N.leb_spec (key y) (key x)) as [Hle|Hlt];
    [reflexivity|].
  cbn [filter] in *. rewrite IH.
  destruct (N.eqb_spec (key x) k), (N.eqb_spec (key y) k); try reflexivity. lia.
Qed.

Lemma stableSort_stable (k : N) (l : list A) :
  filter (fun a => N.eqb (key a) k) (stableSort byKey l)
  = filter (fun a => N.eqb (key a) k) l.
Proof.
  induction l as [|x l IH]; cbn [stableSort fold_right]; [reflexivity|].
  fold (stableSort byKey l). rewrite insertInOrder_stable.
  cbn [filter]. now rewrite IH.
Qed.

End StableSort.






(** *** [findIndex], index assignment and [splice] *)

Lemma findIndex_Some (A : Type) (p : A -> bool) (l : list A) (i : nat) :
  findIndex p l = Some i ->
  exists l1 x l2, l = l1 ++ x :: l2 /\ length l1 = i /\ p x = true /\
                  forall y, In y l1 -> p y = false.
Proof.
  revert i; induction l as [|a l IH]; intros i H; cbn [findIndex] in H;
    [discriminate|].
  destruct (p a) eqn:Ea.
  - injection H as <-. exists [], a, l. repeat split; auto. intros y [].
  - destruct (findIndex p l) as [j|]; [|discriminate]. injection H as <-.
    destruct (IH j eq_refl) as [l1 [x [l2 [-> [Hlen [Hx Hl1]]]]]].
    exists (a :: l1), x, l2. repeat split; cbn; auto.
    intros y [<-|Hy]; auto.
Qed.

Lemma findIndex_None (A : Type) (p : A -> bool) (l : list A) :
  findIndex p l = None <-> forall y, In y l -> p y = false.
Proof.
  induction l as [|a l IH]; cbn [findIndex].
  - split; [intros _ y []|reflexivity].
  - destruct (p a) eqn:Ea.
    + split; [discriminate|]. intros H. specialize (H a (or_introl eq_refl)).
      congruence.
    + destruct (findIndex p l) as [j|]; cbn [option_map].
      * split; [discriminate|]. intros H.
        assert (Hn : Some j = None)
          by (apply IH; intros y Hy; apply H; now right).
        discriminate Hn.
      * split; [|reflexivity]. intros _ y [<-|Hy]; [exact Ea|].
        now apply (proj1 IH).
Qed.

Lemma nth_error_middle (A : Type) (l1 l2 : list A) (x : A) :
  nth_error (l1 ++ x :: l2) (length l1) = Some x.
Proof. rewrite nth_error_app2, Nat.sub_diag by lia. reflexivity. Qed.

Lemma setAt_middle (A : Type) (l1 l2 : list A) (x x' : A) :
  setAt (length l1) x' (l1 ++ x :: l2) = l1 ++ x' :: l2.
Proof. induction l1 as [|a l1 IH]; cbn; [reflexivity|]. now rewrite IH. Qed.

Lemma removeAt_middle (A : Type) (l1 l2 : list A) (x : A) :
  removeAt (length l1) (l1 ++ x :: l2) = l1 ++ l2.
Proof.
  unfold removeAt. rewrite firstn_app, firstn_all, Nat.sub_diag. cbn [firstn].
  rewrite app_nil_r. replace (S (length l1)) with (length (l1 ++ [x]))
    by (rewrite length_app; cbn; lia).
  replace (l1 ++ x :: l2) with ((l1 ++ [x]) ++ l2) by (now rewrite <- app_assoc).
  rewrite skipn_app, skipn_all, Nat.sub_diag. reflexivity.
Qed.

Lemma find_middle (A : Type) (p : A -> bool) (l1 l2 : list A) (x : A) :
  (forall y, In y l1 -> p y = false) -> p x = true ->
  find p (l1 ++ x :: l2) = Some x.
Proof.
  intros H1 Hx. induction l1 as [|a l1 IH]; cbn [app find].
  - now rewrite Hx.
  - rewrite (H1 a (or_introl eq_refl)). apply IH. intros y Hy. apply H1. now right.
Qed.

Lemma find_none_iff (A : Type) (p : A -> bool) (l : list A) :
  find p l = None <-> forall y, In y l -> p y = false.
Proof.
  split; [apply find_none|]. induction l as [|a l IH]; intros H; [reflexivity|].
  cbn [find]. rewrite (H a (or_introl eq_refl)). apply IH.
  intros y Hy. apply H. now right.
Qed.

Lemma jsstring_eqb_refl (s : jsstring) : jsstring_eqb s s = true.
Proof. now apply jsstring_eqb_eq. Qed.

Lemma jsstring_eqb_neq (a b : jsstring) : jsstring_eqb a b = false <-> a <> b.
Proof.
  split.
  - intros H E. apply jsstring_eqb_eq in E. congruence.
  - intros H. destruct (jsstring_eqb a b) eqn:E; [|reflexivity].
    apply jsstring_eqb_eq in E. contradiction.
Qed.

(** The task that [updateTask] and [deleteTask] address: the first one of
    the store with the id. *)
Lemma findIndex_task (W : Store) (id : jsstring) :
  (findIndex (fun t => jsstring_eqb (taskId t) id) (tasks W) = None /\
   forall t, In t (tasks W) -> taskId t <> id) \/
  (exists l1 t l2,
      tasks W = l1 ++ t :: l2 /\ taskId t = id /\
      (forall u, In u l1 -> taskId u <> id) /\
      findIndex (fun t => jsstring_eqb (taskId t) id) (tasks W) = Some (length l1)).
Proof.
  destruct (findIndex (fun t => jsstring_eqb (taskId t) id) (tasks W)) as [i|] eqn:E.
  - right. destruct (findIndex_Some _ _ _ _ E) as [l1 [t [l2 [El [Hlen [Ht Hl1]]]]]].
    exists l1, t, l2. split; [exact El|]. split; [now apply jsstring_eqb_eq|].
    split; [|now rewrite Hlen].
    intros u Hu. apply jsstring_eqb_neq. now apply Hl1.
  - left. split; [reflexivity|]. intros t Ht. apply jsstring_eqb_neq.
    now apply (proj1 (findIndex_None _ _ _) E).
Qed.

(** [createTask] returns: the task it builds and the store it leaves. *)
Lemma createTask_unfold (W : Store) (data : NewTask) :
  let text := newTitle data ++ js " " ++ newDescription data in
  exists entities M',
    let task :=
      {| taskId := randomUUID (uuidCalls W);
         title := newTitle data;
         description := newDescription data;
         taskCategory :=
           orElse (newCategory data) (categoryName (classifyCategory text));
         taskPriority :=
           orElse (newPriority data) (priorityName (classifyPriority text));
         status := pending;
         assigned_to := newAssignedTo data;
         due_date := newDueDate data;
         taskEntities := Some entities;
         taskActions := Some (suggestedActions (classifyCategory text));
         created_at := clock (clockReads W);
         updated_at := clock (S (clockReads W)) |} in
    createTask W data
    = Some (task,
            {| tasks := tasks W ++ [task];
               taskHistory :=
                 taskHistory W
                 ++ [{| historyId := randomUUID (S (uuidCalls W));
                        task_id := randomUUID (uuidCalls W);
                        action := action_created;
                        old_value := None;
                        new_value := task;
                        changed_at := clock (S (S (clockReads W))) |}];
               uuidCalls := S (S (uuidCalls W));
               clockReads := S (S (S (clockReads W)));
               classifier := M' |}).
Proof.
  intros text. unfold createTask.
  destruct (classifyTask_unfold (classifier W) (newTitle data) (newDescription data))
    as [ps [ls [_ [_ ->]]]].
  fold text. cbn [category priority extracted_entities suggested_actions taskId].
  eexists. eexists. reflexivity.
Qed.

(** ** The task store: what its functions do *)

(** X9. [createTask] returns a pending task, stored last.  A category or
    priority passed by the caller is kept when it is a non-empty string,
    and the classifier's answer is used otherwise; the suggested actions
    are those of the category the classifier finds, whether the caller has
    passed a category or not. *)
Theorem createTask_override (W : Store) (data : NewTask) :
  let text := newTitle data ++ js " " ++ newDescription data in
  exists task W',
    createTask W data = Some (task, W') /\
    tasks W' = tasks W ++ [task] /\
    status task = pending /\
    (forall c s, newCategory data = Some (c :: s) -> taskCategory task = c :: s) /\
    (newCategory data = None \/ newCategory data = Some [] ->
     taskCategory task = categoryName (classifyCategory text)) /\
    (forall c s, newPriority data = Some (c :: s) -> taskPriority task = c :: s) /\
    (newPriority data = None \/ newPriority data = Some [] ->
     taskPriority task = priorityName (classifyPriority text)) /\
    taskActions task = Some (suggestedActions (classifyCategory text)).
Proof.
  intros text. destruct (createTask_unfold W data) as [entities [M' E]].
  cbv zeta in E. fold text in E. do 2 eexists. split; [exact E|].
  cbn [tasks status taskCategory taskPriority taskActions].
  split; [reflexivity|]. split; [reflexivity|].
  split; [now intros c s ->|]. split; [now intros [->| ->]|].
  split; [now intros c s ->|]. split; [now intros [->| ->]|]. reflexivity.
Qed.

(** X10. When no stored task has the id that [crypto.randomUUID()] returns,
    [getTaskById] with the id of the task [createTask] has returned gives
    that task back, and a history that holds its entry ['created']. *)
Theorem createTask_then_get (W : Store) (data : NewTask) :
  (forall t, In t (tasks W) -> taskId t <> randomUUID (uuidCalls W)) ->
  exists task W',
    createTask W data = Some (task, W') /\
    fst (getTaskById W' (taskId task)) = Some task /\
    exists h, In h (snd (getTaskById W' (taskId task))) /\
              action h = action_created /\ old_value h = None /\
              new_value h = task.
Proof.
  intros Hfresh. destruct (createTask_unfold W data) as [entities [M' E]].
  cbv zeta in E. do 2 eexists. split; [exact E|].
  unfold getTaskById. cbn [fst snd tasks taskHistory taskId]. split.
  - apply find_middle.
    + intros y Hy. apply jsstring_eqb_neq. now apply Hfresh.
    + cbn [taskId]. apply jsstring_eqb_refl.
  - eexists. split.
    + apply (Permutation_in _ (Permutation_sym (stableSort_perm _ changed_at _))).
      apply filter_In. split; [apply in_or_app; right; left; reflexivity|].
      cbn [task_id]. apply jsstring_eqb_refl.
    + cbn [action old_value new_value]. repeat split.
Qed.

Lemma deleteTask_missing (W : Store) (id : jsstring) :
  (forall t, In t (tasks W) -> taskId t <> id) -> deleteTask W id = (false, W).
Proof.
  intros Hno. unfold deleteTask.
  replace (findIndex (fun t => jsstring_eqb (taskId t) id) (tasks W)) with (@None nat);
    [reflexivity|].
  symmetry. apply findIndex_None. intros y Hy. apply jsstring_eqb_neq. now apply Hno.
Qed.

Lemma deleteTask_found (W : Store) (id : jsstring) (l1 : list Task) (t : Task)
    (l2 : list Task) :
  tasks W = l1 ++ t :: l2 -> taskId t = id ->
  (forall u, In u l1 -> taskId u <> id) ->
  fst (deleteTask W id) = true /\
  tasks (snd (deleteTask W id)) = l1 ++ l2 /\
  taskHistory (snd (deleteTask W id)) = taskHistory W.
Proof.
  intros El Ht Hl1. unfold deleteTask.
  destruct (findIndex_task W id) as [[_ Hno]|[l1' [t' [l2' [El' [Ht' [Hl1' ->]]]]]]].
  - exfalso. apply (Hno t); [rewrite El; apply in_elt | exact Ht].
  - cbn [fst snd tasks taskHistory]. split; [reflexivity|]. split; [|reflexivity].
    rewrite El' at 1. rewrite removeAt_middle.
    assert (Hsame : l1' = l1 /\ l2' = l2).
    { clear - El El' Ht Ht' Hl1 Hl1'. rewrite El in El'. clear El.
      revert l1' El' Hl1'. induction l1 as [|a l1 IH]; intros [|a' l1'] E H'.
      - now injection E as _ ->.
      - injection E as -> _. exfalso. apply (H' a'); [now left|exact Ht].
      - injection E as -> _. exfalso. apply (Hl1 t'); [now left|exact Ht'].
      - injection E as -> E.
        destruct (IH (fun u Hu => Hl1 u (or_intror Hu)) l1' E
                     (fun u Hu => H' u (or_intror Hu))) as [-> ->].
        now split. }
    destruct Hsame as [-> ->]. reflexivity.
Qed.

(** X11. [deleteTask] answers [false] and changes nothing when no stored
    task has the id; otherwise it answers [true] and takes the first task
    with the id out of the store, leaving the others in their order and the
    history as it is. *)
Theorem deleteTask_removes_first (W : Store) (id : jsstring) :
  ((forall t, In t (tasks W) -> taskId t <> id) -> deleteTask W id = (false, W)) /\
  (forall l1 t l2,
      tasks W = l1 ++ t :: l2 -> taskId t = id ->
      (forall u, In u l1 -> taskId u <> id) ->
      fst (deleteTask W id) = true /\
      tasks (snd (deleteTask W id)) = l1 ++ l2 /\
      taskHistory (snd (deleteTask W id)) = taskHistory W).
Proof.
  split; [apply deleteTask_missing | apply deleteTask_found].
Qed.

(** X12. When the stored tasks have distinct ids, [getTaskById] finds no
    task under an id that [deleteTask] has been given, and still returns
    the history that id had. *)
Theorem deleteTask_then_get (W : Store) (id : jsstring) :
  NoDup (map taskId (tasks W)) ->
  getTaskById (snd (deleteTask W id)) id = (None, snd (getTaskById W id)).
Proof.
  intros Hnd. unfold getTaskById at 1 2. f_equal.
  - apply find_none_iff. intros y Hy. apply jsstring_eqb_neq.
    destruct (findIndex_task W id) as [[E Hno]|[l1 [t [l2 [El [Ht [Hl1 E]]]]]]].
    + unfold deleteTask in Hy. rewrite E in Hy. now apply Hno.
    + destruct (deleteTask_found W id l1 t l2 El Ht Hl1)
        as [_ [Etasks _]].
      rewrite Etasks in Hy. rewrite El, map_app in Hnd. cbn [map] in Hnd.
      apply NoDup_remove_2 in Hnd. intros Hid. apply Hnd.
      rewrite <- map_app, Ht, <- Hid. now apply in_map.
  - f_equal. f_equal. unfold deleteTask.
    destruct (findIndex _ (tasks W)); reflexivity.
Qed.

Lemma first_match_unique (A : Type) (P : A -> Prop) (l1 l2 l1' l2' : list A)
    (t t' : A) :
  l1 ++ t :: l2 = l1' ++ t' :: l2' ->
  P t -> P t' -> (forall u, In u l1 -> ~ P u) -> (forall u, In u l1' -> ~ P u) ->
  l1 = l1' /\ t = t' /\ l2 = l2'.
Proof.
  intros E Ht Ht'. revert l1' E. induction l1 as [|a l1 IH]; intros [|a' l1'] E H H'.
  - injection E as -> ->. repeat split.
  - injection E as -> _. exfalso. apply (H' a'); [now left|exact Ht].
  - injection E as -> _. exfalso. apply (H t'); [now left|exact Ht'].
  - injection E as -> E.
    destruct (IH l1' E (fun u Hu => H u (or_intror Hu))
                 (fun u Hu => H' u (or_intror Hu))) as [-> [-> ->]].
    repeat split.
Qed.

(** [updateTask] on the first task with the id. *)
Lemma updateTask_unfold (W : Store) (id : jsstring) (updates : TaskUpdates)
    (l1 l2 : list Task) (t : Task) :
  tasks W = l1 ++ t :: l2 -> taskId t = id ->
  (forall u, In u l1 -> taskId u <> id) ->
  updateTask W id updates
  = (Some (applyUpdates t updates (clock (clockReads W))),
     {| tasks := l1 ++ applyUpdates t updates (clock (clockReads W)) :: l2;
        taskHistory :=
          taskHistory W
          ++ [{| historyId := randomUUID (uuidCalls W);
                 task_id := id;
                 action :=
                   match updStatus updates with
                   | Some s =>
                       if negb (TaskStatus_eqb s (status t))
                       then match s with
                            | completed => action_completed
                            | _ => action_status_changed
                            end
                       else action_updated
                   | None => action_updated
                   end;
                 old_value := Some t;
                 new_value := applyUpdates t updates (clock (clockReads W));
                 changed_at := clock (S (clockReads W)) |}];
        uuidCalls := S (uuidCalls W);
        clockReads := S (S (clockReads W));
        classifier := classifier W |}).
Proof.
  intros El Ht Hl1. unfold updateTask.
  destruct (findIndex_task W id) as [[_ Hno]|[l1' [t' [l2' [El' [Ht' [Hl1' ->]]]]]]].
  - exfalso. apply (Hno t); [rewrite El; apply in_elt | exact Ht].
  - rewrite El in El'.
    destruct (first_match_unique _ (fun u => taskId u = id) _ _ _ _ _ _ El' Ht Ht'
                Hl1 Hl1') as [<- [<- <-]].
    rewrite El, nth_error_middle, setAt_middle. reflexivity.
Qed.

Lemma updateTask_missing (W : Store) (id : jsstring) (updates : TaskUpdates) :
  (forall t, In t (tasks W) -> taskId t <> id) ->
  updateTask W id updates = (None, W).
Proof.
  intros Hno. unfold updateTask.
  replace (findIndex (fun t => jsstring_eqb (taskId t) id) (tasks W)) with (@None nat);
    [reflexivity|].
  symmetry. apply findIndex_None. intros y Hy. apply jsstring_eqb_neq. now apply Hno.
Qed.


(** X14. After [updateTask] has found a task, [getTaskById] with the same
    id returns the task as updated, and a history that holds the entry of
    the update with the task before and after. *)
Theorem updateTask_then_get (W : Store) (id : jsstring) (updates : TaskUpdates) :
  (exists t, In t (tasks W) /\ taskId t = id) ->
  exists old newTask W',
    updateTask W id updates = (Some newTask, W') /\
    find (fun t => jsstring_eqb (taskId t) id) (tasks W) = Some old /\
    fst (getTaskById W' id) = Some newTask /\
    exists h, In h (snd (getTaskById W' id)) /\
              old_value h = Some old /\ new_value h = newTask.
Proof.
  intros [t0 [Hin Hid]].
  destruct (findIndex_task W id) as [[_ Hno]|[l1 [t [l2 [El [Ht [Hl1 _]]]]]]].
  - exfalso. now apply (Hno t0).
  - assert (Hnot : forall y, In y l1 -> jsstring_eqb (taskId y) id = false).
    { intros y Hy. apply jsstring_eqb_neq. now apply Hl1. }
    do 3 eexists. split; [exact (updateTask_unfold W id updates l1 l2 t El Ht Hl1)|].
    split; [|split].
    + rewrite El. apply find_middle; [exact Hnot|]. now apply jsstring_eqb_eq.
    + unfold getTaskById. cbn [fst tasks]. apply find_middle; [exact Hnot|].
      cbn [applyUpdates taskId]. now apply jsstring_eqb_eq.
    + eexists. split.
      * unfold getTaskById. cbn [snd taskHistory].
        apply (Permutation_in _ (Permutation_sym (stableSort_perm _ changed_at _))).
        apply filter_In. split; [apply in_or_app; right; left; reflexivity|].
        cbn [task_id]. apply jsstring_eqb_refl.
      * cbn [old_value new_value]. split; reflexivity.
Qed.

(** ** The task store: what it keeps *)

Lemma createTask_distinctIds (W W' : Store) (data : NewTask) (task : Task) :
  (forall i j, randomUUID i = randomUUID j -> i = j) ->
  distinctIds W -> createTask W data = Some (task, W') -> distinctIds W'.
Proof.
  intros Hinj [Hnd Hids] H.
  destruct (createTask_unfold W data) as [entities [M' E]]. cbv zeta in E.
  rewrite E in H. injection H as _ <-. split; cbn [tasks uuidCalls].
  - rewrite map_app. apply NoDup_app; [exact Hnd | repeat constructor; intros [] |].
    cbn [map taskId]. intros a Ha [<-|[]].
    apply in_map_iff in Ha. destruct Ha as [t [Et Ht]].
    destruct (Hids t Ht) as [k [Hk Ek]]. rewrite Ek in Et.
    apply Hinj in Et. lia.
  - intros t Ht. apply in_app_or in Ht. destruct Ht as [Ht|[<-|[]]].
    + destruct (Hids t Ht) as [k [Hk Ek]]. exists k. split; [lia|exact Ek].
    + exists (uuidCalls W). split; [lia|reflexivity].
Qed.

Lemma updateTask_distinctIds (W : Store) (id : jsstring) (updates : TaskUpdates) :
  distinctIds W -> distinctIds (snd (updateTask W id updates)).
Proof.
  intros [Hnd Hids].
  destruct (findIndex_task W id) as [[_ Hno]|[l1 [t [l2 [El [Ht [Hl1 _]]]]]]].
  - rewrite (updateTask_missing W id updates Hno). now split.
  - rewrite (updateTask_unfold W id updates l1 l2 t El Ht Hl1).
    split; cbn [snd tasks uuidCalls].
    + rewrite El in Hnd. rewrite map_app in *. exact Hnd.
    + intros u Hu. apply in_app_or in Hu.
      assert (Hold : exists u', In u' (tasks W) /\ taskId u' = taskId u).
      { rewrite El. destruct Hu as [Hu|[<-|Hu]].
        - exists u. split; [apply in_or_app; now left|reflexivity].
        - exists t. split; [apply in_elt|reflexivity].
        - exists u. split; [apply in_or_app; right; now right|reflexivity]. }
      destruct Hold as [u' [Hu' <-]].
      destruct (Hids u' Hu') as [k [Hk Ek]]. exists k. split; [lia|exact Ek].
Qed.

Lemma deleteTask_distinctIds (W : Store) (id : jsstring) :
  distinctIds W -> distinctIds (snd (deleteTask W id)).
Proof.
  intros [Hnd Hids].
  destruct (findIndex_task W id) as [[_ Hno]|[l1 [t [l2 [El [Ht [Hl1 _]]]]]]].
  - rewrite (deleteTask_missing W id Hno). now split.
  - destruct (deleteTask_found W id l1 t l2 El Ht Hl1)
      as [_ [Etasks _]].
    split.
    + rewrite Etasks. rewrite El, map_app in Hnd. cbn [map] in Hnd.
      apply NoDup_remove_1 in Hnd. now rewrite map_app.
    + rewrite Etasks. intros u Hu.
      assert (Hin : In u (tasks W)).
      { rewrite El. apply in_app_or in Hu. apply in_or_app.
        destruct Hu; [now left|right; now right]. }
      destruct (Hids u Hin) as [k [Hk Ek]]. exists k. split; [|exact Ek].
      unfold deleteTask. destruct (findIndex _ (tasks W)); exact Hk.
Qed.

(** What every [createTask] keeps, [seedTasks] keeps. *)
Lemma seedTasks_keeps (P : Store -> Prop) (W W' : Store) :
  (forall V V' data task, P V -> createTask V data = Some (task, V') -> P V') ->
  (forall V n, P V ->
     P {| tasks := tasks V; taskHistory := taskHistory V; uuidCalls := uuidCalls V;
          clockReads := n; classifier := classifier V |}) ->
  P W -> seedTasks W = Some W' -> P W'.
Proof.
  intros Hcreate Hclock HW H. unfold seedTasks in H.
  destruct (tasks W) eqn:Et; [|now injection H as <-].
  rewrite <- Et in H.
  revert H. generalize (sampleTasks (clockReads W)) as l.
  generalize (Hclock W (5 + clockReads W) HW).
  generalize {| tasks := tasks W; taskHistory := taskHistory W;
                uuidCalls := uuidCalls W; clockReads := 5 + clockReads W;
                classifier := classifier W |} as V.
  intros V HV l. revert V HV. induction l as [|d l IH]; intros V HV H;
    cbn [fold_left seedOne] in H.
  - now injection H as <-.
  - destruct (createTask V d) as [[task V']|] eqn:E; cbn [option_map snd] in H.
    + apply (IH V'); [|exact H]. exact (Hcreate _ _ _ _ HV E).
    + exfalso. clear - H. induction l as [|d' l IHl]; [discriminate|].
      cbn [fold_left seedOne] in H. auto.
Qed.

(** X15. When [crypto.randomUUID()] never returns the same value twice, the
    ids of the stored tasks stay distinct through [createTask],
    [updateTask], [deleteTask] and [seedTasks]. *)
Theorem distinctIds_kept (W : Store) :
  (forall i j, randomUUID i = randomUUID j -> i = j) ->
  distinctIds W ->
  (forall data task W', createTask W data = Some (task, W') -> distinctIds W') /\
  (forall id updates, distinctIds (snd (updateTask W id updates))) /\
  (forall id, distinctIds (snd (deleteTask W id))) /\
  (forall W', seedTasks W = Some W' -> distinctIds W').
Proof.
  intros Hinj HW. split; [|split; [|split]].
  - intros data task W'. now apply createTask_distinctIds.
  - intros id updates. now apply updateTask_distinctIds.
  - intros id. now apply deleteTask_distinctIds.
  - intros W'. apply (seedTasks_keeps distinctIds); [| |exact HW].
    + intros V V' data task. now apply createTask_distinctIds.
    + intros V n HV. exact HV.
Qed.

Lemma createTask_recorded (W W' : Store) (data : NewTask) (task : Task) :
  recorded W -> createTask W data = Some (task, W') -> recorded W'.
Proof.
  intros HW H.
  destruct (createTask_unfold W data) as [entities [M' E]]. cbv zeta in E.
  rewrite E in H. injection H as _ <-. intros t Ht. cbn [tasks taskHistory] in *.
  apply in_app_or in Ht. destruct Ht as [Ht|[<-|[]]].
  - destruct (HW t Ht) as [h [Hh Hrest]]. exists h. split; [|exact Hrest].
    apply in_or_app. now left.
  - eexists. split; [apply in_or_app; right; left; reflexivity|].
    cbn [task_id action taskId]. now split.
Qed.

(** X16. Every stored task keeps its entry ['created'] in the history
    through [createTask], [updateTask], [deleteTask] and [seedTasks]. *)
Theorem recorded_kept (W : Store) :
  recorded W ->
  (forall data task W', createTask W data = Some (task, W') -> recorded W') /\
  (forall id updates, recorded (snd (updateTask W id updates))) /\
  (forall id, recorded (snd (deleteTask W id))) /\
  (forall W', seedTasks W = Some W' -> recorded W').
Proof.
  intros HW. split; [|split; [|split]].
  - intros data task W'. now apply createTask_recorded.
  - intros id updates.
    destruct (findIndex_task W id) as [[_ Hno]|[l1 [t [l2 [El [Ht [Hl1 _]]]]]]].
    + now rewrite (updateTask_missing W id updates Hno).
    + rewrite (updateTask_unfold W id updates l1 l2 t El Ht Hl1).
      intros u Hu. cbn [snd tasks taskHistory] in *.
      assert (Hold : exists u', In u' (tasks W) /\ taskId u' = taskId u).
      { rewrite El. apply in_app_or in Hu. destruct Hu as [Hu|[<-|Hu]].
        - exists u. split; [apply in_or_app; now left|reflexivity].
        - exists t. split; [apply in_elt|reflexivity].
        - exists u. split; [apply in_or_app; right; now right|reflexivity]. }
      destruct Hold as [u' [Hu' <-]]. destruct (HW u' Hu') as [h [Hh Hrest]].
      exists h. split; [apply in_or_app; now left|exact Hrest].
  - intros id.
    destruct (findIndex_task W id) as [[_ Hno]|[l1 [t [l2 [El [Ht [Hl1 _]]]]]]].
    + now rewrite (deleteTask_missing W id Hno).
    + destruct (deleteTask_found W id l1 t l2 El Ht Hl1)
        as [_ [Etasks Ehist]].
      intros u Hu. rewrite Etasks in Hu. rewrite Ehist. apply HW.
      rewrite El. apply in_app_or in Hu. apply in_or_app.
      destruct Hu; [now left|right; now right].
  - intros W'. apply (seedTasks_keeps recorded); [| |exact HW].
    + intros V V' data task. now apply createTask_recorded.
    + intros V n HV. exact HV.
Qed.

Lemma classifyCategory_ascii (text : jsstring) :
  forallb isAscii text = true ->
  classifyCategory text
  = leader (scoreKeywords (map asciiLower text) (keywordsOf scheduling))
           (scoreKeywords (map asciiLower text) (keywordsOf finance))
           (scoreKeywords (map asciiLower text) (keywordsOf technical))
           (scoreKeywords (map asciiLower text) (keywordsOf safety)).
Proof.
  intros H. rewrite classifyCategory_leader. cbv zeta.
  now rewrite (toLowerCase_ascii text H).
Qed.

Lemma classifyPriority_ascii (text : jsstring) :
  forallb isAscii text = true ->
  classifyPriority text
  = if anyIncluded (map asciiLower text) (priorityKeywords high) then high
    else if anyIncluded (map asciiLower text) (priorityKeywords medium) then medium
         else low.
Proof.
  intros H. unfold classifyPriority, classifyPriorityOver. cbv zeta.
  now rewrite (toLowerCase_ascii text H).
Qed.

(** The tasks [sampleTasks.forEach(data => createTask(data))] adds, one
    for each element, after those of the store. *)
Lemma seedOne_fold (ds : list NewTask) :
  forall V : Store,
  exists V',
    fold_left seedOne ds (Some V) = Some V' /\
    map title (tasks V') = map title (tasks V) ++ map newTitle ds /\
    map taskCategory (tasks V')
    = map taskCategory (tasks V)
      ++ map (fun d => orElse (newCategory d)
                         (categoryName
                            (classifyCategory
                               (newTitle d ++ js " " ++ newDescription d)))) ds /\
    map taskPriority (tasks V')
    = map taskPriority (tasks V)
      ++ map (fun d => orElse (newPriority d)
                         (priorityName
                            (classifyPriority
                               (newTitle d ++ js " " ++ newDescription d)))) ds /\
    (Forall (fun t => status t = pending) (tasks V) ->
     Forall (fun t => status t = pending) (tasks V')) /\
    length (taskHistory V') = length ds + length (taskHistory V).
Proof.
  induction ds as [|d ds IH]; intros V.
  - exists V. cbn [fold_left map length]. rewrite !app_nil_r. repeat split. auto.
  - destruct (createTask_unfold V d) as [entities [M' E]]. cbv zeta in E.
    cbn [fold_left seedOne]. rewrite E. cbn [option_map snd].
    match goal with
    | |- context [fold_left seedOne ds (Some ?V1)] =>
        destruct (IH V1) as [V' [EV' [Ht [Hc [Hp [Hs Hh]]]]]]
    end.
    cbn [tasks taskHistory] in Ht, Hc, Hp, Hs, Hh.
    rewrite map_app in Ht, Hc, Hp.
    cbn [map title taskCategory taskPriority] in Ht, Hc, Hp.
    exists V'. split; [exact EV'|].
    split; [now rewrite Ht, <- app_assoc|].
    split; [now rewrite Hc, <- app_assoc|].
    split; [now rewrite Hp, <- app_assoc|]. split.
    + intros HV. apply Hs. apply Forall_app. split; [exact HV|].
      now repeat constructor.
    + rewrite Hh, length_app. cbn [length]. lia.
Qed.

(** X17. [seedTasks] leaves a store that holds tasks as it is.  On an empty
    store it creates the five sample tasks, all pending, classified as
    scheduling, technical, safety, finance and technical, with priorities
    high, high, low, low and medium; a second call then changes nothing. *)
Theorem seedTasks_once (W : Store) :
  (tasks W <> [] -> seedTasks W = Some W) /\
  (tasks W = [] ->
   exists W',
     seedTasks W = Some W' /\
     map title (tasks W') = map (fun e => js (fst (fst e))) sampleTexts /\
     map taskCategory (tasks W')
     = map categoryName [scheduling; technical; safety; finance; technical] /\
     map taskPriority (tasks W') = map priorityName [high; high; low; low; medium] /\
     Forall (fun t => status t = pending) (tasks W') /\
     length (taskHistory W') = 5 + length (taskHistory W) /\
     seedTasks W' = Some W').
Proof.
  split.
  - intros H. unfold seedTasks. destruct (tasks W); [contradiction|reflexivity].
  - intros Hempty. unfold seedTasks at 1. rewrite Hempty.
    match goal with
    | |- context [fold_left seedOne ?ds (Some ?V)] =>
        destruct (seedOne_fold ds V) as [W' [EW' [Ht [Hc [Hp [Hs Hh]]]]]]
    end.
    cbn [tasks taskHistory map app] in Ht, Hc, Hp, Hs, Hh.
    exists W'. split; [exact EW'|]. split; [exact Ht|].
    split; [|split; [|split; [|split]]].
    + rewrite Hc.
      cbn [sampleTasks map combine seq sampleTexts sampleDelays newTitle
           newDescription newCategory orElse].
      rewrite !classifyCategory_ascii by reflexivity. vm_compute. reflexivity.
    + rewrite Hp.
      cbn [sampleTasks map combine seq sampleTexts sampleDelays newTitle
           newDescription newPriority orElse].
      rewrite !classifyPriority_ascii by reflexivity. vm_compute. reflexivity.
    + apply Hs. constructor.
    + exact Hh.
    + unfold seedTasks. destruct (tasks W'); [discriminate Ht|reflexivity].
Qed.

(** X25. [getTaskById] returns the first stored task that has the id, or
    [null] when there is none, and with it the entries of the history filed
    under the id: all of them, each as often as it is there, the latest
    first, entries of the same time in the order they were written. *)
Theorem getTaskById_first_and_history (W : Store) (id : jsstring) :
  (fst (getTaskById W id) = None <-> forall t, In t (tasks W) -> taskId t <> id) /\
  (forall l1 t l2,
      tasks W = l1 ++ t :: l2 -> taskId t = id ->
      (forall u, In u l1 -> taskId u <> id) ->
      fst (getTaskById W id) = Some t) /\
  Permutation (snd (getTaskById W id))
              (filter (fun h => jsstring_eqb (task_id h) id) (taskHistory W)) /\
  StronglySorted (fun a b => (changed_at b <= changed_at a)%N)
                 (snd (getTaskById W id)) /\
  forall time,
    filter (fun h => N.eqb (changed_at h) time) (snd (getTaskById W id))
    = filter (fun h => N.eqb (changed_at h) time)
             (filter (fun h => jsstring_eqb (task_id h) id) (taskHistory W)).
Proof.
  unfold getTaskById. cbn [fst snd]. split; [|split; [|split; [|split]]].
  - rewrite find_none_iff. split; intros H t Ht.
    + apply jsstring_eqb_neq. now apply H.
    + apply jsstring_eqb_neq. now apply H.
  - intros l1 t l2 -> Ht Hl1. apply find_middle.
    + intros u Hu. apply jsstring_eqb_neq. now apply Hl1.
    + now apply jsstring_eqb_eq.
  - apply (stableSort_perm TaskHistory changed_at).
  - apply (stableSort_sorted TaskHistory changed_at).
  - intros time. apply (stableSort_stable TaskHistory changed_at).
Qed.

(** X26. The history is only ever added to.  [createTask] adds the entry
    ['created'] of the task it returns, [updateTask] adds one entry or
    none, [deleteTask] leaves the history as it is, and [seedTasks] keeps
    what is there in front of what it adds. *)
Theorem history_append_only (W : Store) :
  (forall data task W',
      createTask W data = Some (task, W') ->
      exists entry, taskHistory W' = taskHistory W ++ [entry] /\
                    action entry = action_created /\ task_id entry = taskId task /\
                    new_value entry = task) /\
  (forall id updates,
      exists added,
        taskHistory (snd (updateTask W id updates)) = taskHistory W ++ added /\
        length added <= 1) /\
  (forall id, taskHistory (snd (deleteTask W id)) = taskHistory W) /\
  (forall W', seedTasks W = Some W' ->
              exists added, taskHistory W' = taskHistory W ++ added).
Proof.
  split; [|split; [|split]].
  - intros data task W' H.
    destruct (createTask_unfold W data) as [entities [M' E]]. cbv zeta in E.
    rewrite E in H. injection H as <- <-. eexists. split; [reflexivity|].
    repeat split.
  - intros id updates.
    destruct (findIndex_task W id) as [[_ Hno]|[l1 [t [l2 [El [Ht [Hl1 _]]]]]]].
    + rewrite (updateTask_missing W id updates Hno). exists [].
      split; [now rewrite app_nil_r | cbn; lia].
    + rewrite (updateTask_unfold W id updates l1 l2 t El Ht Hl1).
      cbn [snd taskHistory]. eexists. split; [reflexivity|cbn; lia].
  - intros id. unfold deleteTask.
    destruct (findIndex _ (tasks W)); reflexivity.
  - intros W'.
    apply (seedTasks_keeps (fun V => exists added, taskHistory V = taskHistory W ++ added)).
    + intros V V' data task [added HV] H.
      destruct (createTask_unfold V data) as [entities [M' E]]. cbv zeta in E.
      rewrite E in H. injection H as _ <-. cbn [taskHistory].
      rewrite HV, <- app_assoc. eexists. reflexivity.
    + intros V n HV. exact HV.
    + exists []. now rewrite app_nil_r.
Qed.

(** ** The classifier of the edge function *)

(** The loop over [categoryKeywords] ends with the first entry of the
    highest score, when that score is above the one it starts with. *)
Lemma fold_visit_first_max (text : jsstring) (entries : list (jsstring * list jsstring)) :
  forall (c0 : jsstring) (m0 : nat),
    (Forall (fun e => Edge.score text (snd e) <= m0) entries /\
     fold_left (Edge.visit text) entries (c0, m0) = (c0, m0)) \/
    (exists l1 e l2,
       entries = l1 ++ e :: l2 /\
       fold_left (Edge.visit text) entries (c0, m0) = (fst e, Edge.score text (snd e)) /\
       m0 < Edge.score text (snd e) /\
       Forall (fun e' => Edge.score text (snd e') < Edge.score text (snd e)) l1 /\
       Forall (fun e' => Edge.score text (snd e') <= Edge.score text (snd e)) l2).
Proof.
  induction entries as [|e0 rest IH]; intros c0 m0.
  - left. split; [constructor|reflexivity].
  - cbn [fold_left]. unfold Edge.visit at 2 4. cbn [fst snd].
    destruct (Nat.ltb_spec m0 (Edge.score text (snd e0))) as [Hlt|Hge].
    + destruct (IH (fst e0) (Edge.score text (snd e0)))
        as [[Hall E]|[l1 [e [l2 [-> [E [Hlt' [H1 H2]]]]]]]].
      * right. exists [], e0, rest. repeat split; auto.
      * right. exists (e0 :: l1), e, l2. split; [reflexivity|].
        split; [exact E|]. split; [lia|]. split; [|exact H2].
        constructor; [exact Hlt'|exact H1].
    + destruct (IH c0 m0) as [[Hall E]|[l1 [e [l2 [-> [E [Hlt' [H1 H2]]]]]]]].
      * left. split; [|exact E]. constructor; [exact Hge|exact Hall].
      * right. exists (e0 :: l1), e, l2. split; [reflexivity|].
        split; [exact E|]. split; [exact Hlt'|]. split; [|exact H2].
        constructor; [lia|exact H1].
Qed.

(** X18. The edge function's category is ["general"] when no keyword of
    any category occurs in the lowercased text; otherwise it is the first
    category, in the order of the table, whose number of keywords found is
    the highest. *)
Theorem edge_category_first_strict_max (title description : jsstring) :
  let text := toLowerCase (title ++ js " " ++ description) in
  let hits (entry : jsstring * list jsstring) :=
    length (filter (includes text) (snd entry)) in
  let result := Edge.category (Edge.classifyTask toLowerCase title description) in
  (Forall (fun entry => hits entry = 0) Edge.categoryKeywords /\
   result = js "general") \/
  (exists before entry after,
     Edge.categoryKeywords = before ++ entry :: after /\
     result = fst entry /\
     0 < hits entry /\
     Forall (fun earlier => hits earlier < hits entry) before /\
     Forall (fun later => hits later <= hits entry) after).
Proof.
  intros text hits result.
  destruct (fold_visit_first_max text Edge.categoryKeywords (js "general") 0)
    as [[Hall E]|[l1 [e [l2 [El [E [Hlt [H1 H2]]]]]]]].
  - left. split.
    + eapply Forall_impl; [|exact Hall]. intros e He. unfold hits.
      unfold Edge.score in He. lia.
    + unfold result, Edge.classifyTask. cbn [Edge.category]. fold text.
      now rewrite E.
  - right. exists l1, e, l2. split; [exact El|]. split.
    + unfold result, Edge.classifyTask. cbn [Edge.category]. fold text.
      now rewrite E.
    + split; [exact Hlt|]. split; [exact H1|exact H2].
Qed.

Lemma edge_category_named (title description : jsstring) :
  In (Edge.category (Edge.classifyTask toLowerCase title description))
     (js "general" :: map fst Edge.categoryKeywords).
Proof.
  unfold Edge.classifyTask. cbn [Edge.category].
  set (text := toLowerCase (title ++ js " " ++ description)).
  destruct (fold_visit_first_max text Edge.categoryKeywords (js "general") 0)
    as [[_ E]|[l1 [e [l2 [El [E _]]]]]]; rewrite E; cbn [fst].
  - now left.
  - right. rewrite El, map_app. apply in_or_app. right. now left.
Qed.

(** X19. The category the edge function returns is a key of its table of
    suggested actions, and the actions returned are the three filed under
    that key: the fallback to the list of ["general"] is never taken. *)
Theorem edge_suggested_actions (title description : jsstring) :
  let result := Edge.classifyTask toLowerCase title description in
  In (Edge.category result, Edge.suggested_actions result) Edge.suggestedActionsMap /\
  Edge.property Edge.suggestedActionsMap (Edge.category result)
  = Some (Edge.suggested_actions result) /\
  length (Edge.suggested_actions result) = 3.
Proof.
  intros result. pose proof (edge_category_named title description) as Hc.
  fold result in Hc.
  assert (Ea : Edge.suggested_actions result
               = match Edge.property Edge.suggestedActionsMap (Edge.category result) with
                 | Some actions => actions
                 | None =>
                     match Edge.property Edge.suggestedActionsMap (js "general") with
                     | Some actions => actions
                     | None => []
                     end
                 end) by reflexivity.
  revert Ea Hc. generalize (Edge.suggested_actions result) as actions.
  generalize (Edge.category result) as c. intros c actions -> Hc.
  cbn [map fst Edge.categoryKeywords] in Hc.
  destruct Hc as [<-|[<-|[<-|[<-|[<-|[]]]]]]; vm_compute; intuition.
Qed.

Lemma existsb_includes (text : jsstring) (keywords : list jsstring) :
  existsb (includes text) keywords = true
  <-> exists k, In k keywords /\ Substring k text.
Proof.
  rewrite existsb_exists. split; intros [k [Hk H]]; exists k; split; auto;
    now apply includes_spec.
Qed.

(** X20. The edge function's priority is ["high"] exactly when a keyword
    filed under high occurs in the lowercased text, and ["low"] exactly
    when none filed under high or medium occurs and one filed under low
    does; in every other case, with no keyword at all among them, it is
    ["medium"]. *)
Theorem edge_priority_first_list (title description : jsstring) :
  let text := toLowerCase (title ++ js " " ++ description) in
  let found name := exists k, In k (Edge.keywordsOf name) /\ Substring k text in
  let result := Edge.priority (Edge.classifyTask toLowerCase title description) in
  (result = js "high" <-> found "high") /\
  (result = js "low" <-> ~ found "high" /\ ~ found "medium" /\ found "low") /\
  (result = js "medium"
   <-> ~ found "high" /\ (found "medium" \/ ~ found "low")).
Proof.
  intros text found result.
  pose proof (existsb_includes text (Edge.keywordsOf "high")) as Hh.
  pose proof (existsb_includes text (Edge.keywordsOf "medium")) as Hm.
  pose proof (existsb_includes text (Edge.keywordsOf "low")) as Hl.
  fold (found "high") in Hh. fold (found "medium") in Hm. fold (found "low") in Hl.
  assert (E : result
              = if existsb (includes text) (Edge.keywordsOf "high") then js "high"
                else if existsb (includes text) (Edge.keywordsOf "medium")
                     then js "medium"
                     else if existsb (includes text) (Edge.keywordsOf "low")
                          then js "low" else js "medium").
  { unfold result, Edge.classifyTask. cbn [Edge.priority]. fold text.
    cbn [find Edge.priorityKeywords snd].
    change (jss ["urgent"; "critical"; "asap"; "immediately"; "emergency";
                 "priority"; "important"; "crucial"]) with (Edge.keywordsOf "high").
    change (jss ["soon"; "moderate"; "normal"; "standard"])
      with (Edge.keywordsOf "medium").
    change (jss ["whenever"; "eventually"; "low priority"; "minor"; "optional"])
      with (Edge.keywordsOf "low").
    destruct (existsb (includes text) (Edge.keywordsOf "high")); [reflexivity|].
    destruct (existsb (includes text) (Edge.keywordsOf "medium")); [reflexivity|].
    destruct (existsb (includes text) (Edge.keywordsOf "low")); reflexivity. }
  rewrite E.
  destruct (existsb (includes text) (Edge.keywordsOf "high"));
    destruct (existsb (includes text) (Edge.keywordsOf "medium"));
    destruct (existsb (includes text) (Edge.keywordsOf "low"));
    repeat split; intros; try discriminate; try reflexivity;
    try (exfalso; intuition congruence); intuition congruence.
Qed.

(** X21. A text whose lowercase form contains "low priority" is ["high"]
    for the edge function: "priority" is filed under high, and that list
    is looked at first. *)
Theorem edge_low_priority_is_high (title description : jsstring) :
  Substring (js "low priority") (toLowerCase (title ++ js " " ++ description)) ->
  Edge.priority (Edge.classifyTask toLowerCase title description) = js "high".
Proof.
  intros H. unfold Edge.classifyTask. cbn [Edge.priority].
  set (text := toLowerCase (title ++ js " " ++ description)) in *.
  cbn [find Edge.priorityKeywords snd].
  assert (Hh : existsb (includes text)
                 (jss ["urgent"; "critical"; "asap"; "immediately"; "emergency";
                       "priority"; "important"; "crucial"]) = true).
  { apply existsb_includes. exists (js "priority"). split; [cbn; tauto|].
    apply (Substring_trans _ (js "low priority")); [|exact H].
    exists (js "low "), []. reflexivity. }
  now rewrite Hh.
Qed.

(** X22. On a text in which no priority keyword of either table occurs,
    the two classifiers disagree: [classifyTask] of [classification.ts]
    answers [low], the edge function's answers ["medium"]. *)
Theorem priority_defaults_differ (M : ModuleState) (title description : jsstring) :
  let text := toLowerCase (title ++ js " " ++ description) in
  (forall p k, In k (priorityKeywords p) -> ~ Substring k text) ->
  (forall name k, In k (Edge.keywordsOf name) -> ~ Substring k text) ->
  exists r M',
    classifyTask M title description = Some (r, M') /\
    priority r = low /\
    Edge.priority (Edge.classifyTask toLowerCase title description) = js "medium".
Proof.
  intros text Hclient Hedge.
  destruct (classifyTask_unfold M title description) as [ps [ls [_ [_ E]]]].
  cbv zeta in E. do 2 eexists. split; [exact E|]. cbn [priority]. split.
  - unfold classifyPriority, classifyPriorityOver. cbv zeta. fold text.
    assert (Hno : forall p, anyIncluded text (priorityKeywords p) = false).
    { intros p. apply not_true_is_false. intros Hp.
      apply anyIncluded_spec in Hp. destruct Hp as [k [Hk Hs]].
      exact (Hclient p k Hk Hs). }
    now rewrite !Hno.
  - unfold Edge.classifyTask. cbn [Edge.priority]. fold text.
    assert (Hno : forall name, existsb (includes text) (Edge.keywordsOf name) = false).
    { intros name. apply not_true_is_false. intros Hp.
      apply existsb_includes in Hp. destruct Hp as [k [Hk Hs]].
      exact (Hedge name k Hk Hs). }
    cbn [find Edge.priorityKeywords snd].
    change (jss ["urgent"; "critical"; "asap"; "immediately"; "emergency";
                 "priority"; "important"; "crucial"]) with (Edge.keywordsOf "high").
    change (jss ["soon"; "moderate"; "normal"; "standard"])
      with (Edge.keywordsOf "medium").
    change (jss ["whenever"; "eventually"; "low priority"; "minor"; "optional"])
      with (Edge.keywordsOf "low").
    now rewrite !Hno.
Qed.

Lemma Substring_lowered (s t : jsstring) :
  Substring s (map asciiLower t) -> map asciiLower s = s.
Proof.
  intros [pre [post E]]. apply map_eq_app in E.
  destruct E as [pre' [rest [_ [_ E]]]]. apply map_eq_app in E.
  destruct E as [s' [post' [_ [<- _]]]]. rewrite map_map.
  apply map_ext. intros c. apply asciiLower_idem.
Qed.

Lemma matchesOf_Forall (P : jsstring -> Prop) (text : jsstring) (pattern : regex) :
  (forall s, Substring s text -> Lang true pattern s -> P s) ->
  Forall P (Edge.matchesOf text pattern).
Proof.
  intros HP. unfold Edge.matchesOf.
  destruct (fst (stringMatch text (newRegExp pattern true))) as [ms|] eqn:Hms;
    [|constructor].
  apply (stringMatch_Forall text P (newRegExp pattern true)); [|exact Hms].
  cbn [ignoreCase source newRegExp]. intros j y Hj Hy.
  apply matcher_at in Hy; [|exact Hj]. destruct Hy as [_ HL].
  apply HP; [apply slice_Substring|exact HL].
Qed.

Lemma lowercase_word (ws : list string) (w : string) (s : jsstring) :
  Forall (fun v => map asciiLower (js v) = js v) ws ->
  In w ws -> map (canonicalize true) s = map (canonicalize true) (js w) ->
  map asciiLower s = js w.
Proof.
  intros Hws Hw E. rewrite Forall_forall in Hws.
  rewrite <- (Hws w Hw). now apply map_asciiUpper_eq_lower.
Qed.

(** X23. What the edge function extracts is found as it is in the
    lowercased text.  An entry of [people] begins, letter case apart, with
    the cue word that introduces the name; a date is, letter case apart,
    one of the ten words of the pattern.  On ASCII input every entry is in
    lowercase. *)
Theorem edge_entities_from_text (title description : jsstring) :
  let text := toLowerCase (title ++ js " " ++ description) in
  let entities :=
    Edge.extracted_entities (Edge.classifyTask toLowerCase title description) in
  Forall (fun p => Substring p text /\
                   exists cue rest, In cue ["contact"; "call"; "meet"; "email"] /\
                                    map asciiLower p = js cue ++ rest)
         (Edge.people entities) /\
  Forall (fun d => Substring d text /\
                   In (map asciiLower d)
                      (jss ["today"; "tomorrow"; "monday"; "tuesday"; "wednesday";
                            "thursday"; "friday"; "saturday"; "sunday"; "next week"]))
         (Edge.dates entities) /\
  (forallb isAscii (title ++ js " " ++ description) = true ->
   Forall (fun s => map asciiLower s = s)
          (Edge.people entities ++ Edge.dates entities)).
Proof.
  intros text entities. unfold entities, Edge.classifyTask.
  cbn [Edge.extracted_entities Edge.people Edge.dates]. fold text.
  split; [|split].
  - apply matchesOf_Forall. intros s Hs HL. split; [exact Hs|].
    cbn [Edge.peoplePattern seqs Lang] in HL.
    destruct HL as [s1 [s2 [-> [H1 _]]]].
    apply Lang_words in H1. destruct H1 as [w [Hw E]].
    exists w, (map asciiLower s2). split; [exact Hw|].
    rewrite map_app. f_equal.
    apply (lowercase_word ["contact"; "call"; "meet"; "email"]);
      [repeat constructor|exact Hw|exact E].
  - apply matchesOf_Forall. intros s Hs HL. split; [exact Hs|].
    apply Lang_words in HL. destruct HL as [w [Hw E]].
    assert (El : map asciiLower s = js w).
    { eapply lowercase_word; [|exact Hw|exact E]. repeat constructor. }
    rewrite El. unfold jss. now apply in_map.
  - intros Ha. unfold text. rewrite (toLowerCase_ascii _ Ha).
    apply Forall_app. split; apply matchesOf_Forall; intros s Hs _;
      exact (Substring_lowered _ _ Hs).
Qed.

End Classifier.

(** ** The results at the ASCII [toLowerCase] *)

Lemma toLowerCaseAscii_ascii (s : jsstring) :
  forallb isAscii s = true -> toLowerCaseAscii s = map asciiLower s.
Proof. reflexivity. Qed.

Lemma initialState_loaded : loaded initialState.
Proof. split; repeat constructor. Qed.

(** The tests of [runClassificationTests]. *)
Example test_scheduling :
  option_map (fun res => category (fst res))
    (classifyTask toLowerCaseAscii initialState
       (js "Schedule meeting with team") (js "Discuss project updates"))
  = Some scheduling.
Proof. vm_compute. reflexivity. Qed.

Example test_finance :
  option_map (fun res => category (fst res))
    (classifyTask toLowerCaseAscii initialState
       (js "Review invoice") (js "Check the budget allocation for Q4"))
  = Some finance.
Proof. vm_compute. reflexivity. Qed.

Example test_high_priority :
  option_map (fun res => priority (fst res))
    (classifyTask toLowerCaseAscii initialState
       (js "Urgent fix needed") (js "Critical bug in production"))
  = Some high.
Proof. vm_compute. reflexivity. Qed.

Example test_technical :
  option_map (fun res => category (fst res))
    (classifyTask toLowerCaseAscii initialState
       (js "Fix server error") (js "Deploy hotfix to production"))
  = Some technical.
Proof. vm_compute. reflexivity. Qed.

Example test_safety :
  option_map (fun res => category (fst res))
    (classifyTask toLowerCaseAscii initialState
       (js "Safety inspection required") (js "Check compliance with PPE regulations"))
  = Some safety.
Proof. vm_compute. reflexivity. Qed.

(** "contact John Smith" and "next Monday", with the module objects left at
    [lastIndex] 0. *)
Example test_entities :
  classifyTask toLowerCaseAscii initialState
    (js "Review budget") (js "contact John Smith next Monday in Room 12")
  = Some ({| category := finance;
             priority := low;
             extracted_entities :=
               {| dates := jss ["monday"; "next monday"];
                  people := jss ["John Smith"];
                  locations := jss ["Room"; "12"];
                  actionVerbs := jss ["review"] |};
             suggested_actions := suggestedActions finance |},
          initialState).
Proof. vm_compute. reflexivity. Qed.

(** A tie: "meeting" for scheduling, "invoice" for finance. *)
Lemma classifyCategory_first_strict_max_witness :
  let text := js "Invoice for the meeting" in
  let score c := scoreKeywords (toLowerCaseAscii text) (keywordsOf c) in
  classifyCategory toLowerCaseAscii text = scheduling /\
  exists i, nth_error declaredOrder i = Some (classifyCategory toLowerCaseAscii text) /\
    forall j c, nth_error declaredOrder j = Some c ->
      score c <= score (classifyCategory toLowerCaseAscii text) /\
      (j < i -> score c < score (classifyCategory toLowerCaseAscii text)).
Proof.
  intros text score. split; [reflexivity|].
  pose proof (classifyCategory_first_strict_max toLowerCaseAscii text) as H.
  cbv zeta in H. destruct H as [_ [_ H]]. apply H.
  exists finance. split; [simpl; tauto | vm_compute; lia].
Defined.

Lemma classifyPriority_precedence_witness :
  classifyPriority toLowerCaseAscii (js "Urgent fix needed Critical bug in production")
  = high.
Proof.
  pose proof (classifyPriority_precedence toLowerCaseAscii
                (js "Urgent fix needed Critical bug in production")) as H.
  cbv zeta in H. destruct H as [H _]. apply H.
  exists (js "urgent"). split; [simpl; tauto|].
  exists [], (js " fix needed critical bug in production"). reflexivity.
Defined.

(** Objects whose [lastIndex] an earlier use has moved answer as fresh ones. *)
Lemma classifyTask_assembles_witness :
  let M := {| datePatternsOf := map (fun R => setLastIndex R 3) datePatterns;
              actionVerbPatternsOf :=
                map (fun R => setLastIndex R 7) actionVerbPatterns |} in
  let text := js "Pay" ++ js " " ++ js "today" in
  extractDates toLowerCaseAscii (datePatternsOf M) text
  = extractDates toLowerCaseAscii datePatterns text /\
  extractActionVerbs toLowerCaseAscii (actionVerbPatternsOf M) text
  = extractActionVerbs toLowerCaseAscii actionVerbPatterns text.
Proof.
  intros M text.
  pose proof (classifyTask_assembles toLowerCaseAscii M (js "Pay") (js "today")) as H.
  cbv zeta in H. destruct H as [_ H]. apply H.
  split; repeat constructor.
Defined.

Lemma suggested_actions_by_category_witness :
  exists r1 r2 M1 M2,
    classifyTask toLowerCaseAscii initialState
      (js "Fix server error") (js "Deploy hotfix to production") = Some (r1, M1) /\
    classifyTask toLowerCaseAscii initialState (js "Repair the printer") (js "")
      = Some (r2, M2) /\
    suggested_actions r1 = suggested_actions r2.
Proof.
  destruct (suggested_actions_by_category toLowerCaseAscii initialState initialState
              (js "Fix server error") (js "Deploy hotfix to production")
              (js "Repair the printer") (js ""))
    as [r1 [r2 [M1 [M2 [E1 [E2 [_ [_ H]]]]]]]].
  exists r1, r2, M1, M2. split; [exact E1|]. split; [exact E2|]. apply H.
  vm_compute in E1, E2. injection E1 as <- _. injection E2 as <- _. reflexivity.
Defined.

Lemma classifyTask_deterministic_witness :
  exists r M1 M2 M1',
    classifyTask toLowerCaseAscii initialState (js "Call Bob") (js "tomorrow 3/4")
      = Some (r, M1) /\
    classifyTask toLowerCaseAscii M1 (js "Call Bob") (js "tomorrow 3/4")
      = Some (r, M2) /\
    classifyTask toLowerCaseAscii initialState (js "Call Bob") (js "tomorrow 3/4")
      = Some (r, M1').
Proof.
  apply (classifyTask_deterministic toLowerCaseAscii initialState initialState);
    split; repeat constructor.
Defined.

Lemma classifyTask_empty_witness :
  exists M',
    classifyTask toLowerCaseAscii initialState [] []
    = Some ({| category := general;
               priority := low;
               extracted_entities :=
                 {| dates := []; people := []; locations := []; actionVerbs := [] |};
               suggested_actions := suggestedActions general |}, M').
Proof.
  apply (classifyTask_empty toLowerCaseAscii).
  - intros s _. reflexivity.
  - split; repeat constructor.
Defined.

Lemma next_monday_extracted_witness :
  exists r M',
    classifyTask toLowerCaseAscii initialState (js "Review") (js "next Monday")
      = Some (r, M') /\
    In (js "next monday") (dates (extracted_entities r)).
Proof.
  destruct (next_monday_extracted toLowerCaseAscii (fun s _ => eq_refl)
              initialState (js "Review") (js "next Monday"))
    as [r [M' [E [_ [_ H]]]]].
  - split; repeat constructor.
  - exists r, M'. split; [exact E|].
    apply (H (js "Review ") []).
    + reflexivity.
    + intros pre' c Hc.
      change (js "Review ") with (js "Review" ++ [32%N]) in Hc.
      apply app_inj_tail in Hc. destruct Hc as [_ <-]. reflexivity.
    + intros c post' Hc. discriminate Hc.
Defined.

(** C8, as the spec words it, fails: "next Mondays" contains "next Monday",
    and no date is found. *)
Lemma next_monday_needs_boundaries :
  Substring (js "next Monday") (js "Cover next Mondays" ++ js " " ++ js "") /\
  exists r M',
    classifyTask toLowerCaseAscii initialState (js "Cover next Mondays") (js "")
      = Some (r, M') /\
    dates (extracted_entities r) = [] /\
    ~ In (js "next monday") (dates (extracted_entities r)).
Proof.
  split.
  - exists (js "Cover "), (js "s "). reflexivity.
  - eexists. eexists. split; [vm_compute; reflexivity|].
    split; [reflexivity|]. intros H. exact H.
Qed.

Lemma important_is_high_witness :
  classifyPriority toLowerCaseAscii (js "An Important reminder") = high /\
  classifyPriority toLowerCaseAscii (js "An Important reminder") <> medium.
Proof.
  apply (important_is_high toLowerCaseAscii (js "An Important reminder")).
  exists (js "an "), (js " reminder"). reflexivity.
Defined.

Lemma low_priority_is_high_witness :
  classifyPriority toLowerCaseAscii (js "Low priority cleanup") = high.
Proof.
  apply (low_priority_is_high toLowerCaseAscii (js "Low priority cleanup")).
  exists [], (js " cleanup"). reflexivity.
Defined.

(** ** The extractors and the store at the example host *)

Lemma countingUUID_injective (i j : nat) : countingUUID i = countingUUID j -> i = j.
Proof.
  unfold countingUUID. intros H. apply app_inv_head in H.
  apply (f_equal (@length N)) in H. now rewrite !repeat_length in H.
Qed.

Lemma twoTasks_distinctIds : distinctIds countingUUID twoTasks.
Proof.
  split.
  - cbn [twoTasks tasks map]. constructor.
    + intros [H|[]]. now apply countingUUID_injective in H.
    + constructor; [intros []|constructor].
  - cbn [twoTasks tasks uuidCalls]. intros t [<-|[<-|[]]].
    + exists 0. split; [lia|reflexivity].
    + exists 2. split; [lia|reflexivity].
Qed.

Lemma twoTasks_recorded : recorded twoTasks.
Proof.
  cbn [twoTasks]. intros t [<-|[<-|[]]].
  - exists (createdEntry 1 payTheBill). cbn. tauto.
  - exists (createdEntry 3 callBob). cbn. tauto.
Qed.

Lemma extractActionVerbs_vocabulary_witness :
  let verbs :=
    fst (extractActionVerbs toLowerCaseAscii actionVerbPatterns
           (js "Fix the pump, then DEPLOY and fix again")) in
  verbs = jss ["fix"; "deploy"] /\
  NoDup verbs /\
  forall v, In v verbs ->
    In v (jss ["schedule"; "create"; "review"; "complete"; "send"; "call";
               "email"; "update"; "fix"; "check"; "prepare"; "submit";
               "approve"; "cancel"; "organize"; "setup"; "plan"; "meet";
               "discuss"; "analyze"; "implement"; "deploy"]).
Proof.
  intros verbs. split; [vm_compute; reflexivity|].
  apply (extractActionVerbs_vocabulary toLowerCaseAscii toLowerCaseAscii_ascii
           actionVerbPatterns).
  repeat constructor.
Defined.

Lemma extractDates_from_text_witness :
  let text := js "Due Tomorrow, or on 3/4" in
  In (js "tomorrow") (fst (extractDates toLowerCaseAscii datePatterns text)) /\
  exists m, Substring m text /\ forallb isAscii m = true /\
            js "tomorrow" = map asciiLower m.
Proof.
  intros text.
  assert (H : In (js "tomorrow")
                (fst (extractDates toLowerCaseAscii datePatterns text)))
    by (vm_compute; tauto).
  split; [exact H|].
  apply (extractDates_from_text toLowerCaseAscii toLowerCaseAscii_ascii
           datePatterns text); [repeat constructor | exact H].
Defined.

Lemma extractPeople_handle_witness :
  exists ps,
    extractPeople (js "ask " ++ js "@" ++ js "bob_1" ++ js ", please") = Some ps /\
    In (js "bob_1") ps.
Proof.
  apply (extractPeople_handle (js "ask ") (js "bob_1") (js ", please")).
  - discriminate.
  - reflexivity.
  - intros c post' E. injection E as <- _. reflexivity.
Defined.

Lemma runClassificationTests_pass_witness :
  exists M',
    runClassificationTests toLowerCaseAscii initialState
    = Some ({| passed := 5;
               failed := 0;
               results :=
                 map (fun name => checkMark ++ js " " ++ js name)
                     ["Scheduling category detection";
                      "Finance category detection";
                      "High priority detection";
                      "Technical category detection";
                      "Safety category detection"] |}, M').
Proof.
  apply (runClassificationTests_pass toLowerCaseAscii).
  intros s _. reflexivity.
Defined.

(** A category the caller passes is kept; the actions stay those of the
    category the text gives. *)
Lemma createTask_override_witness :
  let data := titled "Fix the server" "It is down" (Some (js "finance")) in
  exists task W',
    createTask toLowerCaseAscii countingUUID tickingClock twoTasks data
    = Some (task, W') /\
    taskCategory task = js "finance" /\
    taskPriority task = priorityName low /\
    taskActions task = Some (suggestedActions technical).
Proof.
  intros data.
  destruct (createTask_override toLowerCaseAscii countingUUID tickingClock
              twoTasks data)
    as [task [W' [E [_ [_ [Hc [_ [_ [Hp Ha]]]]]]]]].
  exists task, W'. split; [exact E|]. split; [|split].
  - apply (Hc _ _ eq_refl).
  - rewrite Hp; [vm_compute; reflexivity | left; reflexivity].
  - rewrite Ha. vm_compute. reflexivity.
Defined.

Lemma createTask_then_get_witness :
  let data := titled "Fix the server" "It is down" None in
  exists task W',
    createTask toLowerCaseAscii countingUUID tickingClock twoTasks data
    = Some (task, W') /\
    fst (getTaskById W' (taskId task)) = Some task /\
    exists h, In h (snd (getTaskById W' (taskId task))) /\
              action h = action_created /\ old_value h = None /\
              new_value h = task.
Proof.
  intros data.
  apply (createTask_then_get toLowerCaseAscii countingUUID tickingClock twoTasks data).
  intros t [<-|[<-|[]]] H; apply countingUUID_injective in H; discriminate H.
Defined.

Lemma deleteTask_removes_first_witness :
  fst (deleteTask twoTasks (taskId callBob)) = true /\
  tasks (snd (deleteTask twoTasks (taskId callBob))) = [payTheBill] ++ [] /\
  taskHistory (snd (deleteTask twoTasks (taskId callBob))) = taskHistory twoTasks.
Proof.
  apply (proj2 (deleteTask_removes_first twoTasks (taskId callBob))
           [payTheBill] callBob []).
  - reflexivity.
  - reflexivity.
  - intros u [<-|[]] H. apply countingUUID_injective in H. discriminate H.
Defined.

Lemma deleteTask_then_get_witness :
  getTaskById (snd (deleteTask twoTasks (taskId payTheBill))) (taskId payTheBill)
  = (None, snd (getTaskById twoTasks (taskId payTheBill))).
Proof.
  apply (deleteTask_then_get twoTasks (taskId payTheBill)).
  exact (proj1 twoTasks_distinctIds).
Defined.


Lemma updateTask_then_get_witness :
  exists old newTask W',
    updateTask countingUUID tickingClock twoTasks (taskId callBob)
      (statusUpdate completed) = (Some newTask, W') /\
    find (fun t => jsstring_eqb (taskId t) (taskId callBob)) (tasks twoTasks)
    = Some old /\
    fst (getTaskById W' (taskId callBob)) = Some newTask /\
    exists h, In h (snd (getTaskById W' (taskId callBob))) /\
              old_value h = Some old /\ new_value h = newTask.
Proof.
  apply (updateTask_then_get countingUUID tickingClock twoTasks (taskId callBob)
           (statusUpdate completed)).
  exists callBob. split; [right; left; reflexivity|reflexivity].
Defined.

Lemma distinctIds_kept_witness :
  distinctIds countingUUID twoTasks /\
  distinctIds countingUUID
    (snd (updateTask countingUUID tickingClock twoTasks (taskId callBob)
            (statusUpdate completed))) /\
  distinctIds countingUUID (snd (deleteTask twoTasks (taskId payTheBill))) /\
  exists task W',
    createTask toLowerCaseAscii countingUUID tickingClock twoTasks
      (titled "Fix the server" "It is down" None) = Some (task, W') /\
    distinctIds countingUUID W'.
Proof.
  destruct (distinctIds_kept toLowerCaseAscii countingUUID tickingClock
              millisecondsText twoTasks countingUUID_injective twoTasks_distinctIds)
    as [Hc [Hu [Hd _]]].
  split; [exact twoTasks_distinctIds|]. split; [apply Hu|]. split; [apply Hd|].
  destruct (createTask toLowerCaseAscii countingUUID tickingClock twoTasks
              (titled "Fix the server" "It is down" None))
    as [[task W']|] eqn:E; [|vm_compute in E; discriminate E].
  exists task, W'. split; [reflexivity|]. exact (Hc _ _ _ E).
Defined.

Lemma recorded_kept_witness :
  recorded twoTasks /\
  recorded (snd (updateTask countingUUID tickingClock twoTasks (taskId callBob)
                   (statusUpdate completed))) /\
  recorded (snd (deleteTask twoTasks (taskId payTheBill))) /\
  exists task W',
    createTask toLowerCaseAscii countingUUID tickingClock twoTasks
      (titled "Fix the server" "It is down" None) = Some (task, W') /\
    recorded W'.
Proof.
  destruct (recorded_kept toLowerCaseAscii countingUUID tickingClock
              millisecondsText twoTasks twoTasks_recorded)
    as [Hc [Hu [Hd _]]].
  split; [exact twoTasks_recorded|]. split; [apply Hu|]. split; [apply Hd|].
  destruct (createTask toLowerCaseAscii countingUUID tickingClock twoTasks
              (titled "Fix the server" "It is down" None))
    as [[task W']|] eqn:E; [|vm_compute in E; discriminate E].
  exists task, W'. split; [reflexivity|]. exact (Hc _ _ _ E).
Defined.

Lemma seedTasks_once_witness :
  seedTasks toLowerCaseAscii countingUUID tickingClock millisecondsText twoTasks
  = Some twoTasks /\
  exists W',
    seedTasks toLowerCaseAscii countingUUID tickingClock millisecondsText emptyStore
    = Some W' /\
    map title (tasks W') = map (fun e => js (fst (fst e))) sampleTexts /\
    map taskCategory (tasks W')
    = map categoryName [scheduling; technical; safety; finance; technical] /\
    map taskPriority (tasks W') = map priorityName [high; high; low; low; medium] /\
    Forall (fun t => status t = pending) (tasks W') /\
    length (taskHistory W') = 5 + length (taskHistory emptyStore) /\
    seedTasks toLowerCaseAscii countingUUID tickingClock millisecondsText W'
    = Some W'.
Proof.
  split.
  - apply (proj1 (seedTasks_once toLowerCaseAscii toLowerCaseAscii_ascii
                    countingUUID tickingClock millisecondsText twoTasks)).
    discriminate.
  - apply (proj2 (seedTasks_once toLowerCaseAscii toLowerCaseAscii_ascii
                    countingUUID tickingClock millisecondsText emptyStore)).
    reflexivity.
Defined.

Lemma edge_low_priority_is_high_witness :
  Edge.priority (Edge.classifyTask toLowerCaseAscii (js "Low priority cleanup") (js ""))
  = js "high".
Proof.
  apply (edge_low_priority_is_high toLowerCaseAscii).
  exists [], (js " cleanup "). reflexivity.
Defined.

Lemma priority_defaults_differ_witness :
  exists r M',
    classifyTask toLowerCaseAscii initialState (js "Water the plants") (js "")
    = Some (r, M') /\
    priority r = low /\
    Edge.priority (Edge.classifyTask toLowerCaseAscii (js "Water the plants") (js ""))
    = js "medium".
Proof.
  apply (priority_defaults_differ toLowerCaseAscii initialState).
  - intros p k Hk Hs. apply includes_spec in Hs.
    destruct p; cbn in Hk;
      repeat (destruct Hk as [<-|Hk]; [vm_compute in Hs; discriminate Hs|]);
      exact Hk.
  - intros name k Hk Hs. apply includes_spec in Hs.
    unfold Edge.keywordsOf, Edge.property in Hk.
    cbn [find Edge.priorityKeywords fst] in Hk.
    repeat match type of Hk with
           | context [jsstring_eqb ?a (js name)] =>
               destruct (jsstring_eqb a (js name))
           end;
      cbn in Hk;
      repeat (destruct Hk as [<-|Hk]; [vm_compute in Hs; discriminate Hs|]);
      exact Hk.
Defined.

Lemma edge_entities_from_text_witness :
  let entities :=
    Edge.extracted_entities
      (Edge.classifyTask toLowerCaseAscii (js "Call Bob") (js "Today, or on Monday")) in
  Edge.people entities = jss ["call bob today"] /\
  Edge.dates entities = jss ["today"; "monday"] /\
  Forall (fun s => map asciiLower s = s) (Edge.people entities ++ Edge.dates entities).
Proof.
  intros entities. split; [vm_compute; reflexivity|].
  split; [vm_compute; reflexivity|].
  apply (edge_entities_from_text toLowerCaseAscii toLowerCaseAscii_ascii
           (js "Call Bob") (js "Today, or on Monday")).
  reflexivity.
Defined.

Lemma extractPeople_contact_witness :
  exists ps,
    extractPeople (js "Please " ++ js "contact John Smith" ++ js ", then wait")
    = Some ps /\
    In (js "John Smith") ps.
Proof.
  apply (extractPeople_contact (js "Please ") (js ", then wait")).
  - intros pre' c E. change (js "Please ") with (js "Please" ++ [32%N]) in E.
    apply app_inj_tail in E. destruct E as [_ <-]. vm_compute.
    intros H. repeat (destruct H as [H|H]; [discriminate H|]). exact H.
  - intros c post' E. injection E as <- _. vm_compute.
    intros H. repeat (destruct H as [H|H]; [discriminate H|]). exact H.
Defined.

(** Without the two conditions the name is not found: a capitalized word
    that runs into "contact", and letters that run on after "Smith". *)
Example contact_needs_boundaries :
  extractPeople (js "with Jocontact John Smith") = Some (jss ["Jocontact John"]) /\
  extractPeople (js "contact John Smithson") = Some (jss ["John Smithson"]).
Proof. split; vm_compute; reflexivity. Qed.

Lemma getTaskById_first_and_history_witness :
  fst (getTaskById twoTasks (taskId callBob)) = Some callBob.
Proof.
  apply (proj1 (proj2 (getTaskById_first_and_history twoTasks (taskId callBob)))
           [payTheBill] callBob []).
  - reflexivity.
  - reflexivity.
  - intros u [<-|[]] H. apply countingUUID_injective in H. discriminate H.
Defined.

Lemma history_append_only_witness :
  exists task W' entry,
    createTask toLowerCaseAscii countingUUID tickingClock twoTasks
      (titled "Fix the server" "It is down" None) = Some (task, W') /\
    taskHistory W' = taskHistory twoTasks ++ [entry] /\
    action entry = action_created /\ task_id entry = taskId task /\
    new_value entry = task.
Proof.
  destruct (createTask toLowerCaseAscii countingUUID tickingClock twoTasks
              (titled "Fix the server" "It is down" None))
    as [[task W']|] eqn:E; [|vm_compute in E; discriminate E].
  destruct (proj1 (history_append_only toLowerCaseAscii countingUUID tickingClock
                     millisecondsText twoTasks) _ _ _ E) as [entry H].
  exists task, W', entry. split; [reflexivity|exact H].
Defined.
